(** * metaPhase: graph transformation and consensus primitives

    A shallow embedding of [src/metaphase/transform.py] and
    [src/flye_consensus.py].  Python lists are Rocq lists, dictionaries
    that are iterated in insertion order are association lists, [None]
    is [option], and an uncaught Python exception is the [None] of an
    [option]-valued function.  Python's floats are exact rationals.
    Configuration constants that live in the absent [params] module
    ([start_end_gap], [strong_cluster_min_reads], [parental_min_len],
    [parental_min_coverage]) are section variables; the graph that
    [nx.from_pandas_adjacency] builds from the absent adjacency-matrix
    code is an argument of [build_paths_graph]. *)

From Stdlib Require Import String Ascii DecimalString ZArith QArith Qround Bool Lia List Permutation Sorted.
Import ListNotations.
Open Scope Z_scope.

(** ** Python list primitives *)

Module Py.

(** [l.remove(x)]: drops the first occurrence, [ValueError] ([None])
    when [x] is absent. *)
Fixpoint list_remove (x : Z) (l : list Z) : option (list Z) :=
  match l with
  | [] => None
  | y :: r =>
      if y =? x then Some r
      else match list_remove x r with
           | Some r' => Some (y :: r')
           | None => None
           end
  end.

Definition mem (x : Z) (l : list Z) : bool := existsb (Z.eqb x) l.

(** [l.index(x)]: position of the first occurrence, [ValueError] when
    absent. *)
Fixpoint index (x : Z) (l : list Z) : option Z :=
  match l with
  | [] => None
  | y :: r =>
      if y =? x then Some 0
      else match index x r with
           | Some i => Some (i + 1)
           | None => None
           end
  end.

(** [l[i]] with Python's negative indices, [IndexError] out of range. *)
Definition getitem (l : list Z) (i : Z) : option Z :=
  let n := Z.of_nat (length l) in
  if (0 <=? i) && (i <? n) then nth_error l (Z.to_nat i)
  else if (i <? 0) && (0 <=? i + n) then nth_error l (Z.to_nat (i + n))
  else None.

(** Insertion into an ascending duplicate-free list: one step of
    [sorted(set(...))]. *)
Fixpoint insert_uniq (x : Z) (l : list Z) : list Z :=
  match l with
  | [] => [x]
  | y :: r =>
      if x <? y then x :: l
      else if x =? y then l
      else y :: insert_uniq x r
  end.

(** [sorted(set(l))] on integers. *)
Definition sorted_set (l : list Z) : list Z := fold_right insert_uniq [] l.

End Py.

(** ** transform.py *)

Module Transform.

(** A value of the [Cluster] column: the string ['NA'] or an integer. *)
Inductive ClusterId : Type :=
| NA
| Cl (c : Z).

(** One row of the read-to-cluster table [cl]. *)
Record Row : Type := mkRow { ReadName : string; Cluster : ClusterId }.

(** [cl['Cluster'] == c] for an integer [c]. *)
Definition cluster_is (c : Z) (k : ClusterId) : bool :=
  match k with
  | NA => false
  | Cl c' => c' =? c
  end.

(** [data[read]]: alignment extent of a read on the edge. *)
Record ReadInfo : Type := mkRead { rStart : Z; rStop : Z }.

(** [cons[cluster]]: interval and depth of a cluster. *)
Record ClusterInfo : Type := mkInfo { Start : Z; Stop : Z; Cov : Q }.

(** *** Unclustered reads, lines 471-478 of [graph_create_unitigs] *)

(** The type pandas gives the [Cluster] column.  The table is read with
    [keep_default_na=False], so a cell ['NA'] stays the string it is, and
    a column with such a cell holds every cell as a string; a column of
    integers only is an integer column. *)
Definition int_column (cl : list Row) : bool :=
  forallb (fun r => match Cluster r with NA => false | Cl _ => true end) cl.

(** One cell of [cl['Cluster'] == 0]: the comparison is with the integer
    0, which no cell of a string column equals. *)
Definition is_unclustered (cl : list Row) (r : Row) : bool :=
  int_column cl && cluster_is 0 (Cluster r).

(** [len(cl.loc[cl['Cluster'] == 0,'Cluster'].values)] *)
Definition unclustered_count (cl : list Row) : Z :=
  Z.of_nat (length (filter (is_unclustered cl) cl)).

(** [cl.loc[cl['Cluster'] == 0, 'Cluster'] = 1000000] *)
Definition relabel_row (cl : list Row) (r : Row) : Row :=
  if is_unclustered cl r then mkRow (ReadName r) (Cl 1000000) else r.

Definition relabel_unclustered (cl : list Row) : list Row :=
  if unclustered_count cl >? 10 then map (relabel_row cl) cl else cl.

(** [cl.loc[cl['Cluster'] != 'NA','Cluster'].values]; in a string
    column an id stands for its decimal text. *)
Fixpoint cluster_values (cl : list Row) : list Z :=
  match cl with
  | [] => []
  | r :: rest =>
      match Cluster r with
      | NA => cluster_values rest
      | Cl c => c :: cluster_values rest
      end
  end.

(** The text of an id in a string column. *)
Definition decimal (c : Z) : string := NilZero.string_of_int (Z.to_int c).

(** [sorted(set(l))] on strings: the order is that of the texts,
    character by character. *)
Fixpoint insert_text (x : Z) (l : list Z) : list Z :=
  match l with
  | [] => [x]
  | y :: r =>
      if String.ltb (decimal x) (decimal y) then x :: l
      else if x =? y then l
      else y :: insert_text x r
  end.

Definition sorted_text_set (l : list Z) : list Z := fold_right insert_text [] l.

(** [clusters = sorted(set(...))] followed by the guarded
    [clusters.remove(0)].  On a string column the list holds strings,
    the integer 0 is not among them, and the [ValueError] of [remove] is
    swallowed. *)
Definition edge_clusters (cl : list Row) : list Z :=
  if int_column cl then
    let clusters := Py.sorted_set (cluster_values cl) in
    match Py.list_remove 0 clusters with
    | Some clusters' => clusters'
    | None => clusters
    end
  else sorted_text_set (cluster_values cl).

(** The table and the cluster list the rest of [graph_create_unitigs]
    works on. *)
Definition read_clusters (cl : list Row) : list Row * list Z :=
  let cl' := relabel_unclustered cl in
  (cl', edge_clusters cl').

(** *** [strong_tail] *)

Section StrongTail.

Variable start_end_gap : Z.
Variable strong_cluster_min_reads : Z.

(** [list(cl.loc[cl['Cluster'] == cluster, 'ReadName'])] *)
Definition cluster_reads (cl : list Row) (cluster : Z) : list string :=
  map ReadName (filter (fun r => cluster_is cluster (Cluster r)) cl).

(** [if count == None: count = 0] then [count = count + 1]. *)
Definition bump (count : option Z) : option Z :=
  match count with
  | None => Some (0 + 1)
  | Some n => Some (n + 1)
  end.

(** The loop over the reads; [None] is the [KeyError] of [data[read]]. *)
Fixpoint tail_counts (data : string -> option ReadInfo) (ln : Z)
    (reads : list string) (count_start count_stop : option Z)
    : option (option Z * option Z) :=
  match reads with
  | [] => Some (count_start, count_stop)
  | read :: rest =>
      match data read with
      | None => None
      | Some d =>
          let count_start' :=
            if rStart d <? start_end_gap then bump count_start else count_start in
          let count_stop' :=
            if rStop d >? ln - start_end_gap then bump count_stop else count_stop in
          tail_counts data ln rest count_start' count_stop'
      end
  end.

(** [count != None and count > strong_cluster_min_reads] *)
Definition tail_is_strong (count : option Z) : bool :=
  match count with
  | None => false
  | Some n => n >? strong_cluster_min_reads
  end.

Definition strong_tail (cluster : Z) (cl : list Row) (ln : Z)
    (data : string -> option ReadInfo) : option (bool * bool) :=
  match tail_counts data ln (cluster_reads cl cluster) None None with
  | None => None
  | Some (count_start, count_stop) =>
      Some (tail_is_strong count_start, tail_is_strong count_stop)
  end.

(** Number of reads of the cluster that start within the left margin,
    and that end within the right margin. *)
Definition starts_in_margin (data : string -> option ReadInfo) (read : string) : bool :=
  match data read with
  | Some d => rStart d <? start_end_gap
  | None => false
  end.

Definition ends_in_margin (data : string -> option ReadInfo) (ln : Z) (read : string) : bool :=
  match data read with
  | Some d => rStop d >? ln - start_end_gap
  | None => false
  end.

Definition left_tail_reads (cluster : Z) (cl : list Row)
    (data : string -> option ReadInfo) : Z :=
  Z.of_nat (length (filter (starts_in_margin data) (cluster_reads cl cluster))).

Definition right_tail_reads (cluster : Z) (cl : list Row) (ln : Z)
    (data : string -> option ReadInfo) : Z :=
  Z.of_nat (length (filter (ends_in_margin data ln) (cluster_reads cl cluster))).

End StrongTail.

(** *** Background coverage: [change_cov] and the removal decision *)

(** [range(a, b)] *)
Definition py_range (a b : Z) : list Z :=
  map (fun k => a + Z.of_nat k) (seq 0 (Z.to_nat (b - a))).

(** [len(set(l))] *)
Definition len_set (l : list Z) : Z := Z.of_nat (length (nodup Z.eq_dec l)).

Definition Qltb (x y : Q) : bool := negb (Qle_bool y x).

(** Python's [round] on a number: nearest integer, ties to even. *)
Definition py_round (q : Q) : Z :=
  let f := Qfloor q in
  let r := (q - inject_Z f)%Q in
  if Qltb r (1 # 2) then f
  else if Qltb (1 # 2) r then f + 1
  else if Z.even f then f else f + 1.

(** The loop of [change_cov] over [othercl]: the accumulated
    [Cov * (Stop - Start)] and the covered positions [len_cl].  [None] is
    the [KeyError] of [cons[i]]. *)
Fixpoint other_coverage (cons : Z -> option ClusterInfo) (othercl : list Z)
    (cov : Q) (len_cl : list Z) : option (Q * list Z) :=
  match othercl with
  | [] => Some (cov, len_cl)
  | i :: rest =>
      match cons i with
      | None => None
      | Some ci =>
          other_coverage cons rest
            (cov + Cov ci * inject_Z (Stop ci - Start ci))%Q
            (len_cl ++ py_range (Start ci) (Stop ci))
      end
  end.

(** [len(clusters) - len(othercl) != 0] *)
Definition some_phased_out (clusters othercl : list Z) : bool :=
  negb (Z.of_nat (length clusters) - Z.of_nat (length othercl) =? 0).

(** What [change_cov] leaves behind: the returned coverage, the global
    [remove_clusters] list and the depth written to the edge's segment. *)
Record CovResult : Type := mkCov {
  cov_value : Q;
  cov_removed : list string;
  cov_dp : Z
}.

Section Background.

Variable parental_min_len : Q.
Variable parental_min_coverage : Q.

(** [change_cov(g, edge, cons, ln, clusters, othercl)]; [None] is a
    [KeyError] or the [ZeroDivisionError] of a zero edge length.  The
    graph [g] is not part of the model: the lookup of the edge's segment
    is taken to succeed, and the sum that Python forms in floats is the
    exact rational. *)
Definition change_cov (remove_clusters : list string) (edge : string)
    (cons : Z -> option ClusterInfo) (ln : Z) (clusters othercl : list Z)
    : option CovResult :=
  match other_coverage cons othercl 0%Q [] with
  | None => None
  | Some (cov, len_cl) =>
      if ln =? 0 then None
      else
        let remove_clusters' :=
          if Qltb (inject_Z (len_set len_cl) / inject_Z ln)%Q parental_min_len
             && some_phased_out clusters othercl
          then remove_clusters ++ [edge]
          else remove_clusters in
        let cov' := (cov / inject_Z ln)%Q in
        Some (mkCov cov' remove_clusters' (py_round cov'))
  end.

(** Lines 548-554 of [graph_create_unitigs]: [change_cov], then either
    the edge is appended to [remove_clusters] or [change_sec] is called.
    The boolean tells whether [change_sec] ran. *)
Definition background_decision (remove_clusters : list string) (edge : string)
    (cons : Z -> option ClusterInfo) (ln : Z) (clusters othercl : list Z)
    : option (list string * bool) :=
  match change_cov remove_clusters edge cons ln clusters othercl with
  | None => None
  | Some r =>
      let new_cov := cov_value r in
      if Qltb parental_min_coverage (inject_Z 6) && some_phased_out clusters othercl
      then Some (cov_removed r ++ [edge], false)
      else Some (cov_removed r, true)
  end.

(** The decision the specification describes, on the coverage that
    [change_cov] returned. *)
Definition coverage_below_threshold (edge : string)
    (cons : Z -> option ClusterInfo) (ln : Z) (clusters othercl : list Z)
    : option bool :=
  match change_cov [] edge cons ln clusters othercl with
  | None => None
  | Some r =>
      Some (Qltb (cov_value r) parental_min_coverage
            && some_phased_out clusters othercl)
  end.

End Background.

(** *** The adjacency graph: a [networkx.DiGraph] over cluster ids *)

Record DiGraph : Type := mkGraph { nodes : list Z; edges : list (Z * Z) }.

Definition has_node (G : DiGraph) (n : Z) : bool := Py.mem n (nodes G).

Definition touches (n : Z) (e : Z * Z) : bool := (fst e =? n) || (snd e =? n).

(** [G.remove_node(n)]: [NetworkXError] when [n] is not a node. *)
Definition remove_node (G : DiGraph) (n : Z) : option DiGraph :=
  if has_node G n
  then Some (mkGraph (filter (fun m => negb (m =? n)) (nodes G))
                     (filter (fun e => negb (touches n e)) (edges G)))
  else None.

Definition has_edge (G : DiGraph) (u v : Z) : bool :=
  existsb (fun e => (fst e =? u) && (snd e =? v)) (edges G).

(** [G.remove_edge(u, v)]: [NetworkXError] when the edge is absent. *)
Definition remove_edge (G : DiGraph) (u v : Z) : option DiGraph :=
  if has_edge G u v
  then Some (mkGraph (nodes G)
                     (filter (fun e => negb ((fst e =? u) && (snd e =? v))) (edges G)))
  else None.

Definition successors (G : DiGraph) (n : Z) : list Z :=
  map snd (filter (fun e => fst e =? n) (edges G)).

Definition predecessors (G : DiGraph) (n : Z) : list Z :=
  map fst (filter (fun e => snd e =? n) (edges G)).

(** [nx.all_neighbors(G, n)]: predecessors, then successors;
    [NetworkXError] when [n] is not a node. *)
Definition all_neighbors (G : DiGraph) (n : Z) : option (list Z) :=
  if has_node G n then Some (predecessors G n ++ successors G n) else None.

(** [G.remove_edges_from(list(nx.selfloop_edges(G)))] *)
Definition remove_selfloops (G : DiGraph) : DiGraph :=
  mkGraph (nodes G) (filter (fun e => negb (fst e =? snd e)) (edges G)).

(** *** [remove_nested] *)

(** [cons[node]["Start"] < cons[neighbor]["Start"] and
    cons[node]["Stop"] > cons[neighbor]["Stop"]] *)
Definition strictly_contains (a b : ClusterInfo) : bool :=
  (Start a <? Start b) && (Stop a >? Stop b).

(** The inner loop over a node's neighbours.  A [KeyError] of [cons]
    leaves the loop (outer [except]); a failing [remove_node] only skips
    that neighbour (inner [except]). *)
Fixpoint prune_neighbors (cons : Z -> option ClusterInfo) (node : Z)
    (neighbors : list Z) (G : DiGraph) : DiGraph :=
  match neighbors with
  | [] => G
  | neighbor :: rest =>
      match cons node, cons neighbor with
      | Some cn, Some cb =>
          if strictly_contains cn cb then
            match remove_node G neighbor with
            | Some G' => prune_neighbors cons node rest G'
            | None => prune_neighbors cons node rest G
            end
          else prune_neighbors cons node rest G
      | _, _ => G
      end
  end.

Definition prune_node (cons : Z -> option ClusterInfo) (G : DiGraph) (node : Z)
    : DiGraph :=
  match all_neighbors G node with
  | None => G
  | Some neighbors => prune_neighbors cons node neighbors G
  end.

Definition remove_nested (G : DiGraph) (cons : Z -> option ClusterInfo) : DiGraph :=
  fold_left (prune_node cons) (nodes G) G.

(** *** Simple paths, as [networkx.all_simple_paths] enumerates them *)

(** Depth-first enumeration from the last node of [visited]: a path is
    reported whenever a child is a target, and the search goes on below
    the child while some target is not yet on the path.  [fuel] is the
    [cutoff] of networkx, [len(G) - 1]. *)
Fixpoint simple_paths (fuel : nat) (G : DiGraph) (targets visited children : list Z)
    : list (list Z) :=
  match fuel with
  | O => []
  | S fuel' =>
      flat_map
        (fun child =>
           if Py.mem child visited then []
           else
             (if Py.mem child targets then [visited ++ [child]] else [])
             ++ (if forallb (fun t => Py.mem t (visited ++ [child])) targets then []
                 else simple_paths fuel' G targets (visited ++ [child])
                        (successors G child)))
        children
  end.

(** After the argument checks, as in networkx 2.x: nothing when the
    source is itself a target or the graph has fewer than two nodes. *)
Definition simple_paths_from (G : DiGraph) (source : Z) (targets : list Z)
    : list (list Z) :=
  if Py.mem source targets then []
  else
    let cutoff := Z.of_nat (length (nodes G)) - 1 in
    if cutoff <? 1 then []
    else simple_paths (Z.to_nat cutoff) G targets [source] (successors G source).

(** [nx.all_simple_paths(G, source, target)] with one node as target:
    [NodeNotFound] when either end is not a node. *)
Definition all_simple_paths_to (G : DiGraph) (source target : Z)
    : option (list (list Z)) :=
  if negb (has_node G source) then None
  else if negb (has_node G target) then None
  else Some (simple_paths_from G source [target]).

(** [nx.all_simple_paths(G, source, targets)] with a list of targets:
    [NodeNotFound] when the source is not a node. *)
Definition all_simple_paths (G : DiGraph) (source : Z) (targets : list Z)
    : option (list (list Z)) :=
  if negb (has_node G source) then None
  else Some (simple_paths_from G source targets).

(** *** [build_paths_graph] *)

Definition bind {A B : Type} (x : option A) (f : A -> option B) : option B :=
  match x with
  | Some a => f a
  | None => None
  end.

Notation "x <- e ;; k" := (bind e (fun x => k))
  (at level 100, e at next level, right associativity).

(** One pass [for node in anchors: for neighbor in anchors: ...]: the
    neighbours joined to the node by a two-node path.  [forward] is the
    leaf pass (paths from node to neighbour), otherwise the root pass
    (paths from neighbour to node). *)
Fixpoint direct_links (G : DiGraph) (forward : bool) (node : Z)
    (neighbors : list Z) (node_remove : list Z) : option (list Z) :=
  match neighbors with
  | [] => Some node_remove
  | neighbor :: rest =>
      ps <- (if forward then all_simple_paths_to G node neighbor
             else all_simple_paths_to G neighbor node) ;;
      direct_links G forward node rest
        (node_remove
         ++ map (fun _ => neighbor) (filter (fun p => Z.of_nat (length p) =? 2) ps))
  end.

Fixpoint anchor_links (G : DiGraph) (forward : bool) (anchors todo : list Z)
    (node_remove : list Z) : option (list Z) :=
  match todo with
  | [] => Some node_remove
  | node :: rest =>
      nr <- direct_links G forward node anchors node_remove ;;
      anchor_links G forward anchors rest nr
  end.

(** The guarded block [G.remove_node(node); full_paths_roots.remove(node);
    full_paths_leafs.remove(node)]: the first failing call ends it. *)
Definition drop_anchor (st : DiGraph * list Z * list Z) (node : Z)
    : DiGraph * list Z * list Z :=
  let '(G, roots, leafs) := st in
  match remove_node G node with
  | None => st
  | Some G' =>
      match Py.list_remove node roots with
      | None => (G', roots, leafs)
      | Some roots' =>
          match Py.list_remove node leafs with
          | None => (G', roots', leafs)
          | Some leafs' => (G', roots', leafs')
          end
      end
  end.

(** The three-node paths between a node and its neighbours. *)
Fixpoint detours_of (G : DiGraph) (node : Z) (neighbors : list Z)
    (path_remove : list (list Z)) : option (list (list Z)) :=
  match neighbors with
  | [] => Some path_remove
  | neighbor :: rest =>
      ps <- all_simple_paths_to G node neighbor ;;
      detours_of G node rest
        (path_remove ++ filter (fun p => Z.of_nat (length p) =? 3) ps)
  end.

Fixpoint detours (G : DiGraph) (todo : list Z) (path_remove : list (list Z))
    : option (list (list Z)) :=
  match todo with
  | [] => Some path_remove
  | node :: rest =>
      neighbors <- all_neighbors G node ;;
      pr <- detours_of G node neighbors path_remove ;;
      detours G rest pr
  end.

(** [G.remove_edge(n_path[0], n_path[1])] under [try]. *)
Definition drop_first_hop (G : DiGraph) (n_path : list Z) : DiGraph :=
  match n_path with
  | a :: b :: _ =>
      match remove_edge G a b with
      | Some G' => G'
      | None => G
      end
  | _ => G
  end.

(** [build_paths_graph]; [G0] is the graph [nx.from_pandas_adjacency]
    built from the adjacency matrix.  Returns the graph and the root and
    leaf lists, which the function updates in place. *)
Definition build_paths_graph (G0 : DiGraph) (cons : Z -> option ClusterInfo)
    (full_paths_roots full_paths_leafs : list Z)
    : option (DiGraph * list Z * list Z) :=
  let G1 := remove_selfloops G0 in
  let G2 := match remove_node G1 0 with Some G' => G' | None => G1 end in
  nr1 <- anchor_links G2 true full_paths_leafs full_paths_leafs [] ;;
  node_remove <- anchor_links G2 false full_paths_roots full_paths_roots nr1 ;;
  let G3 := remove_nested G2 cons in
  let '(G4, roots, leafs) :=
    fold_left drop_anchor node_remove (G3, full_paths_roots, full_paths_leafs) in
  path_remove <- detours G4 (nodes G4) [] ;;
  Some (fold_left drop_first_hop path_remove G4, roots, leafs).

(** *** [find_full_paths] *)

(** The loop over the roots.  [bound] tells whether [paths_nx] has been
    assigned: a failed call leaves the generator of the previous round,
    which [list] has already drained, or no variable at all
    ([UnboundLocalError]). *)
Fixpoint find_paths_loop (G : DiGraph) (paths_leafs : list Z) (roots : list Z)
    (bound : bool) (paths : list (list Z)) : option (list (list Z)) :=
  match roots with
  | [] => Some paths
  | root :: rest =>
      match all_simple_paths G root paths_leafs with
      | Some paths_nx => find_paths_loop G paths_leafs rest true (paths ++ paths_nx)
      | None =>
          if bound then find_paths_loop G paths_leafs rest true paths
          else None
      end
  end.

Definition find_full_paths (G : DiGraph) (paths_roots paths_leafs : list Z)
    : option (list (list Z)) :=
  find_paths_loop G paths_leafs paths_roots false [].

(** *** Cluster classification, lines 497-515 of [graph_create_unitigs] *)

(** [cons[k] = v] *)
Definition cons_set (cons : Z -> option ClusterInfo) (k : Z) (v : ClusterInfo)
    : Z -> option ClusterInfo :=
  fun x => if x =? k then Some v else cons x.

(** State of the classification loop.  [cls_children] lists the clusters
    for which [add_child_edge] was called over their whole consensus. *)
Record Classes : Type := mkClasses {
  cls_cons : Z -> option ClusterInfo;
  full_clusters : list Z;
  full_paths_roots : list Z;
  full_paths_leafs : list Z;
  cls_children : list Z
}.

Section Classify.

Variable start_end_gap : Z.
Variable strong_cluster_min_reads : Z.

(** One round of [for cluster in clusters].  [strong_tail] is only
    called when the cluster touches an end of the edge. *)
Definition classify_cluster (cl : list Row) (ln : Z)
    (data : string -> option ReadInfo) (st : Classes) (cluster : Z)
    : option Classes :=
  ci <- cls_cons st cluster ;;
  let clStart := Start ci in
  let clStop := Stop ci in
  let at_left := clStart <? start_end_gap in
  let at_right := clStop >? ln - start_end_gap in
  if at_left || at_right then
    tails <- strong_tail start_end_gap strong_cluster_min_reads cluster cl ln data ;;
    let '(strong_l, strong_r) := tails in
    let st1 :=
      if at_left && at_right then
        if strong_l && strong_r then
          mkClasses (cls_cons st) (full_clusters st ++ [cluster])
            (full_paths_roots st) (full_paths_leafs st)
            (cls_children st ++ [cluster])
        else if negb strong_l then
          mkClasses
            (cons_set (cls_cons st) cluster
               (mkInfo (Start ci + start_end_gap + 1) (Stop ci) (Cov ci)))
            (full_clusters st) (full_paths_roots st) (full_paths_leafs st)
            (cls_children st)
        else
          mkClasses
            (cons_set (cls_cons st) cluster
               (mkInfo (Start ci) (Stop ci - start_end_gap - 1) (Cov ci)))
            (full_clusters st) (full_paths_roots st) (full_paths_leafs st)
            (cls_children st)
      else st in
    let st2 :=
      if at_left && strong_l then
        mkClasses (cls_cons st1) (full_clusters st1)
          (full_paths_roots st1 ++ [cluster]) (full_paths_leafs st1)
          (cls_children st1)
      else st1 in
    let st3 :=
      if at_right && strong_r then
        mkClasses (cls_cons st2) (full_clusters st2)
          (full_paths_roots st2) (full_paths_leafs st2 ++ [cluster])
          (cls_children st2)
      else st2 in
    Some st3
  else Some st.

Fixpoint classify_loop (cl : list Row) (ln : Z)
    (data : string -> option ReadInfo) (clusters : list Z) (st : Classes)
    : option Classes :=
  match clusters with
  | [] => Some st
  | cluster :: rest =>
      st' <- classify_cluster cl ln data st cluster ;;
      classify_loop cl ln data rest st'
  end.

Definition classify (cl : list Row) (ln : Z) (data : string -> option ReadInfo)
    (cons : Z -> option ClusterInfo) (clusters : list Z) : option Classes :=
  classify_loop cl ln data clusters (mkClasses cons [] [] [] []).

(** Classification, graph pruning and path enumeration, lines 497-525,
    on the graph [G0] of the adjacency matrix. *)
Definition discover_paths (cl : list Row) (ln : Z)
    (data : string -> option ReadInfo) (cons : Z -> option ClusterInfo)
    (clusters : list Z) (G0 : DiGraph)
    : option (Classes * DiGraph * list Z * list Z * list (list Z)) :=
  c <- classify cl ln data cons clusters ;;
  g <- build_paths_graph G0 (cls_cons c) (full_paths_roots c) (full_paths_leafs c) ;;
  let '(G, roots, leafs) := g in
  paths <- find_full_paths G roots leafs ;;
  Some (c, G, roots, leafs, paths).

End Classify.

(** *** [add_path_edges]: cut-point resolution *)

(** [cut_l] and [cut_r]: dictionaries from cluster to a cut or [None],
    in insertion order. *)
Definition Cuts : Type := list (Z * option Z).

(** [d[k]]: the outer [None] is a [KeyError]. *)
Fixpoint cut_get (d : Cuts) (k : Z) : option (option Z) :=
  match d with
  | [] => None
  | (k', v) :: r => if k' =? k then Some v else cut_get r k
  end.

(** [d[k] = v]: an existing key keeps its place. *)
Fixpoint cut_set (d : Cuts) (k : Z) (v : option Z) : Cuts :=
  match d with
  | [] => [(k, v)]
  | (k', v') :: r => if k' =? k then (k', v) :: r else (k', v') :: cut_set r k v
  end.

Definition cut_set_all (d : Cuts) (ks : list Z) (v : option Z) : Cuts :=
  fold_left (fun d' k => cut_set d' k v) ks d.

(** Stable insertion by key: [sorted(items, key=...)]. *)
Fixpoint insert_by (x : Z * Z) (l : list (Z * Z)) : list (Z * Z) :=
  match l with
  | [] => [x]
  | y :: r => if snd x <=? snd y then x :: l else y :: insert_by x r
  end.

Definition sort_by_value (l : list (Z * Z)) : list (Z * Z) :=
  fold_right insert_by [] l.

(** The guarded block [paths_roots.remove(node); paths_leafs.remove(node)]. *)
Definition drop_full (st : list Z * list Z) (node : Z) : list Z * list Z :=
  let '(roots, leafs) := st in
  match Py.list_remove node roots with
  | None => st
  | Some roots' =>
      match Py.list_remove node leafs with
      | None => (roots', leafs)
      | Some leafs' => (roots', leafs')
      end
  end.

(** [path[path.index(n) + 1]] and [path[path.index(n) - 1]]; [None] is
    the [ValueError] or [IndexError] the loops catch. *)
Definition next_on (path : list Z) (n : Z) : option Z :=
  i <- Py.index n path ;; Py.getitem path (i + 1).

Definition prev_on (path : list Z) (n : Z) : option Z :=
  i <- Py.index n path ;; Py.getitem path (i - 1).

(** State of the traversal: the stack [Q] (top first), [L], [R] and
    [visited]. *)
Record Walk : Type := mkWalk {
  wQ : list Z;
  wL : list Z;
  wR : list Z;
  wVisited : list Z
}.

(** [for path in paths[edge]] when the popped node is in [L]. *)
Definition step_back (n : Z) (w : Walk) (path : list Z) : Walk :=
  match Py.index n path with
  | None => w
  | Some i =>
      if i >? 0 then
        match Py.getitem path (i - 1) with
        | None => w
        | Some p =>
            if negb (Py.mem p (wVisited w))
            then mkWalk (p :: wQ w) (wL w) (wR w ++ [p]) (wVisited w)
            else w
        end
      else w
  end.

(** [for path in paths[edge]] when the popped node is not in [L]. *)
Definition step_forward (n : Z) (w : Walk) (path : list Z) : Walk :=
  match next_on path n with
  | None => w
  | Some s =>
      if negb (Py.mem s (wVisited w))
      then mkWalk (s :: wQ w) (wL w ++ [s]) (wR w) (wVisited w)
      else w
  end.

(** [while Q]: [None] when the fuel runs out. *)
Fixpoint walk (fuel : nat) (paths : list (list Z)) (w : Walk) : option Walk :=
  match wQ w with
  | [] => Some w
  | n :: q =>
      match fuel with
      | O => None
      | S fuel' =>
          let w1 := mkWalk q (wL w) (wR w) (wVisited w ++ [n]) in
          let w2 :=
            if Py.mem n (wL w1) then fold_left (step_back n) paths w1
            else fold_left (step_forward n) paths w1 in
          walk fuel' paths w2
      end
  end.

(** The successors of [member] that seed [L] and [Q]. *)
Definition seed (member : Z) (w : Walk) (path : list Z) : Walk :=
  match next_on path member with
  | None => w
  | Some s => mkWalk (s :: wQ w) (wL w ++ [s]) (wR w) (wVisited w)
  end.

Definition walk_fuel (paths : list (list Z)) : nat :=
  S (length paths * S (length (concat paths))).

(** [int(cons[i]["Start"])] for [i] in [L], and the same for [Stop]. *)
Fixpoint borders (cons : Z -> option ClusterInfo) (f : ClusterInfo -> Z)
    (l : list Z) : option (list Z) :=
  match l with
  | [] => Some []
  | i :: r =>
      ci <- cons i ;;
      bs <- borders cons f r ;;
      Some (f ci :: bs)
  end.

(** [max(l)] and [min(l)]: [ValueError] on the empty list. *)
Definition py_max (l : list Z) : option Z :=
  match l with
  | [] => None
  | x :: r => Some (fold_left Z.max r x)
  end.

Definition py_min (l : list Z) : option Z :=
  match l with
  | [] => None
  | x :: r => Some (fold_left Z.min r x)
  end.

(** Result of [add_path_edges]: the lists and the graph it updates in
    place, the final cut dictionaries, and the calls
    [add_child_edge(edge, cluster, ..., cut_l, cut_r, ...)] it made. *)
Record PathEdges : Type := mkPathEdges {
  pe_path_cl : list Z;
  pe_roots : list Z;
  pe_leafs : list Z;
  pe_paths : list (list Z);
  pe_graph : DiGraph;
  pe_cut_l : Cuts;
  pe_cut_r : Cuts;
  pe_children : list (Z * Z * Z)
}.

Section AddPathEdges.

Variable start_end_gap : Z.

(** Iteration order of [set(path_cl)]. *)
Variable set_order : list Z -> list Z.

(** The first loop over [set(path_cl)]: seeds of [cut_l] and [cut_r]. *)
Fixpoint seed_cuts (cons : Z -> option ClusterInfo) (ln : Z)
    (paths_roots paths_leafs : list Z) (todo : list Z) (cl cr : Cuts)
    : option (Cuts * Cuts) :=
  match todo with
  | [] => Some (cl, cr)
  | path_cluster :: rest =>
      l <- (if Py.mem path_cluster paths_roots then
              ci <- cons path_cluster ;;
              Some (if Start ci <? start_end_gap then Some (Start ci) else None)
            else Some None) ;;
      let r := if Py.mem path_cluster paths_leafs then Some (ln - 1) else None in
      seed_cuts cons ln paths_roots paths_leafs rest
        (cut_set cl path_cluster l) (cut_set cr path_cluster r)
  end.

(** [stop_pos] *)
Fixpoint stop_positions (cons : Z -> option ClusterInfo) (keys : list Z)
    : option (list (Z * Z)) :=
  match keys with
  | [] => Some []
  | i :: r =>
      ci <- cons i ;;
      sp <- stop_positions cons r ;;
      Some ((i, Stop ci) :: sp)
  end.

(** [for i in order_by_stop_pos: cut[i] = cut_unsorted[i]] *)
Fixpoint reorder_cuts (unsorted : Cuts) (keys : list Z) : option Cuts :=
  match keys with
  | [] => Some []
  | i :: r =>
      v <- cut_get unsorted i ;;
      d <- reorder_cuts unsorted r ;;
      Some ((i, v) :: d)
  end.

(** One round of [for member in cut_l.keys()]. *)
Definition resolve_member (cons : Z -> option ClusterInfo)
    (paths : list (list Z)) (paths_leafs : list Z) (st : Cuts * Cuts)
    (member : Z) : option (Cuts * Cuts) :=
  let '(cut_l, cut_r) := st in
  l <- cut_get cut_l member ;;
  r <- cut_get cut_r member ;;
  let is_leaf := Py.mem member paths_leafs in
  match l with
  | None => Some st
  | Some _ =>
      if match r with None => true | Some _ => false end || is_leaf then
        w <- walk (walk_fuel paths) paths
               (fold_left (seed member) paths (mkWalk [] [] [] [])) ;;
        l_borders <- borders cons Start (wL w) ;;
        r_borders <- borders cons Stop (wR w) ;;
        border <- (if is_leaf then Some r
                   else
                     ml <- py_max l_borders ;;
                     mr <- py_min r_borders ;;
                     Some (Some (ml + (mr - ml) / 2))) ;;
        Some (cut_set_all cut_l (wL w) border, cut_set_all cut_r (wR w) border)
      else Some st
  end.

Fixpoint resolve_loop (cons : Z -> option ClusterInfo)
    (paths : list (list Z)) (paths_leafs : list Z) (members : list Z)
    (st : Cuts * Cuts) : option (Cuts * Cuts) :=
  match members with
  | [] => Some st
  | member :: rest =>
      st' <- resolve_member cons paths paths_leafs st member ;;
      resolve_loop cons paths paths_leafs rest st'
  end.

(** [cut_l[member] = cut_r[path[path.index(member) - 1]]] under [try]. *)
Definition inherit_on (cut_r : Cuts) (member : Z) (cut_l : Cuts) (path : list Z)
    : Cuts :=
  match prev_on path member with
  | None => cut_l
  | Some p =>
      match cut_get cut_r p with
      | None => cut_l
      | Some v => cut_set cut_l member v
      end
  end.

Definition inherit_member (paths : list (list Z)) (cut_r : Cuts) (cut_l : Cuts)
    (member : Z) : Cuts :=
  match cut_get cut_l member with
  | Some None => fold_left (inherit_on cut_r member) paths cut_l
  | _ => cut_l
  end.

(** [if None in cut_l.values(): ...] *)
Definition inherit_cuts (paths : list (list Z)) (cut_l cut_r : Cuts) : Cuts :=
  if existsb (fun kv => match snd kv with None => true | Some _ => false end) cut_l
  then fold_left (inherit_member paths cut_r) (map fst cut_l) cut_l
  else cut_l.

(** [upd_path.remove(path_cluster)] on every path that has the cluster. *)
Definition drop_from_path (path_cluster : Z) (path : list Z) : list Z :=
  match Py.list_remove path_cluster path with
  | Some path' => path'
  | None => path
  end.

Definition option_Z_eqb (a b : option Z) : bool :=
  match a, b with
  | None, None => true
  | Some x, Some y => x =? y
  | _, _ => false
  end.

(** The last loop over [set(path_cl)]: a cluster whose cuts differ goes
    to [add_child_edge], which fails on a [None] cut; the others leave
    the paths and the graph.  The calls are recorded, not performed: the
    segments of the GFA graph are not part of the model, so a call that
    would find its segment in the graph already is recorded like any
    other. *)
Fixpoint emit_children (cut_l cut_r : Cuts) (todo : list Z)
    (paths : list (list Z)) (G : DiGraph) (children : list (Z * Z * Z))
    : option (list (list Z) * DiGraph * list (Z * Z * Z)) :=
  match todo with
  | [] => Some (paths, G, children)
  | path_cluster :: rest =>
      l <- cut_get cut_l path_cluster ;;
      r <- cut_get cut_r path_cluster ;;
      if negb (option_Z_eqb l r) then
        left <- l ;;
        right <- r ;;
        emit_children cut_l cut_r rest paths G
          (children ++ [(path_cluster, left, right)])
      else
        G' <- remove_node G path_cluster ;;
        emit_children cut_l cut_r rest
          (map (drop_from_path path_cluster) paths) G' children
  end.

Definition add_path_edges (ln : Z) (paths : list (list Z)) (G : DiGraph)
    (paths_roots paths_leafs full_clusters : list Z)
    (cons : Z -> option ClusterInfo) : option PathEdges :=
  let '(roots, leafs) := fold_left drop_full full_clusters (paths_roots, paths_leafs) in
  let path_cl := concat paths in
  let members := set_order path_cl in
  seeds <- seed_cuts cons ln roots leafs members [] [] ;;
  let '(cut_l_unsorted, cut_r_unsorted) := seeds in
  stop_pos <- stop_positions cons (map fst cut_r_unsorted) ;;
  let order_by_stop_pos := map fst (sort_by_value stop_pos) in
  cl0 <- reorder_cuts cut_l_unsorted order_by_stop_pos ;;
  cr0 <- reorder_cuts cut_r_unsorted order_by_stop_pos ;;
  resolved <- resolve_loop cons paths leafs (map fst cl0) (cl0, cr0) ;;
  let '(cut_l1, cut_r) := resolved in
  let cut_l := inherit_cuts paths cut_l1 cut_r in
  out <- emit_children cut_l cut_r members paths G [] ;;
  let '(paths', G', children) := out in
  Some (mkPathEdges path_cl roots leafs paths' G' cut_l cut_r children).

End AddPathEdges.

(** *** [add_path_links] *)

(** The two clusters that the link line of round [i] joins:
    [path[i]] and [path[i + 1]]. *)
Definition link_at (path : list Z) (i : Z) : option (Z * Z) :=
  a <- Py.getitem path i ;;
  b <- Py.getitem path (i + 1) ;;
  Some (a, b).

(** The links [add_path_links] asks the graph to add, one per path and
    per [i] in [range(0, len(path) - 1)]; [None] would be an
    [IndexError]. *)
Definition add_path_links (paths : list (list Z)) : list (option (Z * Z)) :=
  flat_map
    (fun path => map (link_at path) (py_range 0 (Z.of_nat (length path) - 1)))
    paths.

(** *** Background clusters, lines 531-546 of [graph_create_unitigs] *)

Section BackgroundClusters.

(** Iteration order of a set, as in [add_path_edges]. *)
Variable set_order : list Z -> list Z.

(** [list(set(clusters) - set(full_clusters) - set(path clusters)
    - set(cl_removed))]; [cl_removed] is what [paths_graph_add_vis]
    returns, a list it creates empty and never appends to. *)
Definition other_clusters (clusters full_clusters : list Z) (paths : list (list Z))
    : list Z :=
  set_order
    (filter (fun c => negb (Py.mem c full_clusters) && negb (Py.mem c (concat paths)))
       clusters).

(** [len(A.intersection(set(full_clusters))) > 0 or
    len(A.intersection(B)) > 0] for the neighbours [A] of a cluster. *)
Definition touches_phased (full_clusters : list Z) (paths : list (list Z))
    (neighbors : list Z) : bool :=
  existsb (fun n => Py.mem n full_clusters) neighbors
  || existsb (fun n => Py.mem n (concat paths)) neighbors.

(** One round of [for cluster in othercl.copy()].  [None] is the
    [NetworkXError] of [nx.all_neighbors] on a cluster that is not a
    node of the graph. *)
Definition close_round (G : DiGraph) (full_clusters : list Z)
    (paths : list (list Z)) (st : list Z * list Z) (cluster : Z)
    : option (list Z * list Z) :=
  let '(othercl, close_to_full) := st in
  neighbors <- all_neighbors G cluster ;;
  if touches_phased full_clusters paths neighbors then
    othercl' <- Py.list_remove cluster othercl ;;
    Some (othercl', close_to_full ++ [cluster])
  else Some st.

Fixpoint close_loop (G : DiGraph) (full_clusters : list Z)
    (paths : list (list Z)) (todo : list Z) (st : list Z * list Z)
    : option (list Z * list Z) :=
  match todo with
  | [] => Some st
  | cluster :: rest =>
      st' <- close_round G full_clusters paths st cluster ;;
      close_loop G full_clusters paths rest st'
  end.

(** The background clusters [othercl] that reach [change_cov], and
    [close_to_full].  [G] is the graph built anew from the adjacency
    matrix, which the loop only consults when [othercl] is not empty. *)
Definition background_clusters (G : DiGraph) (clusters full_clusters : list Z)
    (paths : list (list Z)) : option (list Z * list Z) :=
  let othercl := other_clusters clusters full_clusters paths in
  close_loop G full_clusters paths othercl (othercl, []).

End BackgroundClusters.

End Transform.

(** ** flye_consensus.py *)

Module FlyeConsensus.

Import Transform.

(** An alignment record of the name-indexed BAM file. *)
Record Alignment : Type := mkAln {
  reference_name : string;
  reference_start : Z;
  reference_end : Z
}.

(** The dictionary [flye_consensus] returns. *)
Record Consensus : Type := mkConsensus {
  consensus : string;
  c_start : Z;
  c_end : Z
}.

(** What the function cannot see: the alignment store, the graph file
    and the behaviour of the external tools. [polish] is [None] when the
    polisher exits with an error, and holds [None] when its output cannot
    be read back. *)
Record Env : Type := mkEnv {
  name_indexed : string -> option (list Alignment);
  gfa_sequence : string -> option string;
  sort_ok : Z -> bool;
  index_ok : Z -> bool;
  polish : string -> Z -> option (option string)
}.

(** The file system and the record of polisher invocations, one entry
    [(edge, cluster)] per invocation. *)
Record World : Type := mkWorld {
  files : list string;
  polish_runs : list (string * Z)
}.

(** A call either returns or leaves with an exception. *)
Inductive Outcome (A : Type) : Type :=
| Returned (a : A)
| Raised.

Arguments Returned {A} a.
Arguments Raised {A}.

Definition str (z : Z) : string := NilZero.string_of_int (Z.to_int z).

Definition has_file (w : World) (f : string) : bool :=
  existsb (String.eqb f) (files w).

Definition create (f : string) (w : World) : World :=
  if has_file w f then w else mkWorld (files w ++ [f]) (polish_runs w).

(** [os.remove] and [shutil.rmtree]: [None] when the path is absent. *)
Definition remove (f : string) (w : World) : option World :=
  if has_file w f
  then Some (mkWorld (filter (fun g => negb (String.eqb f g)) (files w)) (polish_runs w))
  else None.

(** The temporary paths of one call. *)
Definition reads_bam (cluster : Z) : string := "cluster_" ++ str cluster ++ "_reads.bam".
Definition sorted_bam (cluster : Z) : string := "cluster_" ++ str cluster ++ "_reads_sorted.bam".
Definition sorted_bai (cluster : Z) : string := "cluster_" ++ str cluster ++ "_reads_sorted.bam.bai".
Definition cut_fasta (edge : string) (cluster : Z) : string :=
  "output/" ++ edge ++ "-cluster" ++ str cluster ++ ".fa".
Definition polish_dir (edge : string) (cluster : Z) : string :=
  "output/flye_consensus_" ++ edge ++ "_" ++ str cluster.

Definition temp_files (edge : string) (cluster : Z) : list string :=
  [reads_bam cluster; sorted_bam cluster; sorted_bai cluster;
   cut_fasta edge cluster; polish_dir edge cluster].

(** [extract_reads]: the extent of the cluster's alignments on the edge,
    [-1] standing for "not yet seen". *)
Definition widen (edge : string) (ext : Z * Z) (x : Alignment) : Z * Z :=
  let '(cluster_start, cluster_end) := ext in
  if String.eqb (reference_name x) edge then
    (if (reference_start x <? cluster_start) || (cluster_start =? -1)
     then reference_start x else cluster_start,
     if (reference_end x >? cluster_end) || (cluster_end =? -1)
     then reference_end x else cluster_end)
  else ext.

Definition extract_reads (read_names : list string)
    (name_indexed : string -> option (list Alignment)) (edge : string) : Z * Z :=
  fold_left
    (fun ext name =>
       match name_indexed name with
       | None => ext
       | Some alns => fold_left (widen edge) alns ext
       end)
    read_names (-1, -1).

(** [flye_consensus(cluster, edge, cl, name_indexed, bam_header)] *)
Definition flye_consensus (env : Env) (cluster : Z) (edge : string)
    (cl : list Row) (w : World) : World * Outcome Consensus :=
  let reads_from_curr_cluster := cluster_reads cl cluster in
  let '(cluster_start, cluster_end) :=
    extract_reads reads_from_curr_cluster (name_indexed env) edge in
  let w1 := create (reads_bam cluster) w in
  match gfa_sequence env edge with
  | None => (w1, Raised)
  | Some _ =>
      let w2 := create (cut_fasta edge cluster) w1 in
      let w3 := create (sorted_bam cluster) w2 in
      if negb (sort_ok env cluster) then (w3, Raised)
      else if negb (index_ok env cluster) then (w3, Raised)
      else
        let w4 := create (sorted_bai cluster) w3 in
        let w5 := mkWorld (files w4) (polish_runs w4 ++ [(edge, cluster)]) in
        match polish env edge cluster with
        | None => (w5, Returned (mkConsensus "" cluster_start cluster_end))
        | Some out =>
            let w6 := create (polish_dir edge cluster) w5 in
            let seq := match out with Some s => s | None => ""%string end in
            match remove (cut_fasta edge cluster) w6 with
            | None => (w6, Raised)
            | Some w7 =>
            match remove (reads_bam cluster) w7 with
            | None => (w7, Raised)
            | Some w8 =>
            match remove (sorted_bam cluster) w8 with
            | None => (w8, Raised)
            | Some w9 =>
            match remove (sorted_bai cluster) w9 with
            | None => (w9, Raised)
            | Some w10 =>
            match remove (polish_dir edge cluster) w10 with
            | None => (w10, Raised)
            | Some w11 => (w11, Returned (mkConsensus seq cluster_start cluster_end))
            end end end end end
        end
  end.

(** Python's [s[a:b]] for integers [a] and [b]. *)
Definition clamp_index (n i : Z) : Z :=
  if i <? 0 then Z.max (i + n) 0 else Z.min i n.

Definition py_slice {A : Type} (l : list A) (a b : Z) : list A :=
  let n := Z.of_nat (length l) in
  let lo := clamp_index n a in
  let hi := clamp_index n b in
  firstn (Z.to_nat (hi - lo)) (skipn (Z.to_nat lo) l).

(** Best score of a global alignment with match +1, mismatch -1 and
    gap -1: what [aligner.align(a, b)[0].score] holds. *)
Definition pair_score (a b : ascii) : Z := if Ascii.eqb a b then 1 else -1.

Fixpoint align_score (s : list ascii) : list ascii -> Z :=
  match s with
  | [] => fun t => - Z.of_nat (length t)
  | a :: s' =>
      fix row (t : list ascii) : Z :=
        match t with
        | [] => - Z.of_nat (length s)
        | b :: t' =>
            Z.max (align_score s' t' + pair_score a b)
                  (Z.max (align_score s' t - 1) (row t' - 1))
        end
  end.

(** The arithmetic of [cluster_distance_via_alignment] on the two
    consensus dictionaries. *)
Definition consensus_distance (first_cl_dict second_cl_dict : Consensus) : Q :=
  let intersection_start := Z.max (c_start first_cl_dict) (c_start second_cl_dict) in
  let intersection_end := Z.min (c_end first_cl_dict) (c_end second_cl_dict) in
  let first_consensus_clipped :=
    py_slice (list_ascii_of_string (consensus first_cl_dict))
      (intersection_start - c_start first_cl_dict)
      (intersection_end - c_start first_cl_dict) in
  let second_consensus_clipped :=
    py_slice (list_ascii_of_string (consensus second_cl_dict))
      (intersection_start - c_start second_cl_dict)
      (intersection_end - c_start second_cl_dict) in
  if (intersection_end - intersection_start <? 1)
     || (Z.of_nat (length first_consensus_clipped) =? 0)
     || (Z.of_nat (length second_consensus_clipped) =? 0)
  then 1%Q
  else (1 - inject_Z (align_score first_consensus_clipped second_consensus_clipped)
            / inject_Z (intersection_end - intersection_start))%Q.

(** [cluster_distance_via_alignment(first_cl, second_cl, cl,
    name_indexed, bam_header, edge)] *)
Definition cluster_distance_via_alignment (env : Env) (first_cl second_cl : Z)
    (cl : list Row) (edge : string) (w : World) : World * Outcome Q :=
  match flye_consensus env first_cl edge cl w with
  | (w1, Raised) => (w1, Raised)
  | (w1, Returned first_cl_dict) =>
      match flye_consensus env second_cl edge cl w1 with
      | (w2, Raised) => (w2, Raised)
      | (w2, Returned second_cl_dict) =>
          (w2, Returned (consensus_distance first_cl_dict second_cl_dict))
      end
  end.

(** Number of polisher invocations recorded for a key. *)
Definition runs_for (edge : string) (cluster : Z) (w : World) : nat :=
  length (filter (fun k => String.eqb (fst k) edge && (snd k =? cluster)) (polish_runs w)).

(** [read_list] of [extract_reads]: the alignments on [edge] of the
    reads the index knows, in the order they are met. *)
Definition read_list (read_names : list string)
    (name_indexed : string -> option (list Alignment)) (edge : string)
    : list Alignment :=
  flat_map
    (fun name =>
       match name_indexed name with
       | None => []
       | Some alns => filter (fun x => String.eqb (reference_name x) edge) alns
       end)
    read_names.

End FlyeConsensus.

(** ** transform.py: child segments *)

Module ChildEdges.

Import Transform FlyeConsensus.

Definition tab : string := String "009"%char EmptyString.

(** What a call of [add_child_edge] leaves behind: a segment line on
    [remove_zeroes], or a new segment of the graph with its name, its
    sequence and its depth. *)
Inductive ChildEdge : Type :=
| Zero (line : string)
| Segment (name : string) (sequence : list ascii) (dp : Q).

(** The sequence [seq] of [add_child_edge].  [consensus] is the
    dictionary the consensus object returned for the cluster,
    [main_seq] the sequence of the edge's own segment; [None] is the
    [AttributeError] of an edge without segment. *)
Definition child_sequence (consensus : Consensus) (main_seq : option string)
    (left right : Z) : option (list ascii) :=
  let consensus_start := c_start consensus in
  let text := list_ascii_of_string (FlyeConsensus.consensus consensus) in
  if consensus_start >? left then
    main <- main_seq ;;
    let insert := py_slice (list_ascii_of_string main) left consensus_start in
    let seq := py_slice text 0 (right - consensus_start + 1) in
    Some (insert ++ seq)
  else
    Some (py_slice text (left - consensus_start) (right - consensus_start + 1)).

(** [add_child_edge(edge, clN, g, cl, left, right, cons,
    flye_consensus)]; the last [None] is the [KeyError] of [cons[clN]]. *)
Definition add_child_edge (edge : string) (clN : Z) (main_seq : option string)
    (consensus : Consensus) (left right : Z) (cons : Z -> option ClusterInfo)
    : option ChildEdge :=
  seq <- child_sequence consensus main_seq left right ;;
  if Z.of_nat (length seq) =? 0 then
    Some (Zero ("S" ++ tab ++ edge ++ "_" ++ str clN ++ tab ++ "*"))
  else
    ci <- cons clN ;;
    Some (Segment (edge ++ "_" ++ str clN) seq (Cov ci)).

End ChildEdges.

(** ** The consensus provider *)

Module ConsensusProvider.

Import Transform FlyeConsensus.

(** The cache [consensus_dict]: results by edge and cluster, in
    insertion order. *)
Definition Cache : Type := list (string * Z * Consensus).

Definition same_key (k k' : string * Z) : bool :=
  String.eqb (fst k) (fst k') && (snd k =? snd k').

Fixpoint cache_get (d : Cache) (k : string * Z) : option Consensus :=
  match d with
  | [] => None
  | (k', c) :: r => if same_key k' k then Some c else cache_get r k
  end.

(** State of the provider: the cache, and the record of the external
    computations it has issued, one key per computation. *)
Record Provider : Type := mkProvider {
  consensus_dict : Cache;
  computed : list (string * Z)
}.

(** One request of a run: the cluster, the edge and the edge's table. *)
Record Request : Type := mkRequest {
  req_cluster : Z;
  req_edge : string;
  req_cl : list Row
}.

Definition key (r : Request) : string * Z := (req_edge r, req_cluster r).

(** The two requests a consensus-distance call issues, lines 122-129 of
    [cluster_distance_via_alignment]. *)
Definition distance_requests (first_cl second_cl : Z) (cl : list Row)
    (edge : string) : list Request :=
  [mkRequest first_cl edge cl; mkRequest second_cl edge cl].

Section Requests.

(** The external computation: collecting the reads, cutting the
    reference and running the polisher.  It hands back a result also
    when polishing fails, and it may change the world. *)
Variable external : string -> Z -> list Row -> World -> World * Consensus.

(** Modelled from the spec: the class [FlyeConsensus], which
    [transform.py] imports and builds around [consensus_dict] and whose
    method [flye_consensus(cluster, edge, cl)] serves every request of a
    run, is not among the sources.  The method follows the
    specification of the Consensus Provider: results are cached per
    (edge, cluster) key for the run, so a request for a key of the cache
    returns the cached result, and any other request performs the
    external computation, stores its result under the key and returns
    it. *)
Definition request (p : Provider) (cluster : Z) (edge : string)
    (cl : list Row) (w : World) : Provider * World * Consensus :=
  match cache_get (consensus_dict p) (edge, cluster) with
  | Some c => (p, w, c)
  | None =>
      let '(w', c) := external edge cluster cl w in
      (mkProvider (consensus_dict p ++ [(edge, cluster, c)])
                  (computed p ++ [(edge, cluster)]),
       w', c)
  end.

(** The requests of a run, one after the other, with their results. *)
Fixpoint serve (reqs : list Request) (p : Provider) (w : World)
    : Provider * World * list Consensus :=
  match reqs with
  | [] => (p, w, [])
  | r :: rest =>
      let '(p1, w1, c) := request p (req_cluster r) (req_edge r) (req_cl r) w in
      let '(p2, w2, cs) := serve rest p1 w1 in
      (p2, w2, c :: cs)
  end.

End Requests.

(** The external computation as [flye_consensus] of
    [src/flye_consensus.py] performs it; where that function raises,
    the empty consensus without an interval. *)
Definition polished (env : Env) (edge : string) (cluster : Z) (cl : list Row)
    (w : World) : World * Consensus :=
  match flye_consensus env cluster edge cl w with
  | (w', Returned c) => (w', c)
  | (w', Raised) => (w', mkConsensus "" (-1) (-1))
  end.

End ConsensusProvider.

(** * Sample inputs and auxiliary notions *)

Import Transform.

(** A table with eleven unclustered reads, every read with a cluster
    id. *)
Definition clean_table : list Row :=
  map (fun n => mkRow n (Cl 0))
      ["r1"; "r2"; "r3"; "r4"; "r5"; "r6"; "r7"; "r8"; "r9"; "r10"; "r11"]%string
  ++ [mkRow "r12" (Cl 1); mkRow "r13" (Cl 2)].

(** The same table with one more read, whose cluster is ['NA']. *)
Definition sample_table : list Row := clean_table ++ [mkRow "r14" NA].

(** The rows whose cell is the id 0, whatever the column holds. *)
Definition zero_rows (cl : list Row) : list Row :=
  filter (fun r => cluster_is 0 (Cluster r)) cl.

(** Reads of one cluster on an edge of length 1000: three of them start
    within the first 50 positions. *)
Definition sample_reads : list Row :=
  [mkRow "a" (Cl 1); mkRow "b" (Cl 1); mkRow "c" (Cl 1); mkRow "d" (Cl 1);
   mkRow "e" (Cl 2)]%string.

Definition sample_data (read : string) : option ReadInfo :=
  if String.eqb read "a" then Some (mkRead 0 400)
  else if String.eqb read "b" then Some (mkRead 10 500)
  else if String.eqb read "c" then Some (mkRead 49 600)
  else if String.eqb read "d" then Some (mkRead 50 700)
  else if String.eqb read "e" then Some (mkRead 300 1000)
  else None.

(** A counter after [k] more qualifying reads. *)
Definition advance (count : option Z) (k : nat) : option Z :=
  match k with
  | O => count
  | S _ => Some (match count with None => 0 | Some n => n end + Z.of_nat k)
  end.

(** Two background clusters that cover 20 of 100 positions. *)
Definition thin_cons (c : Z) : option ClusterInfo :=
  if c =? 1 then Some (mkInfo 0 10 5)
  else if c =? 2 then Some (mkInfo 20 30 5)
  else None.

(** A background cluster of depth [cov] over the whole edge of length
    100. *)
Definition flat_cons (cov : Q) (c : Z) : option ClusterInfo :=
  if c =? 2 then Some (mkInfo 0 100 cov) else None.

(** The neighbour list [ns] of [u] gives [prune_neighbors] nothing to
    do in [G]: up to the first [KeyError], every neighbour that [u]
    strictly contains is not a node. *)
Fixpoint quiet (cons : Z -> option ClusterInfo) (G : DiGraph) (u : Z)
    (ns : list Z) : Prop :=
  match ns with
  | [] => True
  | v :: rest =>
      match cons u, cons v with
      | Some cu, Some cv =>
          (strictly_contains cu cv = true -> has_node G v = false)
          /\ quiet cons G u rest
      | _, _ => True
      end
  end.

Definition settled (cons : Z -> option ClusterInfo) (G : DiGraph) (u : Z) : Prop :=
  match all_neighbors G u with
  | None => True
  | Some ns => quiet cons G u ns
  end.

(** Three clusters of two reads each on the edge [edge_1]. *)
Definition sample_clusters : list Row :=
  [mkRow "a" (Cl 1); mkRow "b" (Cl 1); mkRow "c" (Cl 2); mkRow "d" (Cl 2);
   mkRow "e" (Cl 3); mkRow "f" (Cl 3)]%string.

Definition sample_alignments (name : string) : option (list FlyeConsensus.Alignment) :=
  if String.eqb name "a" then Some [FlyeConsensus.mkAln "edge_1" 0 4]
  else if String.eqb name "b" then Some [FlyeConsensus.mkAln "edge_1" 2 6]
  else if String.eqb name "c" then Some [FlyeConsensus.mkAln "edge_1" 1 5]
  else if String.eqb name "d" then Some [FlyeConsensus.mkAln "edge_1" 3 8]
  else if String.eqb name "e" then Some [FlyeConsensus.mkAln "edge_1" 0 8]
  else if String.eqb name "f" then Some [FlyeConsensus.mkAln "edge_2" 0 9]
  else None.

(** An environment in which every tool succeeds, and one in which the
    polisher fails. *)
Definition tools_ok : FlyeConsensus.Env :=
  FlyeConsensus.mkEnv sample_alignments
    (fun edge => if String.eqb edge "edge_1" then Some "ACGTACGT"%string else None)
    (fun _ => true) (fun _ => true)
    (fun _ cluster => Some (Some (if (cluster =? 1)%Z then "ACGTAC"%string else "CGTTCGT"%string))).

Definition polisher_fails : FlyeConsensus.Env :=
  FlyeConsensus.mkEnv sample_alignments
    (fun edge => if String.eqb edge "edge_1" then Some "ACGTACGT"%string else None)
    (fun _ => true) (fun _ => true)
    (fun _ _ => None).

Definition empty_world : FlyeConsensus.World := FlyeConsensus.mkWorld [] [].

(** An edge of length 1000 with a root cluster 1, an inner cluster 2
    and a full cluster 3, linked 1 -> 2 -> 3; clusters 1 and 3 do not
    overlap. *)
Definition chain_to_full_reads : list Row :=
  [mkRow "a1" (Cl 1); mkRow "a2" (Cl 1);
   mkRow "b1" (Cl 2); mkRow "b2" (Cl 2);
   mkRow "c1" (Cl 3); mkRow "c2" (Cl 3); mkRow "c3" (Cl 3)]%string.

Definition chain_to_full_data (read : string) : option ReadInfo :=
  if String.eqb read "a1" then Some (mkRead 0 30)
  else if String.eqb read "a2" then Some (mkRead 5 28)
  else if String.eqb read "b1" then Some (mkRead 20 600)
  else if String.eqb read "b2" then Some (mkRead 100 700)
  else if String.eqb read "c1" then Some (mkRead 45 1000)
  else if String.eqb read "c2" then Some (mkRead 48 990)
  else if String.eqb read "c3" then Some (mkRead 60 980)
  else None.

Definition chain_to_full_cons (c : Z) : option ClusterInfo :=
  if c =? 1 then Some (mkInfo 0 30 2)
  else if c =? 2 then Some (mkInfo 20 700 2)
  else if c =? 3 then Some (mkInfo 45 1000 3)
  else None.

Definition chain_to_full_graph : DiGraph := mkGraph [1; 2; 3] [(1, 2); (2, 3)].

(** Two clusters that both span the edge with strong tails. *)
Definition two_full_reads : list Row :=
  [mkRow "a1" (Cl 1); mkRow "a2" (Cl 1); mkRow "b1" (Cl 2); mkRow "b2" (Cl 2)]%string.

Definition two_full_data (read : string) : option ReadInfo :=
  if String.eqb read "a1" then Some (mkRead 0 1000)
  else if String.eqb read "a2" then Some (mkRead 5 990)
  else if String.eqb read "b1" then Some (mkRead 2 1000)
  else if String.eqb read "b2" then Some (mkRead 8 995)
  else None.

Definition two_full_cons (c : Z) : option ClusterInfo :=
  if c =? 1 then Some (mkInfo 0 1000 2)
  else if c =? 2 then Some (mkInfo 2 1000 2)
  else None.

Definition two_full_graph : DiGraph := mkGraph [1; 2] [].

(** Bookkeeping for the classification loop: the clusters handled so
    far, each with the pair "was appended to the roots, was appended to
    the leafs". *)
Definition tags_ok (tagged : list (Z * (bool * bool))) (st : Classes) : Prop :=
  full_paths_roots st = map fst (filter (fun t => fst (snd t)) tagged) /\
  full_paths_leafs st = map fst (filter (fun t => snd (snd t)) tagged) /\
  full_clusters st = map fst (filter (fun t => fst (snd t) && snd (snd t)) tagged).

(** An edge of length 1000 on which cluster 1 is followed by 2 and by 3,
    2 by 4 and 3 by 5. *)
Definition fork_reads : list Row :=
  [mkRow "a1" (Cl 1); mkRow "a2" (Cl 1); mkRow "b1" (Cl 2); mkRow "b2" (Cl 2);
   mkRow "c1" (Cl 3); mkRow "c2" (Cl 3); mkRow "d1" (Cl 4); mkRow "d2" (Cl 4);
   mkRow "e1" (Cl 5); mkRow "e2" (Cl 5)]%string.

Definition fork_data (read : string) : option ReadInfo :=
  if String.eqb read "a1" then Some (mkRead 0 800)
  else if String.eqb read "a2" then Some (mkRead 10 700)
  else if String.eqb read "b1" then Some (mkRead 100 850)
  else if String.eqb read "b2" then Some (mkRead 120 800)
  else if String.eqb read "c1" then Some (mkRead 700 900)
  else if String.eqb read "c2" then Some (mkRead 710 880)
  else if String.eqb read "d1" then Some (mkRead 200 990)
  else if String.eqb read "d2" then Some (mkRead 300 985)
  else if String.eqb read "e1" then Some (mkRead 750 1000)
  else if String.eqb read "e2" then Some (mkRead 760 995)
  else None.

Definition fork_cons (c : Z) : option ClusterInfo :=
  if c =? 1 then Some (mkInfo 0 800 2)
  else if c =? 2 then Some (mkInfo 100 850 2)
  else if c =? 3 then Some (mkInfo 700 900 2)
  else if c =? 4 then Some (mkInfo 200 990 2)
  else if c =? 5 then Some (mkInfo 750 1000 2)
  else None.

Definition fork_graph : DiGraph :=
  mkGraph [1; 2; 3; 4; 5] [(1, 2); (1, 3); (2, 4); (3, 5)].

(** The chain of the third end-to-end scenario. *)
Definition chain_cons (c : Z) : option ClusterInfo :=
  if c =? 1 then Some (mkInfo 0 40 2)
  else if c =? 2 then Some (mkInfo 35 70 2)
  else if c =? 3 then Some (mkInfo 65 100 2)
  else None.

Definition chain_graph : DiGraph := mkGraph [1; 2; 3] [(1, 2); (2, 3)].

(** Interval ends of a cluster, 0 when [cons] has no entry, and the cut
    placed between a cluster [a] and its successor [b]. *)
Definition start_of (cons : Z -> option ClusterInfo) (c : Z) : Z :=
  match cons c with Some ci => Start ci | None => 0 end.

Definition stop_of (cons : Z -> option ClusterInfo) (c : Z) : Z :=
  match cons c with Some ci => Stop ci | None => 0 end.

Definition midpoint (cons : Z -> option ClusterInfo) (a b : Z) : Z :=
  start_of cons b + (stop_of cons a - start_of cons b) / 2.

(** [a] comes immediately before [b] on the path [p]. *)
Definition adjacent (a b : Z) (p : list Z) : Prop :=
  exists l1 l2, p = l1 ++ a :: b :: l2.

(** Along a path: only the last cluster is a leaf, and only it has a
    right cut so far. *)
Fixpoint ready (ln : Z) (leafs : list Z) (cut_r : Cuts) (a : Z) (rest : list Z)
    : Prop :=
  match rest with
  | [] => Py.mem a leafs = true /\ cut_get cut_r a = Some (Some (ln - 1))
  | b :: rest' =>
      Py.mem a leafs = false /\ cut_get cut_r a = Some None
      /\ ready ln leafs cut_r b rest'
  end.

(** Along a path: each right cut is the midpoint with the successor and
    equals the successor's left cut; the last right cut is [ln - 1]. *)
Fixpoint tiled (cons : Z -> option ClusterInfo) (ln : Z) (cut_l cut_r : Cuts)
    (a : Z) (rest : list Z) : Prop :=
  match rest with
  | [] => cut_get cut_r a = Some (Some (ln - 1))
  | b :: rest' =>
      cut_get cut_r a = Some (Some (midpoint cons a b))
      /\ cut_get cut_l b = Some (Some (midpoint cons a b))
      /\ tiled cons ln cut_l cut_r b rest'
  end.

(** The seeds of [cut_l] and [cut_r] for one cluster. *)
Definition seed_left (start_end_gap : Z) (cons : Z -> option ClusterInfo)
    (roots : list Z) (c : Z) : option Z :=
  if Py.mem c roots then
    match cons c with
    | Some ci => if Start ci <? start_end_gap then Some (Start ci) else None
    | None => None
    end
  else None.

Definition seed_right (ln : Z) (leafs : list Z) (c : Z) : option Z :=
  if Py.mem c leafs then Some (ln - 1) else None.

(** Along a path: only the last cluster is a leaf. *)
Fixpoint last_is_leaf (leafs : list Z) (a : Z) (rest : list Z) : Prop :=
  match rest with
  | [] => Py.mem a leafs = true
  | b :: rest' => Py.mem a leafs = false /\ last_is_leaf leafs b rest'
  end.

(** Along a path: starts do not decrease, stops increase, and the last
    cluster lies within the edge. *)
Fixpoint ordered (cons : Z -> option ClusterInfo) (ln : Z) (a : Z) (rest : list Z)
    : Prop :=
  match rest with
  | [] => start_of cons a < ln /\ stop_of cons a <= ln
  | b :: rest' =>
      start_of cons a <= start_of cons b /\ stop_of cons a < stop_of cons b
      /\ ordered cons ln b rest'
  end.

(** What the last loop of [add_path_edges] does with a cluster: keep it
    on its paths, and the call of [add_child_edge] it makes. *)
Definition keeps (cut_l cut_r : Cuts) (c : Z) : bool :=
  match cut_get cut_l c, cut_get cut_r c with
  | Some l, Some r => negb (option_Z_eqb l r)
  | _, _ => false
  end.

Definition child_of (cut_l cut_r : Cuts) (c : Z) : list (Z * Z * Z) :=
  match cut_get cut_l c, cut_get cut_r c with
  | Some (Some l), Some (Some r) => if l =? r then [] else [(c, l, r)]
  | _, _ => []
  end.

(** The clusters of [todo] that leave the paths in the last loop. *)
Definition leaves_among (cut_l cut_r : Cuts) (todo : list Z) (x : Z) : bool :=
  existsb (fun c => (c =? x) && negb (keeps cut_l cut_r c)) todo.

(** Along a path, starting with the left cut [v]: each cluster's left
    cut is the right cut of the one before it. *)
Fixpoint linked (cut_l cut_r : Cuts) (v : option Z) (p : list Z) : Prop :=
  match p with
  | [] => True
  | b :: r =>
      cut_get cut_l b = Some v
      /\ exists w, cut_get cut_r b = Some w /\ linked cut_l cut_r w r
  end.

(** Number of clusters of the paths that the traversal has not visited,
    and the measure that bounds the number of rounds still to come: a
    stack entry counts one, an unvisited cluster as many as there are
    paths, less that much when the top of the stack is unvisited. *)
Definition unvisited (paths : list (list Z)) (visited : list Z) : Z :=
  Z.of_nat (length (filter (fun x => negb (Py.mem x visited))
                      (nodup Z.eq_dec (concat paths)))).

Definition top_fresh (w : Walk) : bool :=
  match wQ w with
  | n :: _ => negb (Py.mem n (wVisited w))
  | [] => false
  end.

Definition rounds_left (paths : list (list Z)) (w : Walk) : Z :=
  Z.of_nat (length (wQ w))
  + Z.of_nat (length paths) * unvisited paths (wVisited w)
  - (if top_fresh w then Z.of_nat (length paths) else 0).

(** What one pass over the paths pushes: at most one cluster per path,
    each of them on a path and not yet visited. *)
Definition pushes_of (paths : list (list Z)) (w w' : Walk) : Prop :=
  exists pushed,
    wQ w' = pushed ++ wQ w /\
    wVisited w' = wVisited w /\
    (length pushed <= length paths)%nat /\
    Forall (fun x => In x (concat paths) /\ Py.mem x (wVisited w) = false) pushed.

(** Every edge joins two nodes, as in a networkx graph. *)
Definition wf_graph (G : DiGraph) : Prop :=
  forall e, In e (edges G) -> In (fst e) (nodes G) /\ In (snd e) (nodes G).

(** [G'] has no node and no edge that [G] lacks. *)
Definition shrinks (G' G : DiGraph) : Prop :=
  incl (nodes G') (nodes G) /\ incl (edges G') (edges G).

(** Three clusters, the second nested in the first, all linked. *)
Definition nested_graph : DiGraph := mkGraph [1; 2; 3] [(1, 2); (2, 3); (1, 3)].

Definition nested_cons (c : Z) : option ClusterInfo :=
  if c =? 1 then Some (mkInfo 0 100 2)
  else if c =? 2 then Some (mkInfo 10 50 2)
  else if c =? 3 then Some (mkInfo 60 200 2)
  else None.

(** An adjacency graph with the placeholder node 0, a self-loop, a
    nested cluster 2 and a direct link between the leafs 3 and 4. *)
Definition pruning_graph : DiGraph :=
  mkGraph [0; 1; 2; 3; 4] [(1, 1); (0, 1); (1, 2); (2, 3); (1, 3); (3, 4)].

Definition pruning_cons (c : Z) : option ClusterInfo :=
  if c =? 1 then Some (mkInfo 0 100 2)
  else if c =? 2 then Some (mkInfo 10 50 2)
  else if c =? 3 then Some (mkInfo 60 200 2)
  else if c =? 4 then Some (mkInfo 150 300 2)
  else None.

(** Consecutive nodes of [p] are joined by an edge of [G]. *)
Fixpoint is_walk (G : DiGraph) (p : list Z) : Prop :=
  match p with
  | a :: rest =>
      match rest with
      | b :: _ => In (a, b) (edges G) /\ is_walk G rest
      | [] => True
      end
  | [] => True
  end.

(** The simple paths that the roots present in the graph contribute. *)
Definition paths_of_present_roots (G : DiGraph) (roots leafs : list Z)
    : list (list Z) :=
  flat_map (fun r => if has_node G r then simple_paths_from G r leafs else []) roots.

(** A triangle 1 -> 2 -> 3 with the direct link 1 -> 3, and a tail. *)
Definition triangle_graph : DiGraph :=
  mkGraph [1; 2; 3; 4] [(1, 2); (2, 3); (1, 3); (3, 4)].

Definition triangle_cons (c : Z) : option ClusterInfo :=
  if c =? 1 then Some (mkInfo 0 100 2)
  else if c =? 2 then Some (mkInfo 50 150 2)
  else if c =? 3 then Some (mkInfo 120 200 2)
  else if c =? 4 then Some (mkInfo 180 300 2)
  else None.

(** Three clusters that reach both ends of an edge of length 1000: the
    first with two strong tails, the second with a weak left tail, the
    third with a weak right tail. *)
Definition spanning_reads : list Row :=
  [mkRow "a1" (Cl 1); mkRow "a2" (Cl 1);
   mkRow "b1" (Cl 2); mkRow "b2" (Cl 2);
   mkRow "c1" (Cl 3); mkRow "c2" (Cl 3)]%string.

Definition spanning_data (read : string) : option ReadInfo :=
  if String.eqb read "a1" then Some (mkRead 0 1000)
  else if String.eqb read "a2" then Some (mkRead 5 990)
  else if String.eqb read "b1" then Some (mkRead 10 1000)
  else if String.eqb read "b2" then Some (mkRead 300 995)
  else if String.eqb read "c1" then Some (mkRead 0 700)
  else if String.eqb read "c2" then Some (mkRead 20 980)
  else None.

Definition spanning_cons (c : Z) : option ClusterInfo :=
  if c =? 1 then Some (mkInfo 0 1000 2)
  else if c =? 2 then Some (mkInfo 10 1000 2)
  else if c =? 3 then Some (mkInfo 0 980 2)
  else None.

(** Three clusters on a path, the second squeezed between its
    neighbours so that its two cuts coincide. *)
Definition pinched_cons (c : Z) : option ClusterInfo :=
  if c =? 1 then Some (mkInfo 0 40 2)
  else if c =? 2 then Some (mkInfo 30 41 2)
  else if c =? 3 then Some (mkInfo 30 100 2)
  else None.

Definition pinched_result : PathEdges :=
  mkPathEdges [1; 2; 3] [1] [3] [[1; 3]] (mkGraph [1; 3] [])
    [(1, Some 0); (2, Some 35); (3, Some 35)]
    [(1, Some 35); (2, Some 35); (3, Some 99)]
    [(1, 0, 35); (3, 35, 99)].

(** The clusters that are neither full nor on a path. *)
Definition unphased (clusters full_clusters : list Z) (paths : list (list Z))
    : list Z :=
  filter (fun c => negb (Py.mem c full_clusters) && negb (Py.mem c (concat paths)))
    clusters.

(** A cluster is next to a full cluster or to a cluster on a path. *)
Definition near_phased (G : DiGraph) (full_clusters : list Z)
    (paths : list (list Z)) (c : Z) : Prop :=
  exists n, (In (c, n) (edges G) \/ In (n, c) (edges G))
            /\ (In n full_clusters \/ In n (concat paths)).

(** Five clusters: 1 and 2 on a path, 3 linked to 2, 4 and 5 apart. *)
Definition background_graph : DiGraph :=
  mkGraph [1; 2; 3; 4; 5] [(1, 2); (2, 3); (4, 5)].

(** A file is none of the temporary paths of a call. *)
Definition not_temp (edge : string) (cluster : Z) (f : string) : bool :=
  negb (existsb (String.eqb f) (FlyeConsensus.temp_files edge cluster)).

(** Every computation the provider has recorded left its result in the
    cache, and none is recorded twice. *)
Definition provider_ok (p : ConsensusProvider.Provider) : Prop :=
  NoDup (ConsensusProvider.computed p) /\
  forall k, In k (ConsensusProvider.computed p) ->
            ConsensusProvider.cache_get (ConsensusProvider.consensus_dict p) k <> None.

(** The requests of two distance calls on one edge: cluster 1 against
    cluster 2, then cluster 1 against cluster 3. *)
Definition two_distance_calls : list ConsensusProvider.Request :=
  ConsensusProvider.distance_requests 1 2 sample_clusters "edge_1"
  ++ ConsensusProvider.distance_requests 1 3 sample_clusters "edge_1".

(** * Verification *)

(** ** Facts about the list primitives *)

Lemma mem_In x l : Py.mem x l = true <-> In x l.
Proof.
  unfold Py.mem. rewrite existsb_exists. split.
  - intros [y [Hy E]]. apply Z.eqb_eq in E. now subst.
  - intros H. exists x. split; [assumption | apply Z.eqb_refl].
Qed.

Lemma mem_false x l : Py.mem x l = false <-> ~ In x l.
Proof.
  rewrite <- mem_In. destruct (Py.mem x l); split; intros; congruence.
Qed.

Lemma list_remove_None x l : Py.list_remove x l = None <-> ~ In x l.
Proof.
  induction l as [|y r IH]; simpl.
  - tauto.
  - destruct (Z.eqb_spec y x) as [E|E].
    + split; [discriminate | intros H; exfalso; apply H; now left].
    + destruct (Py.list_remove x r).
      * split; [discriminate|]. intros H. exfalso.
        assert (~ In x r) as H' by tauto. apply IH in H'. discriminate.
      * split; [|reflexivity]. intros _ [H|H]; [congruence|].
        now apply IH.
Qed.

Lemma list_remove_In x l l' :
  Py.list_remove x l = Some l' ->
  forall y, In y l' -> In y l.
Proof.
  revert l'. induction l as [|z r IH]; simpl; intros l' H y Hy.
  - discriminate.
  - destruct (Z.eqb_spec z x).
    + injection H as <-. now right.
    + destruct (Py.list_remove x r) as [r'|]; [|discriminate].
      injection H as <-. destruct Hy as [->|Hy]; [now left|].
      right. now apply (IH r').
Qed.

Lemma list_remove_keeps x l l' :
  Py.list_remove x l = Some l' ->
  forall y, y <> x -> In y l -> In y l'.
Proof.
  revert l'. induction l as [|z r IH]; simpl; intros l' H y Hne Hy.
  - discriminate.
  - destruct (Z.eqb_spec z x).
    + injection H as <-. destruct Hy; [congruence | assumption].
    + destruct (Py.list_remove x r) as [r'|]; [|discriminate].
      injection H as <-. destruct Hy as [->|Hy]; [now left|].
      right. now apply (IH r').
Qed.

Lemma list_remove_NoDup x l l' :
  NoDup l -> Py.list_remove x l = Some l' -> ~ In x l'.
Proof.
  revert l'. induction l as [|z r IH]; simpl; intros l' Hnd H.
  - discriminate.
  - inversion Hnd as [|? ? Hz Hr]; subst.
    destruct (Z.eqb_spec z x).
    + injection H as <-. now subst.
    + destruct (Py.list_remove x r) as [r'|]; [|discriminate].
      injection H as <-. intros [E|Hx]; [congruence|].
      now apply (IH r').
Qed.

Lemma insert_uniq_In x l y : In y (Py.insert_uniq x l) <-> y = x \/ In y l.
Proof.
  induction l as [|z r IH]; simpl.
  - intuition.
  - destruct (x <? z).
    + simpl. intuition.
    + destruct (Z.eqb_spec x z).
      * subst. simpl. intuition.
      * simpl. rewrite IH. intuition.
Qed.

Lemma sorted_set_In l y : In y (Py.sorted_set l) <-> In y l.
Proof.
  induction l as [|x r IH]; simpl.
  - tauto.
  - rewrite insert_uniq_In, IH. intuition.
Qed.

Lemma insert_uniq_sorted x l :
  StronglySorted Z.lt l -> StronglySorted Z.lt (Py.insert_uniq x l).
Proof.
  induction 1 as [|z r Hs IH Hall]; simpl.
  - repeat constructor.
  - destruct (Z.ltb_spec x z).
    + constructor; [now constructor|].
      constructor; [assumption|].
      eapply Forall_impl; [|exact Hall]. intros; simpl in *; lia.
    + destruct (Z.eqb_spec x z).
      * now constructor.
      * constructor; [assumption|].
        rewrite Forall_forall. intros y Hy.
        apply insert_uniq_In in Hy. destruct Hy as [->|Hy]; [lia|].
        rewrite Forall_forall in Hall. now apply Hall.
Qed.

Lemma sorted_set_sorted l : StronglySorted Z.lt (Py.sorted_set l).
Proof.
  induction l; simpl; [constructor | now apply insert_uniq_sorted].
Qed.

Lemma strictly_sorted_NoDup l : StronglySorted Z.lt l -> NoDup l.
Proof.
  induction 1 as [|z r Hs IH Hall]; constructor; [|assumption].
  intros Hin. rewrite Forall_forall in Hall. specialize (Hall _ Hin). lia.
Qed.

(** ** Unclustered reads *)

Lemma cluster_values_In c cl :
  In c (cluster_values cl) <-> exists r, In r cl /\ Cluster r = Cl c.
Proof.
  induction cl as [|r rest IH]; simpl.
  - split; [tauto | intros [? [[] _]]].
  - destruct (Cluster r) eqn:E.
    + rewrite IH. split.
      * intros [r' [H1 H2]]. exists r'. auto.
      * intros [r' [[->|H1] H2]]; [congruence|]. exists r'. auto.
    + simpl. rewrite IH. split.
      * intros [<-|[r' [H1 H2]]]; [exists r; auto | exists r'; auto].
      * intros [r' [[->|H1] H2]]; [left; congruence | right; exists r'; auto].
Qed.

Lemma edge_clusters_spec cl c :
  int_column cl = true ->
  (In c (edge_clusters cl) <-> c <> 0 /\ In c (cluster_values cl)).
Proof.
  intros Hint. unfold edge_clusters. rewrite Hint.
  destruct (Py.list_remove 0 (Py.sorted_set (cluster_values cl))) as [l'|] eqn:E.
  - split.
    + intros H. split.
      * intros ->. revert H. eapply list_remove_NoDup; [|exact E].
        apply strictly_sorted_NoDup, sorted_set_sorted.
      * apply sorted_set_In. eapply list_remove_In; eauto.
    + intros [Hne H]. eapply list_remove_keeps; eauto. now apply sorted_set_In.
  - apply list_remove_None in E. rewrite sorted_set_In in *.
    split; [|tauto]. intros H. split; [|assumption]. intros ->. tauto.
Qed.

Lemma relabel_row_not_zero cl r :
  int_column cl = true -> cluster_is 0 (Cluster (relabel_row cl r)) = false.
Proof.
  intros Hint. unfold relabel_row, is_unclustered. rewrite Hint. cbn [andb].
  destruct (cluster_is 0 (Cluster r)) eqn:E; [reflexivity | exact E].
Qed.

Lemma relabel_keeps_int_column cl cl0 :
  int_column cl = true -> int_column (map (relabel_row cl0) cl) = true.
Proof.
  unfold int_column. induction cl as [|r rest IH]; cbn [map forallb]; [reflexivity|].
  intros H. apply andb_prop in H. destruct H as [Hr Hrest].
  rewrite (IH Hrest), andb_true_r. unfold relabel_row.
  now destruct (is_unclustered cl0 r).
Qed.

Lemma unclustered_count_pos cl :
  unclustered_count cl > 0 -> exists r, In r cl /\ Cluster r = Cl 0.
Proof.
  unfold unclustered_count.
  generalize cl at 1. intros cl0. induction cl as [|r rest IH]; simpl; [lia|].
  destruct (is_unclustered cl0 r) eqn:E.
  - intros _. exists r. split; [now left|].
    unfold is_unclustered in E. apply andb_prop in E. destruct E as [_ E].
    destruct (Cluster r); simpl in E; [discriminate|].
    apply Z.eqb_eq in E. now subst.
  - intros H. destruct (IH H) as [r' [H1 H2]]. exists r'. auto.
Qed.

Lemma insert_text_In c x l : In c (insert_text x l) <-> c = x \/ In c l.
Proof.
  induction l as [|y r IH]; cbn [insert_text In].
  - intuition.
  - destruct (String.ltb (decimal x) (decimal y)); [cbn [In]; intuition|].
    destruct (Z.eqb_spec x y) as [->|Hne]; cbn [In]; [intuition|].
    rewrite IH. intuition.
Qed.

Lemma sorted_text_set_In c l : In c (sorted_text_set l) <-> In c l.
Proof.
  unfold sorted_text_set. induction l as [|x r IH]; cbn [fold_right In]; [tauto|].
  rewrite insert_text_In, IH. intuition.
Qed.

(** On a table in which every read has a cluster id the lines do what
    they are written for: more than ten reads with id 0 all get id
    1000000, which then is one of the edge's clusters; otherwise the
    table is unchanged; and the cluster list holds exactly the ids of
    the table other than 0. *)
Theorem int_table_relabelled_or_dropped (cl : list Row) :
  int_column cl = true ->
  (unclustered_count cl > 10 ->
     fst (read_clusters cl) = map (relabel_row cl) cl /\
     (forall r, In r cl -> Cluster r = Cl 0 ->
        In (mkRow (ReadName r) (Cl 1000000)) (fst (read_clusters cl))) /\
     (forall r, In r cl -> Cluster r <> Cl 0 -> In r (fst (read_clusters cl))) /\
     zero_rows (fst (read_clusters cl)) = [] /\
     In 1000000 (snd (read_clusters cl))) /\
  (unclustered_count cl <= 10 -> fst (read_clusters cl) = cl) /\
  ~ In 0 (snd (read_clusters cl)) /\
  (forall c, In c (snd (read_clusters cl)) <->
             c <> 0 /\ In c (cluster_values (fst (read_clusters cl)))).
Proof.
  intros Hint.
  assert (Hint' : int_column (relabel_unclustered cl) = true).
  { unfold relabel_unclustered. destruct (unclustered_count cl >? 10); [|assumption].
    now apply relabel_keeps_int_column. }
  unfold read_clusters. cbn [fst snd].
  split; [|split; [|split]].
  - intros H. unfold relabel_unclustered in *.
    destruct (Z.gtb_spec (unclustered_count cl) 10) as [_|?]; [|lia].
    assert (Hrel : forall r, In r cl -> Cluster r = Cl 0 ->
              In (mkRow (ReadName r) (Cl 1000000)) (map (relabel_row cl) cl)).
    { intros r Hr Hc. apply in_map_iff. exists r. split; [|assumption].
      unfold relabel_row, is_unclustered. now rewrite Hint, Hc. }
    split; [reflexivity|]. split; [exact Hrel|]. split; [|split].
    + intros r Hr Hc. apply in_map_iff. exists r. split; [|assumption].
      unfold relabel_row, is_unclustered. rewrite Hint. cbn [andb].
      destruct (Cluster r) as [|c] eqn:E; simpl; [reflexivity|].
      destruct (Z.eqb_spec c 0); [congruence | reflexivity].
    + unfold zero_rows.
      assert (Hl : forall l, filter (fun r => cluster_is 0 (Cluster r))
                               (map (relabel_row cl) l) = []).
      { induction l as [|r rest IH]; simpl; [reflexivity|].
        now rewrite (relabel_row_not_zero cl r Hint). }
      apply Hl.
    + apply (edge_clusters_spec _ _ Hint'). split; [lia|].
      destruct (unclustered_count_pos cl ltac:(lia)) as [r [H1 H2]].
      apply cluster_values_In. eexists. split; [apply (Hrel r H1 H2) | reflexivity].
  - intros H. unfold relabel_unclustered.
    destruct (Z.gtb_spec (unclustered_count cl) 10); [lia | reflexivity].
  - intros H0. apply (edge_clusters_spec _ _ Hint') in H0. tauto.
  - intros c. apply (edge_clusters_spec _ _ Hint').
Qed.

(** On a table with an ['NA'] row no cell equals the integer 0: nothing
    is counted, nothing is relabelled, and the cluster list holds every
    id of the table, 0 included. *)
Theorem na_row_disables_relabelling (cl : list Row) :
  int_column cl = false ->
  unclustered_count cl = 0 /\
  read_clusters cl = (cl, sorted_text_set (cluster_values cl)) /\
  (forall c, In c (snd (read_clusters cl)) <-> In c (cluster_values cl)).
Proof.
  intros Hna.
  assert (H0 : unclustered_count cl = 0).
  { unfold unclustered_count.
    replace (filter (is_unclustered cl) cl) with (@nil Row); [reflexivity|].
    symmetry. unfold is_unclustered. rewrite Hna. cbn [andb].
    generalize cl. intros l. induction l as [|r rest IH]; cbn; [reflexivity | exact IH]. }
  assert (Hr : read_clusters cl = (cl, sorted_text_set (cluster_values cl))).
  { unfold read_clusters, relabel_unclustered. rewrite H0. cbn [Z.gtb Z.compare].
    unfold edge_clusters. now rewrite Hna. }
  split; [exact H0|]. split; [exact Hr|].
  intros c. rewrite Hr. cbn [snd]. apply sorted_text_set_In.
Qed.

(** C10. The sample table has eleven reads of id 0 and one ['NA'] read;
    [graph_create_unitigs] relabels none of them and keeps 0 on its
    cluster list.  Without the ['NA'] read the eleven reads get id
    1000000.  With a single read of id 0 beside an ['NA'] read, 0 is not
    dropped either. *)
Theorem na_row_keeps_unclustered_reads :
  length (zero_rows sample_table) = 11%nat /\
  read_clusters sample_table = (sample_table, [0; 1; 2]) /\
  read_clusters clean_table
  = (map (fun n => mkRow n (Cl 1000000))
       ["r1"; "r2"; "r3"; "r4"; "r5"; "r6"; "r7"; "r8"; "r9"; "r10"; "r11"]%string
     ++ [mkRow "r12" (Cl 1); mkRow "r13" (Cl 2)],
     [1; 2; 1000000]) /\
  snd (read_clusters [mkRow "r1" (Cl 0); mkRow "r2" NA]) = [0].
Proof.
  repeat split; vm_compute; reflexivity.
Qed.

(** ** [strong_tail] *)

Section StrongTailFacts.

Variable start_end_gap : Z.
Variable strong_cluster_min_reads : Z.

Lemma advance_bump count k : advance (bump count) k = advance count (S k).
Proof.
  destruct k, count; cbn [advance bump]; f_equal; lia.
Qed.

Lemma tail_counts_spec data ln reads count_start count_stop :
  forallb (fun read => match data read with Some _ => true | None => false end) reads = true ->
  tail_counts start_end_gap data ln reads count_start count_stop =
    Some (advance count_start (length (filter (starts_in_margin start_end_gap data) reads)),
          advance count_stop (length (filter (ends_in_margin start_end_gap data ln) reads))).
Proof.
  revert count_start count_stop.
  induction reads as [|read rest IH]; intros cs ce H; simpl in *.
  - reflexivity.
  - unfold starts_in_margin at 1, ends_in_margin at 1.
    destruct (data read) as [d|]; [|discriminate].
    rewrite IH by assumption.
    destruct (rStart d <? start_end_gap), (rStop d >? ln - start_end_gap);
      simpl length; now rewrite ?advance_bump.
Qed.

(** C9, as the code has it. A tail is strong exactly when the number of
    qualifying reads is strictly greater than [strong_cluster_min_reads]
    (and is not zero): a count equal to the minimum is not enough. *)
Theorem strong_tail_exceeds_minimum (cluster : Z) (cl : list Row) (ln : Z)
    (data : string -> option ReadInfo) :
  forallb (fun read => match data read with Some _ => true | None => false end)
          (cluster_reads cl cluster) = true ->
  strong_tail start_end_gap strong_cluster_min_reads cluster cl ln data =
    Some ((0 <? left_tail_reads start_end_gap cluster cl data)
          && (left_tail_reads start_end_gap cluster cl data >? strong_cluster_min_reads),
          (0 <? right_tail_reads start_end_gap cluster cl ln data)
          && (right_tail_reads start_end_gap cluster cl ln data >? strong_cluster_min_reads)).
Proof.
  intros H. unfold strong_tail, left_tail_reads, right_tail_reads.
  rewrite tail_counts_spec by assumption.
  f_equal. f_equal.
  - destruct (length (filter _ _)) as [|k]; [reflexivity|].
    cbn [advance tail_is_strong]. replace (0 <? Z.of_nat (S k)) with true; [reflexivity|].
    symmetry. apply Z.ltb_lt. lia.
  - destruct (length (filter (ends_in_margin _ _ _) _)) as [|k]; [reflexivity|].
    cbn [advance tail_is_strong]. replace (0 <? Z.of_nat (S k)) with true; [reflexivity|].
    symmetry. apply Z.ltb_lt. lia.
Qed.

End StrongTailFacts.

Lemma strong_tail_exceeds_minimum_witness :
  forallb (fun read => match sample_data read with Some _ => true | None => false end)
          (cluster_reads sample_reads 1) = true /\
  strong_tail 50 2 1 sample_reads 1000 sample_data = Some (true, false).
Proof.
  split; [reflexivity|].
  rewrite (strong_tail_exceeds_minimum 50 2 1 sample_reads 1000 sample_data); reflexivity.
Defined.

(** C9, as stated, fails: with the minimum at 3, a cluster with exactly
    three reads that start within the left margin has no strong left
    tail. *)
Lemma strong_tail_at_minimum_is_weak :
  left_tail_reads 50 1 sample_reads sample_data = 3 /\
  3 >= 3 /\
  strong_tail 50 3 1 sample_reads 1000 sample_data = Some (false, false).
Proof.
  split; [reflexivity|]. split; [lia | reflexivity].
Qed.

(** ** Background coverage and the removal decision *)

Lemma Qltb_lt x y : Qltb x y = true <-> (x < y)%Q.
Proof.
  unfold Qltb. rewrite negb_true_iff. split.
  - intros H. apply Qnot_le_lt. intros Hle.
    apply Qle_bool_iff in Hle. congruence.
  - intros H. destruct (Qle_bool y x) eqn:E; [|reflexivity].
    apply Qle_bool_iff in E. exfalso. now apply (Qlt_not_le x y).
Qed.

Lemma some_phased_out_spec clusters othercl :
  some_phased_out clusters othercl = true <-> length clusters <> length othercl.
Proof.
  unfold some_phased_out. rewrite negb_true_iff, Z.eqb_neq. lia.
Qed.

Section BackgroundFacts.

Variable parental_min_len : Q.
Variable parental_min_coverage : Q.

(** C2, as the code has it. When the background clusters cover less than
    [parental_min_len] of the edge, the edge is appended to
    [remove_clusters] whatever the coverages are, provided the number of
    background clusters differs from the number of clusters; when the
    two numbers agree, [remove_clusters] is left as it was and
    [change_sec] runs. *)
Theorem thin_background_removed_only_when_phased
    (remove_clusters : list string) (edge : string)
    (cons : Z -> option ClusterInfo) (ln : Z) (clusters othercl : list Z)
    (cov : Q) (len_cl : list Z) :
  other_coverage cons othercl 0%Q [] = Some (cov, len_cl) ->
  ln <> 0 ->
  (inject_Z (len_set len_cl) / inject_Z ln < parental_min_len)%Q ->
  (length clusters <> length othercl ->
     exists removed patched,
       background_decision parental_min_len parental_min_coverage
         remove_clusters edge cons ln clusters othercl = Some (removed, patched)
       /\ In edge removed)
  /\ (length clusters = length othercl ->
        background_decision parental_min_len parental_min_coverage
          remove_clusters edge cons ln clusters othercl
        = Some (remove_clusters, true)).
Proof.
  intros Hcov Hln Hthin.
  unfold background_decision, change_cov. rewrite Hcov.
  destruct (Z.eqb_spec ln 0) as [|_]; [contradiction|].
  apply Qltb_lt in Hthin. rewrite Hthin. cbn [andb cov_value cov_removed].
  split.
  - intros Hne. apply some_phased_out_spec in Hne. rewrite Hne.
    rewrite andb_true_r.
    destruct (Qltb parental_min_coverage (inject_Z 6)).
    + do 2 eexists. split; [reflexivity|]. apply in_or_app. right. now left.
    + do 2 eexists. split; [reflexivity|]. apply in_or_app. right. now left.
  - intros Heq.
    assert (some_phased_out clusters othercl = false) as ->.
    { destruct (some_phased_out clusters othercl) eqn:E; [|reflexivity].
      apply some_phased_out_spec in E. contradiction. }
    now rewrite andb_false_r.
Qed.

End BackgroundFacts.

Lemma thin_background_removed_only_when_phased_witness :
  (exists removed patched,
     background_decision (7 # 10) 6 [] "edge_1" thin_cons 100 [1; 2; 3] [1; 2]
     = Some (removed, patched) /\ In "edge_1"%string removed) /\
  background_decision (7 # 10) 6 [] "edge_1" thin_cons 100 [1; 2] [1; 2]
  = Some ([], true).
Proof.
  split.
  - apply (proj1 (thin_background_removed_only_when_phased (7 # 10) 6 []
                    "edge_1" thin_cons 100 [1; 2; 3] [1; 2]
                    (0 + 5 * inject_Z (10 - 0) + 5 * inject_Z (30 - 20))%Q
                    ([] ++ py_range 0 10 ++ py_range 20 30)
                    eq_refl ltac:(discriminate) eq_refl)).
    simpl. discriminate.
  - apply (proj2 (thin_background_removed_only_when_phased (7 # 10) 6 []
                    "edge_1" thin_cons 100 [1; 2] [1; 2]
                    (0 + 5 * inject_Z (10 - 0) + 5 * inject_Z (30 - 20))%Q
                    ([] ++ py_range 0 10 ++ py_range 20 30)
                    eq_refl ltac:(discriminate) eq_refl)).
    reflexivity.
Defined.

(** C2, as stated, fails: the two background clusters cover a fifth of
    the edge, which is less than the required 7/10, and no cluster was
    phased out; the edge is not put on the removal list. *)
Lemma thin_unphased_background_is_kept :
  (inject_Z (len_set (py_range 0 10 ++ py_range 20 30)) / inject_Z 100 < 7 # 10)%Q /\
  background_decision (7 # 10) 6 [] "edge_1" thin_cons 100 [1; 2] [1; 2]
  = Some ([], true).
Proof.
  split; reflexivity.
Qed.

(** C1. The test that decides between removal and [change_sec] compares
    the configured threshold with the literal 6 and never looks at the
    coverage [change_cov] returned.  With the threshold at 6 and a
    background of depth 1 left after a cluster was phased out, the
    coverage is below the threshold, and still the edge is kept and
    [change_sec] runs. *)
Theorem removal_test_ignores_coverage :
  coverage_below_threshold (7 # 10) 6 "edge_1" (flat_cons 1) 100 [1; 2] [2] = Some true /\
  background_decision (7 # 10) 6 [] "edge_1" (flat_cons 1) 100 [1; 2] [2]
  = Some ([], true).
Proof.
  split; reflexivity.
Qed.

(** The same holds for every value of the threshold: below 6 an edge
    with ample coverage is removed, from 6 on an edge without coverage
    is kept. *)
Lemma removal_test_diverges_for_every_threshold (parental_min_coverage : Q) :
  exists (cov : Q) (below patched : bool),
    coverage_below_threshold (7 # 10) parental_min_coverage "edge_1"
      (flat_cons cov) 100 [1; 2] [2] = Some below /\
    background_decision (7 # 10) parental_min_coverage [] "edge_1"
      (flat_cons cov) 100 [1; 2] [2] = Some (if patched then @nil string else ["edge_1"%string], patched) /\
    below = patched.
Proof.
  destruct (Qltb parental_min_coverage (inject_Z 6)) eqn:E.
  - exists 6%Q, false, false.
    unfold coverage_below_threshold, background_decision, change_cov.
    cbn [flat_cons other_coverage Z.eqb Pos.eqb cov_value cov_removed].
    rewrite E. cbn -[Qltb].
    repeat split.
    f_equal. rewrite andb_true_r. apply Qltb_lt in E.
    destruct (Qltb _ parental_min_coverage) eqn:E2; [|reflexivity].
    apply Qltb_lt in E2. exfalso.
    apply (Qlt_irrefl parental_min_coverage).
    eapply Qlt_trans; [exact E|]. eapply Qle_lt_trans; [|exact E2].
    vm_compute. discriminate.
  - exists 0%Q, true, true.
    unfold coverage_below_threshold, background_decision, change_cov.
    cbn [flat_cons other_coverage Z.eqb Pos.eqb cov_value cov_removed].
    rewrite E. cbn -[Qltb].
    repeat split.
    f_equal. rewrite andb_true_r. apply Qltb_lt.
    eapply Qlt_le_trans with (y := inject_Z 6); [vm_compute; reflexivity|].
    apply Qnot_lt_le. intros H. apply Qltb_lt in H. congruence.
Qed.

(** ** Nested-interval pruning *)

Section RemoveNested.

Variable cons : Z -> option ClusterInfo.

Lemma remove_node_Some G x G' :
  remove_node G x = Some G' ->
  has_node G x = true /\
  nodes G' = filter (fun m => negb (m =? x)) (nodes G) /\
  edges G' = filter (fun e => negb (touches x e)) (edges G).
Proof.
  unfold remove_node. destruct (has_node G x); [|discriminate].
  intros H. injection H as <-. auto.
Qed.

Lemma has_node_after_remove G x G' v :
  remove_node G x = Some G' ->
  has_node G' v = negb (v =? x) && has_node G v.
Proof.
  intros H. apply remove_node_Some in H. destruct H as [_ [Hn _]].
  unfold has_node. rewrite Hn. clear.
  induction (nodes G) as [|m r IH]; simpl.
  - now rewrite andb_false_r.
  - destruct (Z.eqb_spec m x) as [->|Hm]; simpl.
    + rewrite IH. destruct (Z.eqb_spec v x) as [->|Hv]; simpl; [reflexivity|].
      destruct (Z.eqb_spec v x); [contradiction | reflexivity].
    + rewrite IH. destruct (Z.eqb_spec v m) as [->|Hvm]; simpl.
      * destruct (Z.eqb_spec m x); [contradiction | reflexivity].
      * reflexivity.
Qed.

Lemma neighbors_after_remove G x G' u :
  remove_node G x = Some G' -> u <> x ->
  predecessors G' u ++ successors G' u =
  filter (fun v => negb (v =? x)) (predecessors G u ++ successors G u).
Proof.
  intros H Hu. apply remove_node_Some in H. destruct H as [_ [_ He]].
  unfold predecessors, successors. rewrite He, filter_app. clear He. f_equal.
  - induction (edges G) as [|[a b] r IH]; simpl; [reflexivity|].
    unfold touches at 1. simpl.
    destruct (Z.eqb_spec a x) as [->|Ha], (Z.eqb_spec b u) as [->|Hb]; simpl.
    + rewrite Z.eqb_refl. simpl. exact IH.
    + exact IH.
    + destruct (Z.eqb_spec u x); [contradiction|]. simpl.
      rewrite Z.eqb_refl. simpl.
      destruct (Z.eqb_spec a x); [contradiction|]. simpl. now f_equal.
    + destruct (Z.eqb_spec b x); simpl; [exact IH|].
      destruct (Z.eqb_spec b u); [contradiction | exact IH].
  - induction (edges G) as [|[a b] r IH]; simpl; [reflexivity|].
    unfold touches at 1. simpl.
    destruct (Z.eqb_spec a u) as [->|Ha], (Z.eqb_spec b x) as [->|Hb]; simpl.
    + rewrite orb_true_r. simpl. rewrite Z.eqb_refl. simpl. exact IH.
    + destruct (Z.eqb_spec u x); [contradiction|]. simpl.
      rewrite Z.eqb_refl. simpl.
      destruct (Z.eqb_spec b x); [contradiction|]. simpl. now f_equal.
    + rewrite orb_true_r. simpl. exact IH.
    + destruct (Z.eqb_spec a x); simpl; [exact IH|].
      destruct (Z.eqb_spec a u); [contradiction | exact IH].
Qed.

Lemma quiet_no_info G u ns : cons u = None -> quiet cons G u ns.
Proof.
  intros H. destruct ns; simpl; [exact I|]. now rewrite H.
Qed.

Lemma quiet_app G u l1 l2 :
  quiet cons G u l1 -> quiet cons G u l2 -> quiet cons G u (l1 ++ l2).
Proof.
  induction l1 as [|v r IH]; simpl; intros H1 H2; [assumption|].
  destruct (cons u), (cons v); try exact I.
  destruct H1 as [Hv Hr]. split; [assumption | now apply IH].
Qed.

(** Removing a node that has an interval keeps every other node's
    neighbour list quiet. *)
Lemma quiet_after_remove G x G' u l :
  remove_node G x = Some G' -> cons x <> None ->
  quiet cons G u l ->
  quiet cons G' u (filter (fun v => negb (v =? x)) l).
Proof.
  intros Hrm Hx.
  destruct (cons u) as [cu|] eqn:Eu; [|intros _; now apply quiet_no_info].
  induction l as [|v r IH]; simpl; [trivial|].
  rewrite Eu. destruct (Z.eqb_spec v x) as [->|Hv]; simpl.
  - destruct (cons x) as [cx|]; [|contradiction].
    intros [_ Hr]. now apply IH.
  - rewrite Eu. destruct (cons v) as [cv|]; [|trivial].
    intros [Hn Hr]. split; [|now apply IH].
    intros Hc. rewrite (has_node_after_remove G x G' v Hrm), (Hn Hc).
    apply andb_false_r.
Qed.

Lemma settled_after_remove G x G' u :
  remove_node G x = Some G' -> cons x <> None ->
  settled cons G u -> settled cons G' u.
Proof.
  intros Hrm Hx. unfold settled, all_neighbors.
  rewrite (has_node_after_remove G x G' u Hrm).
  destruct (Z.eqb_spec u x) as [->|Hu]; simpl; [trivial|].
  destruct (has_node G u); [|trivial].
  rewrite (neighbors_after_remove G x G' u Hrm Hu).
  now apply quiet_after_remove.
Qed.

(** A node that is settled stays settled while other nodes are pruned. *)
Lemma prune_neighbors_keeps_settled u v ns G :
  settled cons G u -> settled cons (prune_neighbors cons v ns G) u.
Proof.
  revert G. induction ns as [|w r IH]; simpl; intros G H; [assumption|].
  destruct (cons v) as [cv|]; [|assumption].
  destruct (cons w) as [cw|] eqn:Ew; [|assumption].
  destruct (strictly_contains cv cw); [|now apply IH].
  destruct (remove_node G w) as [G'|] eqn:Erm; [|now apply IH].
  apply IH. eapply settled_after_remove; eauto. congruence.
Qed.

Lemma prune_node_keeps_settled u v G :
  settled cons G u -> settled cons (prune_node cons G v) u.
Proof.
  unfold prune_node. destruct (all_neighbors G v); [|trivial].
  apply prune_neighbors_keeps_settled.
Qed.

(** The loop over the neighbours of [u], started in the middle: [pre]
    is the part of the list already passed, [dead] the nodes removed on
    the way. *)
Lemma prune_neighbors_settles u cu ns : forall G pre dead,
  cons u = Some cu ->
  has_node G u = true ->
  predecessors G u ++ successors G u
    = pre ++ filter (fun w => negb (Py.mem w dead)) ns ->
  Forall (fun d => has_node G d = false /\ cons d <> None) dead ->
  quiet cons G u pre ->
  settled cons (prune_neighbors cons u ns G) u.
Proof.
  induction ns as [|v r IH]; intros G pre dead Eu Hu Hns Hdead Hpre.
  - simpl in *. unfold settled, all_neighbors. rewrite Hu, Hns, app_nil_r.
    assumption.
  - simpl prune_neighbors. rewrite Eu. simpl filter in Hns.
    destruct (Py.mem v dead) eqn:Ev.
    + simpl in Hns.
      apply mem_In in Ev. rewrite Forall_forall in Hdead.
      destruct (Hdead v Ev) as [Hv Hcv].
      destruct (cons v) as [cv|]; [|contradiction].
      assert (remove_node G v = None) as Hrm
        by (unfold remove_node; now rewrite Hv).
      rewrite Hrm.
      destruct (strictly_contains cu cv);
        apply (IH G pre dead); auto; now apply Forall_forall.
    + simpl in Hns.
      destruct (cons v) as [cv|] eqn:Ecv.
      * assert (Hstep : forall (Hq : strictly_contains cu cv = true -> has_node G v = false),
                   settled cons (prune_neighbors cons u r G) u).
        { intros Hq. apply (IH G (pre ++ [v]) dead); auto.
          - now rewrite <- app_assoc.
          - apply quiet_app; [assumption|]. simpl. rewrite Eu, Ecv. auto. }
        destruct (strictly_contains cu cv) eqn:Ec; [|apply Hstep; discriminate].
        destruct (remove_node G v) as [G'|] eqn:Erm.
        -- assert (u <> v) as Huv.
           { intros ->. rewrite Eu in Ecv. injection Ecv as ->.
             unfold strictly_contains in Ec. apply andb_prop in Ec. lia. }
           apply (IH G' (filter (fun w => negb (w =? v)) pre) (v :: dead)); auto.
           ++ rewrite (has_node_after_remove G v G' u Erm), Hu.
              destruct (Z.eqb_spec u v); [contradiction | reflexivity].
           ++ rewrite (neighbors_after_remove G v G' u Erm Huv), Hns.
              rewrite filter_app. simpl. rewrite Z.eqb_refl. simpl. f_equal.
              clear. induction r as [|w r IH]; simpl; [reflexivity|].
              destruct (Py.mem w dead); simpl.
              ** rewrite orb_true_r. simpl. exact IH.
              ** rewrite orb_false_r.
                 destruct (Z.eqb_spec w v); simpl; [exact IH | now f_equal].
           ++ constructor.
              ** rewrite (has_node_after_remove G v G' v Erm), Z.eqb_refl.
                 split; [reflexivity | congruence].
              ** eapply Forall_impl; [|exact Hdead]. simpl.
                 intros d [Hd Hcd]. split; [|assumption].
                 rewrite (has_node_after_remove G v G' d Erm), Hd.
                 apply andb_false_r.
           ++ eapply quiet_after_remove; eauto. congruence.
        -- apply Hstep. intros _. unfold remove_node in Erm.
           destruct (has_node G v); [discriminate | reflexivity].
      * unfold settled, all_neighbors. rewrite Hu, Hns.
        apply quiet_app; [assumption|]. simpl. now rewrite Eu, Ecv.
Qed.

Lemma prune_node_settles G u : settled cons (prune_node cons G u) u.
Proof.
  unfold prune_node. destruct (all_neighbors G u) as [ns|] eqn:E.
  - unfold all_neighbors in E. destruct (has_node G u) eqn:Hu; [|discriminate].
    injection E as <-.
    destruct (cons u) as [cu|] eqn:Eu.
    + apply (prune_neighbors_settles u cu _ G [] []); auto.
      * simpl. symmetry. clear. induction (_ ++ _); simpl; [reflexivity | now f_equal].
      * simpl. exact I.
    + destruct (predecessors G u ++ successors G u) as [|v r] eqn:En; simpl.
      * unfold settled, all_neighbors. now rewrite Hu, En.
      * rewrite Eu. unfold settled, all_neighbors. rewrite Hu.
        now apply quiet_no_info.
  - unfold settled. now rewrite E.
Qed.

Lemma quiet_fixed G u ns : quiet cons G u ns -> prune_neighbors cons u ns G = G.
Proof.
  induction ns as [|v r IH]; simpl; [reflexivity|].
  destruct (cons u) as [cu|]; [|reflexivity].
  destruct (cons v) as [cv|]; [|reflexivity].
  intros [Hv Hr]. destruct (strictly_contains cu cv); [|now apply IH].
  unfold remove_node. rewrite (Hv eq_refl). now apply IH.
Qed.

Lemma settled_fixed G u : settled cons G u -> prune_node cons G u = G.
Proof.
  unfold settled, prune_node. destruct (all_neighbors G u); [|reflexivity].
  apply quiet_fixed.
Qed.

Lemma fold_prune_settled l : forall G u,
  In u l \/ settled cons G u ->
  settled cons (fold_left (prune_node cons) l G) u.
Proof.
  induction l as [|v r IH]; simpl; intros G u H.
  - destruct H as [[]|H]. assumption.
  - apply IH. destruct H as [[->|H]|H].
    + right. apply prune_node_settles.
    + now left.
    + right. now apply prune_node_keeps_settled.
Qed.

Lemma fold_prune_fixed l : forall G,
  (forall u, In u l -> settled cons G u) ->
  fold_left (prune_node cons) l G = G.
Proof.
  induction l as [|v r IH]; simpl; intros G H; [reflexivity|].
  rewrite (settled_fixed G v) by (apply H; now left).
  apply IH. intros u Hu. apply H. now right.
Qed.

(** C8. Nested-interval pruning is idempotent: one pass leaves every
    surviving node settled, so a second pass changes nothing, and in
    particular yields the same node set. *)
Theorem remove_nested_idempotent (G : DiGraph) :
  nodes (remove_nested (remove_nested G cons) cons) = nodes (remove_nested G cons).
Proof.
  assert (Hsettled : forall u, settled cons (remove_nested G cons) u).
  { intros u. unfold remove_nested.
    destruct (in_dec Z.eq_dec u (nodes G)) as [Hin|Hout].
    - apply fold_prune_settled. now left.
    - apply fold_prune_settled. right.
      unfold settled, all_neighbors.
      apply mem_false in Hout. unfold has_node. now rewrite Hout. }
  assert (Hfixed : remove_nested (remove_nested G cons) cons = remove_nested G cons).
  { unfold remove_nested at 1. apply fold_prune_fixed.
    intros u _. apply Hsettled. }
  rewrite Hfixed. reflexivity.
Qed.

End RemoveNested.

(** ** Consensus distance *)

Import FlyeConsensus.

Lemma align_score_cons a s b t :
  align_score (a :: s) (b :: t) =
  Z.max (align_score s t + pair_score a b)
        (Z.max (align_score s (b :: t) - 1) (align_score (a :: s) t - 1)).
Proof. reflexivity. Qed.

Lemma align_score_nil_r s : align_score s [] = - Z.of_nat (length s).
Proof. destruct s; reflexivity. Qed.

(** The best score lies between minus the longer length and the shorter
    length. *)
Lemma align_score_bounds s : forall t,
  - Z.max (Z.of_nat (length s)) (Z.of_nat (length t)) <= align_score s t
  <= Z.min (Z.of_nat (length s)) (Z.of_nat (length t)).
Proof.
  induction s as [|a s IHs]; intros t.
  - simpl. lia.
  - induction t as [|b t IHt].
    + rewrite align_score_nil_r. simpl length. lia.
    + rewrite align_score_cons.
      specialize (IHs t) as H1. specialize (IHs (b :: t)) as H2.
      assert (-1 <= pair_score a b <= 1) by (unfold pair_score; destruct (Ascii.eqb a b); lia).
      simpl length in *. lia.
Qed.

Lemma py_slice_length {A : Type} (l : list A) (a b : Z) :
  0 <= a <= b -> Z.of_nat (length (py_slice l a b)) <= b - a.
Proof.
  intros H. unfold py_slice, clamp_index.
  destruct (Z.ltb_spec a 0); [lia|]. destruct (Z.ltb_spec b 0); [lia|].
  rewrite length_firstn, length_skipn. lia.
Qed.

Lemma unit_fraction_bounds (s n : Z) :
  0 < n -> - n <= s <= n ->
  (0 <= 1 - inject_Z s / inject_Z n <= 2)%Q.
Proof.
  intros Hn Hs. destruct n as [|n|n]; try lia.
  unfold Qle, Qminus, Qplus, Qopp, Qdiv, Qmult, Qinv, inject_Z.
  cbn [Qnum Qden]. rewrite ?Pos2Z.inj_mul, ?Pos.mul_1_l, ?Pos.mul_1_r.
  split; nia.
Qed.

(** C6, as the code has it. The distance is between 0 and 2: the best
    score of the alignment can be negative, down to minus the length of
    the intersection. *)
Theorem consensus_distance_range (first_cl_dict second_cl_dict : Consensus) :
  (0 <= consensus_distance first_cl_dict second_cl_dict <= 2)%Q.
Proof.
  unfold consensus_distance.
  set (i0 := Z.max (c_start first_cl_dict) (c_start second_cl_dict)).
  set (i1 := Z.min (c_end first_cl_dict) (c_end second_cl_dict)).
  set (s1 := py_slice _ (i0 - c_start first_cl_dict) _).
  set (s2 := py_slice _ (i0 - c_start second_cl_dict) _).
  destruct (Z.ltb_spec (i1 - i0) 1) as [|Hi]; simpl; [split; discriminate|].
  destruct (Z.eqb_spec (Z.of_nat (length s1)) 0) as [|H1]; simpl; [split; discriminate|].
  destruct (Z.eqb_spec (Z.of_nat (length s2)) 0) as [|H2]; simpl; [split; discriminate|].
  assert (L1 : Z.of_nat (length s1) <= i1 - i0).
  { subst s1.
    etransitivity; [apply py_slice_length; subst i0; lia | lia]. }
  assert (L2 : Z.of_nat (length s2) <= i1 - i0).
  { subst s2.
    etransitivity; [apply py_slice_length; subst i0; lia | lia]. }
  apply unit_fraction_bounds; [lia|].
  pose proof (align_score_bounds s1 s2). lia.
Qed.

(** C6, as stated, fails: two one-base consensus sequences that differ
    align with score -1, which gives the distance 2. *)
Lemma consensus_distance_above_one :
  consensus_distance (mkConsensus "A" 0 1) (mkConsensus "C" 0 1) = 2%Q /\
  ~ (consensus_distance (mkConsensus "A" 0 1) (mkConsensus "C" 0 1) <= 1)%Q.
Proof.
  split; [reflexivity|]. vm_compute. intros H. now apply H.
Qed.

(** ** The consensus computation and its temporary files *)

Lemma create_has_file f w : has_file (create f w) f = true.
Proof.
  unfold create. destruct (has_file w f) eqn:E; [assumption|].
  unfold has_file. simpl. rewrite existsb_app. simpl.
  now rewrite String.eqb_refl, orb_true_r.
Qed.

Lemma create_keeps_file g f w : has_file w f = true -> has_file (create g w) f = true.
Proof.
  intros H. unfold create. destruct (has_file w g); [assumption|].
  unfold has_file in *. simpl. rewrite existsb_app, H. reflexivity.
Qed.

Lemma create_runs f w : polish_runs (create f w) = polish_runs w.
Proof. unfold create. now destruct (has_file w f). Qed.

Lemma remove_runs f w w' : remove f w = Some w' -> polish_runs w' = polish_runs w.
Proof.
  unfold remove. destruct (has_file w f); [|discriminate].
  intros H. now injection H as <-.
Qed.

(** When the polisher fails the call returns the empty consensus, and
    the four working files it has written are still there. *)
Lemma polisher_failure_leaves_files (env : Env) (cluster : Z) (edge : string)
    (cl : list Row) (w : World) :
  gfa_sequence env edge <> None ->
  sort_ok env cluster = true ->
  index_ok env cluster = true ->
  polish env edge cluster = None ->
  (exists ext, snd (flye_consensus env cluster edge cl w)
               = Returned (mkConsensus "" (fst ext) (snd ext))) /\
  forall f, In f [reads_bam cluster; cut_fasta edge cluster;
                  sorted_bam cluster; sorted_bai cluster] ->
            has_file (fst (flye_consensus env cluster edge cl w)) f = true.
Proof.
  intros Hg Hs Hi Hp. unfold flye_consensus.
  destruct (extract_reads _ _ _) as [cluster_start cluster_end].
  destruct (gfa_sequence env edge); [|contradiction].
  rewrite Hs, Hi, Hp. cbn [negb fst snd]. split.
  - now exists (cluster_start, cluster_end).
  - intros f Hf. unfold has_file. cbn [files]. fold (has_file (create (sorted_bai cluster)
      (create (sorted_bam cluster) (create (cut_fasta edge cluster)
        (create (reads_bam cluster) w)))) f).
    simpl in Hf. destruct Hf as [<-|[<-|[<-|[<-|[]]]]];
      repeat first [apply create_has_file | apply create_keeps_file].
Qed.

(** C5. The exit taken when the polisher fails skips the cleanup: the
    call returns with the reads BAM, its sorted and indexed variants and
    the cut-edge FASTA left on disk.  On the exit after a successful
    polishing run the same files are gone. *)
Theorem failed_polish_skips_cleanup :
  flye_consensus polisher_fails 1 "edge_1" sample_clusters empty_world
  = (mkWorld ["cluster_1_reads.bam"; "output/edge_1-cluster1.fa";
              "cluster_1_reads_sorted.bam"; "cluster_1_reads_sorted.bam.bai"]%string
             [("edge_1"%string, 1)],
     Returned (mkConsensus "" 0 6)) /\
  flye_consensus tools_ok 1 "edge_1" sample_clusters empty_world
  = (mkWorld [] [("edge_1"%string, 1)], Returned (mkConsensus "ACGTAC" 0 6)).
Proof.
  split; reflexivity.
Qed.

(** ** Repeated calls of [flye_consensus] *)

(** The function [flye_consensus] of [src/flye_consensus.py] keeps no
    cache of its own: every call that gets as far as the polisher runs
    it once more for its key. *)
Lemma every_call_runs_polisher (env : Env) (cluster : Z) (edge : string)
    (cl : list Row) (w : World) :
  gfa_sequence env edge <> None ->
  sort_ok env cluster = true ->
  index_ok env cluster = true ->
  runs_for edge cluster (fst (flye_consensus env cluster edge cl w))
  = S (runs_for edge cluster w).
Proof.
  intros Hg Hs Hi.
  assert (Hruns : polish_runs (fst (flye_consensus env cluster edge cl w))
                  = polish_runs w ++ [(edge, cluster)]).
  { unfold flye_consensus.
    destruct (extract_reads _ _ _) as [cluster_start cluster_end].
    destruct (gfa_sequence env edge); [|contradiction].
    rewrite Hs, Hi. cbn [negb].
    destruct (polish env edge cluster) as [out|]; cbn [fst polish_runs].
    - set (w6 := create (polish_dir edge cluster) _).
      assert (H6 : polish_runs w6 = polish_runs w ++ [(edge, cluster)]).
      { subst w6. rewrite create_runs. cbn [polish_runs].
        now rewrite !create_runs. }
      destruct (remove (cut_fasta edge cluster) w6) as [w7|] eqn:E7; [|exact H6].
      apply remove_runs in E7.
      destruct (remove (reads_bam cluster) w7) as [w8|] eqn:E8; [|cbn; congruence].
      apply remove_runs in E8.
      destruct (remove (sorted_bam cluster) w8) as [w9|] eqn:E9; [|cbn; congruence].
      apply remove_runs in E9.
      destruct (remove (sorted_bai cluster) w9) as [w10|] eqn:E10; [|cbn; congruence].
      apply remove_runs in E10.
      destruct (remove (polish_dir edge cluster) w10) as [w11|] eqn:E11; [|cbn; congruence].
      apply remove_runs in E11. cbn. congruence.
    - now rewrite !create_runs. }
  unfold runs_for. rewrite Hruns, filter_app, length_app. simpl.
  rewrite String.eqb_refl, Z.eqb_refl. simpl. lia.
Qed.

(** ** Full clusters, roots and leafs *)

Section FullClusters.

Variable start_end_gap : Z.
Variable strong_cluster_min_reads : Z.

Lemma classify_cluster_tags cl ln data tagged st cluster st' :
  tags_ok tagged st ->
  classify_cluster start_end_gap strong_cluster_min_reads cl ln data st cluster = Some st' ->
  exists r l, tags_ok (tagged ++ [(cluster, (r, l))]) st'.
Proof.
  intros [Hr [Hl Hf]]. unfold classify_cluster, bind.
  destruct (cls_cons st cluster) as [ci|]; [|discriminate].
  destruct (Start ci <? start_end_gap) eqn:El;
  destruct (Stop ci >? ln - start_end_gap) eqn:Er; cbn [orb andb].
  1-3: destruct (strong_tail _ _ _ _ _ _) as [[strong_l strong_r]|]; [|discriminate].
  1-3: destruct strong_l, strong_r; cbn [andb negb]; intros H; injection H as <-.
  all: try (intros H; injection H as <-).
  all: unfold tags_ok; cbn [full_paths_roots full_paths_leafs full_clusters].
  all: rewrite Hr, Hl, Hf.
  all: first
    [ exists true, true; rewrite !filter_app, !map_app; cbn; rewrite ?app_nil_r; now auto
    | exists true, false; rewrite !filter_app, !map_app; cbn; rewrite ?app_nil_r; now auto
    | exists false, true; rewrite !filter_app, !map_app; cbn; rewrite ?app_nil_r; now auto
    | exists false, false; rewrite !filter_app, !map_app; cbn; rewrite ?app_nil_r; now auto ].
Qed.

Lemma classify_loop_tags cl ln data clusters : forall tagged st st',
  tags_ok tagged st ->
  classify_loop start_end_gap strong_cluster_min_reads cl ln data clusters st = Some st' ->
  exists more, map fst more = clusters /\ tags_ok (tagged ++ more) st'.
Proof.
  induction clusters as [|c rest IH]; simpl; intros tagged st st' Ht H.
  - injection H as <-. exists []. now rewrite app_nil_r.
  - unfold bind in H.
    destruct (classify_cluster _ _ _ _ _ st c) as [st1|] eqn:E1; [|discriminate].
    destruct (classify_cluster_tags _ _ _ _ _ _ _ Ht E1) as [r [l Ht1]].
    destruct (IH _ _ _ Ht1 H) as [more [Hm Ht']].
    exists ((c, (r, l)) :: more). split; [simpl; now f_equal|].
    now rewrite <- app_assoc in Ht'.
Qed.

Lemma classify_tags cl ln data cons clusters c :
  classify start_end_gap strong_cluster_min_reads cl ln data cons clusters = Some c ->
  exists tagged, map fst tagged = clusters /\ tags_ok tagged c.
Proof.
  intros H. apply (classify_loop_tags _ _ _ _ []) in H; [exact H|].
  repeat split.
Qed.

End FullClusters.

Lemma filter_keeps_all {A : Type} (p : A -> bool) (l : list A) :
  length (filter p l) = length l -> filter p l = l.
Proof.
  induction l as [|x r IH]; simpl; [reflexivity|].
  destruct (p x); simpl; intros H.
  - f_equal. apply IH. lia.
  - pose proof (filter_length_le p r). lia.
Qed.

Lemma filter_weaken {A : Type} (p q : A -> bool) (l : list A) :
  (forall x, p x = true -> q x = true) -> filter p l = l -> filter q l = l.
Proof.
  intros Hpq. induction l as [|x r IH]; simpl; [reflexivity|].
  destruct (p x) eqn:E; intros H.
  - rewrite (Hpq x E). injection H as H. f_equal. now apply IH.
  - exfalso. pose proof (filter_length_le p r) as Hle.
    apply (f_equal (@length A)) in H. simpl in H. lia.
Qed.

(** Every full cluster is appended to the roots and to the leafs. *)
Lemma full_clusters_are_anchors tagged c :
  tags_ok tagged c ->
  forall f, In f (full_clusters c) ->
            In f (full_paths_roots c) /\ In f (full_paths_leafs c).
Proof.
  intros [Hr [Hl Hf]] f. rewrite Hr, Hl, Hf, !in_map_iff.
  intros [t [<- Ht]]. apply filter_In in Ht. destruct Ht as [Ht Hb].
  apply andb_prop in Hb.
  split; exists t; (split; [reflexivity|]); apply filter_In; tauto.
Qed.

(** When every cluster is full, the roots and the leafs are the same
    list. *)
Lemma all_full_same_anchors tagged c :
  tags_ok tagged c ->
  full_clusters c = map fst tagged ->
  full_paths_roots c = full_paths_leafs c.
Proof.
  intros [Hr [Hl Hf]] Hall. rewrite Hf in Hall.
  apply (f_equal (@length Z)) in Hall. rewrite !length_map in Hall.
  apply filter_keeps_all in Hall.
  rewrite Hr, Hl.
  rewrite (filter_weaken (fun t => fst (snd t) && snd (snd t)) (fun t => fst (snd t)));
    [|intros x H; apply andb_prop in H; tauto | exact Hall].
  rewrite (filter_weaken (fun t => fst (snd t) && snd (snd t)) (fun t => snd (snd t)));
    [|intros x H; apply andb_prop in H; tauto | exact Hall].
  reflexivity.
Qed.

Lemma drop_anchor_same_anchors l : forall G anchors,
  snd (fold_left drop_anchor l (G, anchors, anchors))
  = snd (fst (fold_left drop_anchor l (G, anchors, anchors))).
Proof.
  induction l as [|n r IH]; simpl; intros G anchors; [reflexivity|].
  destruct (remove_node G n) as [G'|]; [|apply IH].
  destruct (Py.list_remove n anchors) as [anchors'|]; apply IH.
Qed.

(** A reported path extends the path it was searched from. *)
Lemma simple_paths_extend fuel G targets : forall visited children p,
  In p (simple_paths fuel G targets visited children) ->
  exists ext, ext <> [] /\ p = visited ++ ext.
Proof.
  induction fuel as [|fuel IH]; simpl; intros visited children p H; [contradiction|].
  apply in_flat_map in H. destruct H as [child [_ H]].
  destruct (Py.mem child visited); [contradiction|].
  apply in_app_or in H. destruct H as [H|H].
  - destruct (Py.mem child targets); [|contradiction].
    destruct H as [<-|[]]. exists [child]. split; [discriminate | reflexivity].
  - destruct (forallb _ targets); [contradiction|].
    apply IH in H. destruct H as [ext [_ ->]].
    exists (child :: ext). split; [discriminate|]. now rewrite <- app_assoc.
Qed.

Lemma simple_paths_from_head G source targets p :
  In p (simple_paths_from G source targets) ->
  ~ In source targets /\ exists rest, rest <> [] /\ p = source :: rest.
Proof.
  unfold simple_paths_from. destruct (Py.mem source targets) eqn:E; [contradiction|].
  destruct (_ <? 1); [contradiction|].
  intros H. split; [now apply mem_false|].
  apply simple_paths_extend in H. exact H.
Qed.

(** No path starts at a node of the leaf list. *)
Lemma find_paths_loop_heads G paths_leafs roots : forall bound paths ps,
  find_paths_loop G paths_leafs roots bound paths = Some ps ->
  forall p, In p ps ->
    In p paths \/
    exists r rest, In r roots /\ ~ In r paths_leafs /\ rest <> [] /\ p = r :: rest.
Proof.
  induction roots as [|root more IH]; simpl; intros bound paths ps H p Hp.
  - injection H as <-. now left.
  - unfold all_simple_paths in H.
    destruct (negb (has_node G root)).
    + destruct bound; [|discriminate].
      destruct (IH _ _ _ H p Hp) as [Hin|[r [rest [Hr Hrest]]]]; [now left|].
      right. exists r, rest. simpl. tauto.
    + destruct (IH _ _ _ H p Hp) as [Hin|[r [rest [Hr Hrest]]]].
      * apply in_app_or in Hin. destruct Hin as [Hin|Hin]; [now left|].
        right. apply simple_paths_from_head in Hin.
        destruct Hin as [Hnl [rest [Hne ->]]].
        exists root, rest. simpl. auto.
      * right. exists r, rest. simpl. tauto.
Qed.

Lemma find_full_paths_heads G paths_roots paths_leafs ps :
  find_full_paths G paths_roots paths_leafs = Some ps ->
  forall p, In p ps ->
    exists r rest, In r paths_roots /\ ~ In r paths_leafs /\ rest <> [] /\ p = r :: rest.
Proof.
  intros H p Hp.
  destruct (find_paths_loop_heads _ _ _ _ _ _ H p Hp) as [[]|Hx]. exact Hx.
Qed.

(** Classification appends every full cluster to the root list and to
    the leaf list.  Path enumeration, as networkx 2.x does it, never
    starts a path at a node of the leaf list, so on an edge where every
    cluster is full no path is found. *)
Lemma full_clusters_are_anchors_not_path_heads
    (start_end_gap strong_cluster_min_reads : Z) (cl : list Row) (ln : Z)
    (data : string -> option ReadInfo) (cons : Z -> option ClusterInfo)
    (clusters : list Z) (G0 : DiGraph)
    (c : Classes) (G : DiGraph) (roots leafs : list Z) (paths : list (list Z)) :
  discover_paths start_end_gap strong_cluster_min_reads cl ln data cons clusters G0
  = Some (c, G, roots, leafs, paths) ->
  (forall f, In f (full_clusters c) ->
             In f (full_paths_roots c) /\ In f (full_paths_leafs c)) /\
  (forall p, In p paths ->
             exists r rest, In r roots /\ ~ In r leafs /\ rest <> [] /\ p = r :: rest) /\
  (full_clusters c = clusters -> paths = []).
Proof.
  unfold discover_paths, bind. intros H.
  destruct (classify _ _ _ _ _ _ _) as [c0|] eqn:Ec; [|discriminate].
  destruct (build_paths_graph _ _ _ _) as [[[G1 roots1] leafs1]|] eqn:Eb; [|discriminate].
  destruct (find_full_paths G1 roots1 leafs1) as [ps|] eqn:Ef; [|discriminate].
  injection H as <- <- <- <- <-.
  destruct (classify_tags _ _ _ _ _ _ _ _ Ec) as [tagged [Hm Ht]].
  split; [now apply (full_clusters_are_anchors tagged)|].
  split; [now apply (find_full_paths_heads G1)|].
  intros Hall.
  assert (Hsame : full_paths_roots c0 = full_paths_leafs c0)
    by (apply (all_full_same_anchors tagged); congruence).
  assert (Heq : roots1 = leafs1).
  { unfold build_paths_graph, bind in Eb. rewrite Hsame in Eb.
    destruct (anchor_links _ true _ _ _); [|discriminate].
    destruct (anchor_links _ false _ _ _) as [node_remove|]; [|discriminate].
    pose proof (drop_anchor_same_anchors node_remove
                  (remove_nested
                     match remove_node (remove_selfloops G0) 0 with
                     | Some G' => G'
                     | None => remove_selfloops G0
                     end (cls_cons c0))
                  (full_paths_leafs c0)) as Hd.
    destruct (fold_left drop_anchor node_remove _) as [[G4 r4] l4].
    destruct (detours G4 (nodes G4) []); [|discriminate].
    injection Eb as _ <- <-. simpl in Hd. congruence. }
  subst leafs1.
  destruct ps as [|p ps']; [reflexivity|]. exfalso.
  destruct (find_full_paths_heads _ _ _ _ Ef p (or_introl eq_refl))
    as [r [rest [Hr [Hnr _]]]].
  contradiction.
Qed.

(** Two full clusters and nothing else: no path is found. *)
Lemma two_full_clusters_no_path :
  discover_paths 50 1 two_full_reads 1000 two_full_data two_full_cons [1; 2]
    two_full_graph
  = Some (mkClasses two_full_cons [1; 2] [1; 2] [1; 2] [1; 2],
          mkGraph [1; 2] [], [1; 2], [1; 2], []).
Proof. vm_compute. reflexivity. Qed.

(** C4. On the chain 1 -> 2 -> 3 cluster 3 is full.  Classification
    puts it on the root list and on the leaf list, [build_paths_graph]
    leaves it in the graph, and the one path found runs from the root 1
    through 2 into it.  [add_path_edges] then takes 3 off both lists:
    the path now ends in a cluster that is no leaf and has no successor,
    and the call raises ([max] of an empty list). *)
Theorem path_into_full_cluster_aborts :
  exists c G,
    discover_paths 50 1 chain_to_full_reads 1000 chain_to_full_data
      chain_to_full_cons [1; 2; 3] chain_to_full_graph
    = Some (c, G, [1; 3], [3], [[1; 2; 3]])
    /\ full_clusters c = [3]
    /\ In 3 (nodes G)
    /\ fold_left drop_full (full_clusters c) ([1; 3], [3]) = ([1], [])
    /\ add_path_edges 50 Py.sorted_set 1000 [[1; 2; 3]] G [1; 3] [3]
         (full_clusters c) (cls_cons c) = None.
Proof.
  do 2 eexists. split; [vm_compute; reflexivity|].
  split; [reflexivity|]. split; [cbn; tauto|].
  split; [reflexivity|]. vm_compute. reflexivity.
Qed.

(** ** Cut-point resolution *)

(** C3, as stated, fails: on the fork, cluster 2 gets its left cut from
    the group of 1, 2 and 3 (750) and its right cut from the pair 2, 4
    (525); it stays on its path and goes to [add_child_edge] with the
    left cut beyond the right one.  The order of [set(path_cl)] is the
    ascending one, as CPython iterates a set of small integers; the
    stops all differ, so the order by stop position does not depend on
    it. *)
Lemma fork_cuts_cross :
  discover_paths 50 1 fork_reads 1000 fork_data fork_cons [1; 2; 3; 4; 5] fork_graph
  = Some (mkClasses fork_cons [] [1] [4; 5] [], fork_graph, [1], [4; 5],
          [[1; 2; 4]; [1; 3; 5]]) /\
  exists res,
    add_path_edges 50 Py.sorted_set 1000 [[1; 2; 4]; [1; 3; 5]] fork_graph
      [1] [4; 5] [] fork_cons = Some res /\
    cut_get (pe_cut_l res) 2 = Some (Some 750) /\
    cut_get (pe_cut_r res) 2 = Some (Some 525) /\
    pe_paths res = [[1; 2; 4]; [1; 3; 5]] /\
    In (2, 750, 525) (pe_children res).
Proof.
  split; [vm_compute; reflexivity|].
  eexists. split; [vm_compute; reflexivity|].
  repeat split. simpl. tauto.
Qed.

(** *** Dictionaries and list positions *)

Lemma cut_get_set_same d k v : cut_get (cut_set d k v) k = Some v.
Proof.
  induction d as [|[k' v'] r IH]; simpl.
  - now rewrite Z.eqb_refl.
  - destruct (Z.eqb_spec k' k); simpl.
    + subst. now rewrite Z.eqb_refl.
    + destruct (Z.eqb_spec k' k); [contradiction | exact IH].
Qed.

Lemma cut_get_set_other d k v k' : k' <> k -> cut_get (cut_set d k v) k' = cut_get d k'.
Proof.
  intros Hne. induction d as [|[k0 v0] r IH]; simpl.
  - destruct (Z.eqb_spec k k'); [congruence | reflexivity].
  - destruct (Z.eqb_spec k0 k); simpl.
    + subst. destruct (Z.eqb_spec k k'); [congruence | reflexivity].
    + destruct (Z.eqb_spec k0 k'); [reflexivity | exact IH].
Qed.

Lemma cut_set_keys d k v : In k (map fst d) -> map fst (cut_set d k v) = map fst d.
Proof.
  induction d as [|[k' v'] r IH]; simpl; [contradiction|].
  intros H. destruct (Z.eqb_spec k' k); simpl; [reflexivity|].
  f_equal. apply IH. destruct H; [contradiction | assumption].
Qed.

Lemma cut_set_new d k v : ~ In k (map fst d) -> cut_set d k v = d ++ [(k, v)].
Proof.
  induction d as [|[k' v'] r IH]; simpl; [reflexivity|].
  intros H. destruct (Z.eqb_spec k' k); [exfalso; auto|].
  f_equal. apply IH. tauto.
Qed.

Lemma cut_get_tabulate (f : Z -> option Z) keys c :
  In c keys -> cut_get (map (fun k => (k, f k)) keys) c = Some (f c).
Proof.
  induction keys as [|k r IH]; simpl; [contradiction|].
  intros H. destruct (Z.eqb_spec k c); [now subst|].
  apply IH. destruct H; [contradiction | assumption].
Qed.

Lemma index_middle pre x post :
  ~ In x pre -> Py.index x (pre ++ x :: post) = Some (Z.of_nat (length pre)).
Proof.
  induction pre as [|y r IH]; simpl; intros H.
  - now rewrite Z.eqb_refl.
  - destruct (Z.eqb_spec y x); [exfalso; auto|].
    rewrite IH by tauto. f_equal. lia.
Qed.

Lemma getitem_middle pre x post :
  Py.getitem (pre ++ x :: post) (Z.of_nat (length pre)) = Some x.
Proof.
  unfold Py.getitem. rewrite length_app. simpl length.
  destruct (Z.leb_spec 0 (Z.of_nat (length pre))); [|lia].
  destruct (Z.ltb_spec (Z.of_nat (length pre)) (Z.of_nat (length pre + S (length post))));
    [|lia].
  simpl. rewrite Nat2Z.id. rewrite nth_error_app2 by lia.
  now rewrite Nat.sub_diag.
Qed.

Lemma getitem_past l : Py.getitem l (Z.of_nat (length l)) = None.
Proof.
  unfold Py.getitem.
  destruct (Z.ltb_spec (Z.of_nat (length l)) (Z.of_nat (length l))); [lia|].
  rewrite andb_false_r.
  destruct (Z.ltb_spec (Z.of_nat (length l)) 0); [lia | reflexivity].
Qed.

Lemma next_on_middle pre a b post :
  ~ In a pre -> next_on (pre ++ a :: b :: post) a = Some b.
Proof.
  intros H. unfold next_on, bind. rewrite index_middle by assumption.
  replace (Z.of_nat (length pre) + 1) with (Z.of_nat (length (pre ++ [a])))
    by (rewrite length_app; simpl; lia).
  replace (pre ++ a :: b :: post) with ((pre ++ [a]) ++ b :: post)
    by (now rewrite <- app_assoc).
  apply getitem_middle.
Qed.

Lemma next_on_last pre a : ~ In a pre -> next_on (pre ++ [a]) a = None.
Proof.
  intros H. unfold next_on, bind. rewrite index_middle by assumption.
  replace (Z.of_nat (length pre) + 1) with (Z.of_nat (length (pre ++ [a])))
    by (rewrite length_app; simpl; lia).
  apply getitem_past.
Qed.

(** *** The traversal on a single path *)

Lemma walk_step fuel paths n q L R V :
  walk (S fuel) paths (mkWalk (n :: q) L R V) =
  walk fuel paths
    (if Py.mem n L
     then fold_left (step_back n) paths (mkWalk q L R (V ++ [n]))
     else fold_left (step_forward n) paths (mkWalk q L R (V ++ [n]))).
Proof. reflexivity. Qed.

Lemma walk_done fuel paths L R V :
  walk fuel paths (mkWalk [] L R V) = Some (mkWalk [] L R V).
Proof. destruct fuel; reflexivity. Qed.

Lemma step_back_on pre a b post w :
  ~ In b (pre ++ [a]) ->
  Py.mem a (wVisited w) = false ->
  step_back b w (pre ++ a :: b :: post)
  = mkWalk (a :: wQ w) (wL w) (wR w ++ [a]) (wVisited w).
Proof.
  intros Hb Hv. unfold step_back.
  replace (pre ++ a :: b :: post) with ((pre ++ [a]) ++ b :: post)
    by (now rewrite <- app_assoc).
  rewrite (index_middle (pre ++ [a]) b post Hb).
  assert (Hlen : Z.of_nat (length (pre ++ [a])) = Z.of_nat (length pre) + 1)
    by (rewrite length_app; simpl; lia).
  rewrite Hlen.
  destruct (Z.gtb_spec (Z.of_nat (length pre) + 1) 0); [|lia].
  replace (Z.of_nat (length pre) + 1 - 1) with (Z.of_nat (length pre)) by lia.
  rewrite <- app_assoc. cbn [app].
  rewrite getitem_middle, Hv. reflexivity.
Qed.

Lemma step_forward_seen pre a b post w :
  ~ In a pre ->
  Py.mem b (wVisited w) = true ->
  step_forward a w (pre ++ a :: b :: post) = w.
Proof.
  intros Ha Hv. unfold step_forward.
  rewrite next_on_middle by assumption. now rewrite Hv.
Qed.

Lemma mem_head x l : Py.mem x (x :: l) = true.
Proof. apply mem_In. now left. Qed.

Lemma mem_single_other x y : x <> y -> Py.mem x [y] = false.
Proof. intros H. apply mem_false. intros [E|[]]. congruence. Qed.

(** From a cluster [a] followed by [b] the traversal collects [b] as the
    only successor and [a] as the only predecessor. *)
Lemma walk_pair pre a b post fuel :
  NoDup (pre ++ a :: b :: post) ->
  walk (S (S fuel)) [pre ++ a :: b :: post]
    (fold_left (seed a) [pre ++ a :: b :: post] (mkWalk [] [] [] []))
  = Some (mkWalk [] [b] [a] [b; a]).
Proof.
  intros Hnd.
  assert (Ha : ~ In a pre).
  { apply NoDup_remove_2 in Hnd. intros H. apply Hnd. apply in_or_app. now left. }
  assert (Hb : ~ In b (pre ++ [a])).
  { replace (pre ++ a :: b :: post) with ((pre ++ [a]) ++ b :: post) in Hnd
      by (now rewrite <- app_assoc).
    apply NoDup_remove_2 in Hnd. intros H. apply Hnd. apply in_or_app. now left. }
  assert (Hab : a <> b).
  { intros ->. apply Hb. apply in_or_app. right. now left. }
  cbn [fold_left]. unfold seed. rewrite next_on_middle by assumption.
  cbn [wQ wL wR wVisited app].
  rewrite walk_step, mem_head. cbn [fold_left app].
  rewrite step_back_on; [|assumption | now apply mem_single_other].
  cbn [wQ wL wR wVisited app].
  rewrite walk_step, (mem_single_other a b Hab). cbn [fold_left app].
  rewrite step_forward_seen; [|assumption | apply mem_head].
  apply walk_done.
Qed.

(** From the last cluster of the path nothing is collected. *)
Lemma walk_last pre a fuel :
  ~ In a pre ->
  walk fuel [pre ++ [a]] (fold_left (seed a) [pre ++ [a]] (mkWalk [] [] [] []))
  = Some (mkWalk [] [] [] []).
Proof.
  intros Ha. cbn [fold_left]. unfold seed. rewrite next_on_last by assumption.
  apply walk_done.
Qed.

(** *** Resolution along a single path *)

Section SinglePath.

Variable cons : Z -> option ClusterInfo.
Variable ln : Z.
Variable leafs : list Z.

Lemma walk_fuel_single (p : list Z) : exists fuel, walk_fuel [p] = S (S fuel).
Proof. eexists. reflexivity. Qed.

Lemma resolve_member_inner pre a b post (cut_l cut_r : Cuts) la :
  NoDup (pre ++ a :: b :: post) ->
  cons a <> None -> cons b <> None ->
  cut_get cut_l a = Some (Some la) ->
  cut_get cut_r a = Some None ->
  Py.mem a leafs = false ->
  resolve_member cons [pre ++ a :: b :: post] leafs (cut_l, cut_r) a
  = Some (cut_set cut_l b (Some (midpoint cons a b)),
          cut_set cut_r a (Some (midpoint cons a b))).
Proof.
  intros Hnd Ha Hb Hl Hr Hleaf. unfold resolve_member, bind.
  rewrite Hl, Hr, Hleaf. cbn [orb].
  destruct (walk_fuel_single (pre ++ a :: b :: post)) as [fuel ->].
  rewrite walk_pair by assumption. cbn [wL wR borders bind].
  unfold midpoint, start_of, stop_of.
  destruct (cons a) as [ia|]; [|contradiction].
  destruct (cons b) as [ib|]; [|contradiction].
  reflexivity.
Qed.

Lemma resolve_member_last pre a (cut_l cut_r : Cuts) la r :
  ~ In a pre ->
  cut_get cut_l a = Some (Some la) ->
  cut_get cut_r a = Some r ->
  Py.mem a leafs = true ->
  resolve_member cons [pre ++ [a]] leafs (cut_l, cut_r) a = Some (cut_l, cut_r).
Proof.
  intros Ha Hl Hr Hleaf. unfold resolve_member, bind.
  rewrite Hl, Hr, Hleaf, orb_true_r.
  rewrite walk_last by assumption. reflexivity.
Qed.

Lemma ready_ext (cut_r cut_r' : Cuts) a rest :
  (forall c, In c (a :: rest) -> cut_get cut_r' c = cut_get cut_r c) ->
  ready ln leafs cut_r a rest -> ready ln leafs cut_r' a rest.
Proof.
  revert a. induction rest as [|b rest IH]; intros a Hext; simpl.
  - intros [H1 H2]. split; [assumption|]. rewrite Hext; [assumption | now left].
  - intros [H1 [H2 H3]]. split; [assumption|]. split.
    + rewrite Hext; [assumption | now left].
    + apply IH; [|assumption]. intros c Hc. apply Hext. now right.
Qed.

(** The loop over the members, from [a] on: every cluster hands the
    midpoint with its successor to itself as right cut and to the
    successor as left cut. *)
Lemma resolve_chain : forall rest pre a (cut_l cut_r : Cuts) la,
  NoDup (pre ++ a :: rest) ->
  (forall c, In c (a :: rest) -> cons c <> None) ->
  (forall c, In c (a :: rest) -> In c (map fst cut_l) /\ In c (map fst cut_r)) ->
  cut_get cut_l a = Some (Some la) ->
  ready ln leafs cut_r a rest ->
  exists cut_l' cut_r',
    resolve_loop cons [pre ++ a :: rest] leafs (a :: rest) (cut_l, cut_r)
    = Some (cut_l', cut_r') /\
    map fst cut_l' = map fst cut_l /\
    map fst cut_r' = map fst cut_r /\
    (forall c, ~ In c rest -> cut_get cut_l' c = cut_get cut_l c) /\
    (forall c, ~ In c (a :: rest) -> cut_get cut_r' c = cut_get cut_r c) /\
    tiled cons ln cut_l' cut_r' a rest.
Proof.
  induction rest as [|b rest IH]; intros pre a cut_l cut_r la Hnd Hcons Hkeys Hl Hready.
  - destruct Hready as [Hleaf Hr]. exists cut_l, cut_r.
    cbn [resolve_loop]. unfold bind at 1.
    rewrite (resolve_member_last pre a cut_l cut_r la (Some (ln - 1)));
      try assumption.
    + repeat split; auto.
    + apply NoDup_remove_2 in Hnd. now rewrite app_nil_r in Hnd.
  - destruct Hready as [Hleaf [Hr Hready]].
    cbn [resolve_loop]. unfold bind at 1.
    rewrite (resolve_member_inner pre a b rest cut_l cut_r la); try assumption;
      try (apply Hcons; simpl; tauto).
    set (m := midpoint cons a b).
    assert (Hnd' : NoDup ((pre ++ [a]) ++ b :: rest)) by (now rewrite <- app_assoc).
    assert (Ha : ~ In a (b :: rest)).
    { apply NoDup_remove_2 in Hnd. intros H. apply Hnd. apply in_or_app. now right. }
    assert (Hb : ~ In b rest).
    { apply NoDup_remove_2 in Hnd'. intros H. apply Hnd'. apply in_or_app. now right. }
    assert (Hab : a <> b) by (intros ->; apply Ha; now left).
    destruct (IH (pre ++ [a]) b (cut_set cut_l b (Some m)) (cut_set cut_r a (Some m)) m)
      as [cl' [cr' [Hloop [Hkl [Hkr [Hfl [Hfr Htiled]]]]]]].
    + exact Hnd'.
    + intros c Hc. apply Hcons. now right.
    + intros c Hc.
      rewrite !cut_set_keys by (apply Hkeys; simpl; tauto).
      apply Hkeys. now right.
    + apply cut_get_set_same.
    + apply (ready_ext cut_r); [|assumption].
      intros c Hc. apply cut_get_set_other. intros ->. contradiction.
    + exists cl', cr'. rewrite <- app_assoc in Hloop. cbn [app] in Hloop.
      split; [exact Hloop|].
      split; [rewrite Hkl; apply cut_set_keys, Hkeys; simpl; tauto|].
      split; [rewrite Hkr; apply cut_set_keys, Hkeys; simpl; tauto|].
      split; [|split].
      * intros c Hc. rewrite Hfl by (intros H; apply Hc; now right).
        apply cut_get_set_other. intros ->. apply Hc. now left.
      * intros c Hc. rewrite Hfr by (intros H; apply Hc; now right).
        apply cut_get_set_other. intros ->. apply Hc. now left.
      * cbn [tiled]. split; [|split; [|exact Htiled]].
        -- rewrite Hfr by assumption. apply cut_get_set_same.
        -- rewrite Hfl by assumption. apply cut_get_set_same.
Qed.

End SinglePath.

(** *** Seeds and the order by stop position *)

Section Seeds.

Variable start_end_gap : Z.
Variable cons : Z -> option ClusterInfo.
Variable ln : Z.
Variable roots leafs : list Z.

Lemma seed_cuts_spec : forall todo (cut_l cut_r : Cuts),
  NoDup todo ->
  (forall c, In c todo -> cons c <> None) ->
  (forall c, In c todo -> ~ In c (map fst cut_l) /\ ~ In c (map fst cut_r)) ->
  seed_cuts start_end_gap cons ln roots leafs todo cut_l cut_r
  = Some (cut_l ++ map (fun c => (c, seed_left start_end_gap cons roots c)) todo,
          cut_r ++ map (fun c => (c, seed_right ln leafs c)) todo).
Proof.
  induction todo as [|c rest IH]; intros cut_l cut_r Hnd Hcons Hfresh.
  - simpl. now rewrite !app_nil_r.
  - inversion Hnd as [|? ? Hc Hrest]; subst.
    cbn [seed_cuts]. unfold bind at 1.
    assert (Hseed : (if Py.mem c roots
                     then bind (cons c) (fun ci =>
                            Some (if Start ci <? start_end_gap
                                  then Some (Start ci) else None))
                     else Some None)
                    = Some (seed_left start_end_gap cons roots c)).
    { unfold seed_left, bind. destruct (Py.mem c roots); [|reflexivity].
      destruct (cons c) eqn:E; [reflexivity|].
      exfalso. apply (Hcons c); [now left | assumption]. }
    rewrite Hseed.
    destruct (Hfresh c (or_introl eq_refl)) as [Hl Hr].
    rewrite (cut_set_new cut_l c _ Hl), (cut_set_new cut_r c _ Hr).
    fold (seed_right ln leafs c).
    rewrite IH.
    + cbn [map]. now rewrite <- !app_assoc.
    + assumption.
    + intros x Hx. apply Hcons. now right.
    + intros x Hx. rewrite !map_app. cbn [map fst].
      destruct (Hfresh x (or_intror Hx)) as [Hxl Hxr].
      split; intros H; apply in_app_or in H; destruct H as [H|[->|[]]]; auto.
Qed.

Lemma stop_positions_spec keys :
  (forall c, In c keys -> cons c <> None) ->
  stop_positions cons keys = Some (map (fun c => (c, stop_of cons c)) keys).
Proof.
  induction keys as [|c rest IH]; intros Hcons; [reflexivity|].
  cbn [stop_positions map]. unfold bind, stop_of at 1.
  destruct (cons c) eqn:E; [|exfalso; apply (Hcons c); [now left | assumption]].
  rewrite IH; [reflexivity|]. intros x Hx. apply Hcons. now right.
Qed.

Lemma reorder_cuts_spec (f : Z -> option Z) members keys :
  (forall c, In c keys -> In c members) ->
  reorder_cuts (map (fun c => (c, f c)) members) keys
  = Some (map (fun c => (c, f c)) keys).
Proof.
  induction keys as [|c rest IH]; intros Hin; [reflexivity|].
  cbn [reorder_cuts map]. unfold bind.
  rewrite cut_get_tabulate by (apply Hin; now left).
  rewrite IH; [reflexivity|]. intros x Hx. apply Hin. now right.
Qed.

End Seeds.

Lemma insert_by_perm x l : Permutation (insert_by x l) (x :: l).
Proof.
  induction l as [|y r IH]; simpl; [reflexivity|].
  destruct (snd x <=? snd y); [reflexivity|].
  rewrite IH. apply perm_swap.
Qed.

Lemma sort_by_value_perm l : Permutation (sort_by_value l) l.
Proof.
  induction l as [|x r IH]; simpl; [reflexivity|].
  rewrite insert_by_perm. now constructor.
Qed.

Lemma insert_by_sorted x l :
  StronglySorted (fun a b : Z * Z => snd a <= snd b) l ->
  StronglySorted (fun a b : Z * Z => snd a <= snd b) (insert_by x l).
Proof.
  induction 1 as [|y r Hs IH Hall]; simpl.
  - repeat constructor.
  - destruct (Z.leb_spec (snd x) (snd y)).
    + constructor; [now constructor|].
      constructor; [assumption|].
      eapply Forall_impl; [|exact Hall]. intros; simpl in *; lia.
    + constructor; [assumption|].
      rewrite Forall_forall. intros z Hz.
      apply (Permutation_in _ (insert_by_perm x r)) in Hz.
      destruct Hz as [<-|Hz]; [lia|].
      rewrite Forall_forall in Hall. now apply Hall.
Qed.

Lemma sort_by_value_sorted l :
  StronglySorted (fun a b : Z * Z => snd a <= snd b) (sort_by_value l).
Proof.
  induction l; simpl; [constructor | now apply insert_by_sorted].
Qed.

(** A list with strictly increasing keys is the only sorted arrangement
    of its elements. *)
Lemma sorted_arrangement_unique (l1 : list (Z * Z)) : forall l2,
  StronglySorted (fun a b => snd a < snd b) l1 ->
  StronglySorted (fun a b => snd a <= snd b) l2 ->
  Permutation l1 l2 -> l1 = l2.
Proof.
  induction l1 as [|x r1 IH]; intros l2 H1 H2 Hp.
  - apply Permutation_nil in Hp. now subst.
  - destruct l2 as [|y r2]; [apply Permutation_sym, Permutation_nil in Hp; discriminate|].
    inversion H1 as [|? ? Hs1 Hall1]; subst.
    inversion H2 as [|? ? Hs2 Hall2]; subst.
    rewrite Forall_forall in Hall1, Hall2.
    assert (x = y) as ->.
    { assert (Hx : In x (y :: r2)) by (apply (Permutation_in _ Hp); now left).
      assert (Hy : In y (x :: r1))
        by (apply (Permutation_in _ (Permutation_sym Hp)); now left).
      destruct Hx as [->|Hx]; [reflexivity|].
      destruct Hy as [->|Hy]; [reflexivity|].
      specialize (Hall1 _ Hy). specialize (Hall2 _ Hx). lia. }
    f_equal. apply IH; try assumption.
    now apply Permutation_cons_inv in Hp.
Qed.

Lemma ordered_stops cons ln a rest :
  ordered cons ln a rest ->
  StronglySorted (fun x y : Z * Z => snd x < snd y)
    (map (fun c => (c, stop_of cons c)) (a :: rest)).
Proof.
  revert a. induction rest as [|b rest IH]; intros a H.
  - repeat constructor.
  - destruct H as [_ [Hab H]]. specialize (IH b H).
    cbn [map] in *. constructor; [assumption|].
    inversion IH as [|? ? _ Hall]; subst.
    constructor; [exact Hab|].
    eapply Forall_impl; [|exact Hall]. intros; simpl in *; lia.
Qed.

Lemma order_by_stop_is_path cons ln a rest members :
  ordered cons ln a rest ->
  Permutation members (a :: rest) ->
  map fst (sort_by_value (map (fun c => (c, stop_of cons c)) members)) = a :: rest.
Proof.
  intros Hord Hperm.
  rewrite <- (sorted_arrangement_unique
                (map (fun c => (c, stop_of cons c)) (a :: rest))
                (sort_by_value (map (fun c => (c, stop_of cons c)) members))).
  - rewrite map_map. cbn [fst]. apply map_id.
  - now apply (ordered_stops cons ln).
  - apply sort_by_value_sorted.
  - rewrite sort_by_value_perm. apply Permutation_map. now apply Permutation_sym.
Qed.

(** *** Inheritance and the last loop *)

Lemma entry_get (d : Cuts) k v :
  NoDup (map fst d) -> In (k, v) d -> cut_get d k = Some v.
Proof.
  induction d as [|[k' v'] r IH]; simpl; intros Hnd H; [contradiction|].
  inversion Hnd as [|? ? Hk Hr]; subst.
  destruct H as [H|H].
  - injection H as -> ->. now rewrite Z.eqb_refl.
  - destruct (Z.eqb_spec k' k) as [->|Hne].
    + exfalso. apply Hk. apply in_map_iff. now exists (k, v).
    + now apply IH.
Qed.

Lemma inherit_cuts_resolved paths (cut_l cut_r : Cuts) :
  NoDup (map fst cut_l) ->
  (forall c, In c (map fst cut_l) -> exists l, cut_get cut_l c = Some (Some l)) ->
  inherit_cuts paths cut_l cut_r = cut_l.
Proof.
  intros Hnd Hall. unfold inherit_cuts.
  destruct (existsb _ cut_l) eqn:E; [|reflexivity].
  apply existsb_exists in E. destruct E as [[k v] [Hin Hv]].
  destruct (Hall k) as [l Hl]; [apply in_map_iff; now exists (k, v)|].
  rewrite (entry_get cut_l k v Hnd Hin) in Hl. injection Hl as ->. discriminate.
Qed.

Lemma list_remove_filter x l :
  NoDup l -> In x l -> Py.list_remove x l = Some (filter (fun y => negb (y =? x)) l).
Proof.
  induction l as [|y r IH]; simpl; intros Hnd Hin; [contradiction|].
  inversion Hnd as [|? ? Hy Hr]; subst.
  destruct (Z.eqb_spec y x) as [->|Hne]; simpl.
  - f_equal. symmetry. clear IH Hnd Hin Hr.
    induction r as [|z r IH]; simpl; [reflexivity|].
    destruct (Z.eqb_spec z x) as [->|]; simpl.
    + exfalso. apply Hy. now left.
    + f_equal. apply IH. intros H. apply Hy. now right.
  - destruct Hin as [->|Hin]; [contradiction|].
    now rewrite IH.
Qed.

Lemma drop_from_path_filter c p :
  NoDup p -> drop_from_path c p = filter (fun y => negb (y =? c)) p.
Proof.
  intros Hnd. unfold drop_from_path.
  destruct (in_dec Z.eq_dec c p) as [Hin|Hout].
  - now rewrite list_remove_filter.
  - rewrite (proj2 (list_remove_None c p) Hout).
    symmetry. clear Hnd. induction p as [|y r IH]; simpl; [reflexivity|].
    destruct (Z.eqb_spec y c) as [->|]; simpl.
    + exfalso. apply Hout. now left.
    + f_equal. apply IH. intros H. apply Hout. now right.
Qed.

Lemma filter_twice {A : Type} (f g : A -> bool) (l : list A) :
  filter f (filter g l) = filter (fun x => g x && f x) l.
Proof.
  induction l as [|x r IH]; simpl; [reflexivity|].
  destruct (g x); simpl; [destruct (f x); now rewrite IH | exact IH].
Qed.

Section LastLoop.

Variable cut_l cut_r : Cuts.

Lemma fold_drop_filter : forall todo p,
  NoDup p ->
  fold_left (fun q c => if keeps cut_l cut_r c then q else drop_from_path c q) todo p
  = filter (fun x => negb (leaves_among cut_l cut_r todo x)) p.
Proof.
  induction todo as [|c rest IH]; intros p Hnd; cbn [fold_left].
  - symmetry. clear Hnd. induction p; simpl; [reflexivity | now f_equal].
  - destruct (keeps cut_l cut_r c) eqn:E.
    + rewrite IH by assumption. apply filter_ext. intros x.
      unfold leaves_among. cbn [existsb]. rewrite E, andb_false_r. reflexivity.
    + rewrite IH by (rewrite drop_from_path_filter by assumption; now apply NoDup_filter).
      rewrite drop_from_path_filter by assumption.
      rewrite filter_twice. apply filter_ext. intros x.
      unfold leaves_among. cbn [existsb]. rewrite E, andb_true_r.
      rewrite (Z.eqb_sym c x). now rewrite negb_orb.
Qed.

Lemma emit_children_spec : forall todo paths G children,
  (forall c, In c todo ->
     exists l r, cut_get cut_l c = Some (Some l) /\ cut_get cut_r c = Some (Some r)) ->
  NoDup todo ->
  (forall c, In c todo -> has_node G c = true) ->
  exists G',
    emit_children cut_l cut_r todo paths G children
    = Some (map (fun p => fold_left
                            (fun q c => if keeps cut_l cut_r c then q
                                        else drop_from_path c q) todo p) paths,
            G', children ++ flat_map (child_of cut_l cut_r) todo).
Proof.
  induction todo as [|c rest IH]; intros paths G children Hcuts Hnd Hnodes.
  - exists G. cbn. now rewrite map_id, app_nil_r.
  - inversion Hnd as [|? ? Hc Hrest]; subst.
    destruct (Hcuts c (or_introl eq_refl)) as [l [r [Hl Hr]]].
    cbn [emit_children fold_left flat_map]. unfold bind at 1 2.
    unfold keeps, child_of. rewrite Hl, Hr. cbn [option_Z_eqb].
    destruct (Z.eqb_spec l r) as [->|Hne]; cbn [negb].
    + unfold bind at 1. unfold remove_node at 1.
      rewrite (Hnodes c (or_introl eq_refl)).
      set (G1 := mkGraph _ _).
      destruct (IH (map (drop_from_path c) paths) G1 children) as [G' HG'].
      * intros x Hx. apply Hcuts. now right.
      * assumption.
      * intros x Hx.
        rewrite (has_node_after_remove G c G1 x).
        -- rewrite (Hnodes x (or_intror Hx)).
           destruct (Z.eqb_spec x c) as [->|]; [contradiction | reflexivity].
        -- unfold remove_node. now rewrite (Hnodes c (or_introl eq_refl)).
      * exists G'. rewrite HG', map_map. reflexivity.
    + unfold bind at 1 2.
      destruct (IH paths G (children ++ [(c, l, r)])) as [G' HG'].
      * intros x Hx. apply Hcuts. now right.
      * assumption.
      * intros x Hx. apply Hnodes. now right.
      * exists G'. rewrite HG'. rewrite <- app_assoc. reflexivity.
Qed.

End LastLoop.

(** *** What the resolved cuts satisfy *)

Section Tiling.

Variable cons : Z -> option ClusterInfo.
Variable ln : Z.
Variable cut_l cut_r : Cuts.

Lemma midpoint_bounds a b :
  2 * midpoint cons a b <= start_of cons b + stop_of cons a
  /\ start_of cons b + stop_of cons a <= 2 * midpoint cons a b + 1.
Proof.
  unfold midpoint.
  pose proof (Z.div_mod (stop_of cons a - start_of cons b) 2 ltac:(lia)).
  pose proof (Z.mod_pos_bound (stop_of cons a - start_of cons b) 2 ltac:(lia)).
  lia.
Qed.

Lemma tiled_le : forall rest a la,
  ordered cons ln a rest ->
  cut_get cut_l a = Some (Some la) ->
  2 * la <= start_of cons a + stop_of cons a ->
  tiled cons ln cut_l cut_r a rest ->
  forall c, In c (a :: rest) ->
    exists l r, cut_get cut_l c = Some (Some l)
                /\ cut_get cut_r c = Some (Some r) /\ l <= r.
Proof.
  induction rest as [|b rest IH]; intros a la Hord Hl Hla Ht c Hc.
  - destruct Hc as [<-|[]]. cbn in Ht, Hord. exists la, (ln - 1).
    repeat split; try assumption. lia.
  - destruct Hord as [Hs [He Hord]]. destruct Ht as [Hr [Hlb Ht]].
    pose proof (midpoint_bounds a b) as [Hm1 Hm2].
    destruct Hc as [<-|Hc].
    + exists la, (midpoint cons a b). repeat split; try assumption. lia.
    + apply (IH b (midpoint cons a b)); try assumption. lia.
Qed.

Lemma tiled_linked : forall rest a la,
  cut_get cut_l a = Some (Some la) ->
  tiled cons ln cut_l cut_r a rest ->
  linked cut_l cut_r (Some la) (a :: rest).
Proof.
  induction rest as [|b rest IH]; intros a la Hl Ht; cbn [linked].
  - split; [assumption|]. now exists (Some (ln - 1)).
  - destruct Ht as [Hr [Hlb Ht]]. split; [assumption|].
    exists (Some (midpoint cons a b)). split; [assumption|].
    now apply IH.
Qed.

Lemma option_Z_eqb_eq a b : option_Z_eqb a b = true -> a = b.
Proof.
  destruct a, b; simpl; try discriminate; try reflexivity.
  intros H. apply Z.eqb_eq in H. now subst.
Qed.

Lemma linked_filter : forall p v,
  linked cut_l cut_r v p -> linked cut_l cut_r v (filter (keeps cut_l cut_r) p).
Proof.
  induction p as [|b r IH]; intros v H; [exact I|].
  destruct H as [Hl [w [Hr H]]]. cbn [filter].
  destruct (keeps cut_l cut_r b) eqn:E.
  - cbn [linked]. split; [assumption|]. exists w. split; [assumption|]. now apply IH.
  - unfold keeps in E. rewrite Hl, Hr in E.
    apply negb_false_iff, option_Z_eqb_eq in E. subst w. now apply IH.
Qed.

Lemma linked_adjacent : forall p v a b,
  linked cut_l cut_r v p -> adjacent a b p ->
  exists w, cut_get cut_r a = Some w /\ cut_get cut_l b = Some w.
Proof.
  intros p v a b H [l1 [l2 ->]]. revert v H.
  induction l1 as [|x l1 IH]; intros v H.
  - cbn [app linked] in H. destruct H as [_ [w [Hr [Hl _]]]]. now exists w.
  - cbn [app linked] in H. destruct H as [_ [w [_ H]]]. now apply (IH w).
Qed.

End Tiling.

Lemma ready_of_seeds ln leafs (cut_r : Cuts) : forall rest a,
  (forall c, In c (a :: rest) -> cut_get cut_r c = Some (seed_right ln leafs c)) ->
  last_is_leaf leafs a rest -> ready ln leafs cut_r a rest.
Proof.
  induction rest as [|b rest IH]; intros a Hget Hleaf; cbn [ready last_is_leaf] in *.
  - split; [assumption|]. rewrite Hget by (now left).
    unfold seed_right. now rewrite Hleaf.
  - destruct Hleaf as [Ha Hleaf]. split; [assumption|]. split.
    + rewrite Hget by (now left). unfold seed_right. now rewrite Ha.
    + apply IH; [|assumption]. intros c Hc. apply Hget. now right.
Qed.

Lemma leaves_among_spec (cut_l cut_r : Cuts) todo x :
  In x todo -> leaves_among cut_l cut_r todo x = negb (keeps cut_l cut_r x).
Proof.
  intros Hin. unfold leaves_among.
  destruct (keeps cut_l cut_r x) eqn:E; cbn [negb].
  - destruct (existsb _ todo) eqn:Ex; [|reflexivity].
    apply existsb_exists in Ex. destruct Ex as [c [_ Hc]].
    apply andb_prop in Hc. destruct Hc as [Hcx Hk].
    apply Z.eqb_eq in Hcx. subst c. rewrite E in Hk. discriminate.
  - apply existsb_exists. exists x. split; [assumption|].
    now rewrite Z.eqb_refl, E.
Qed.

(** *** A single path *)

Section CutPoints.

Variable start_end_gap : Z.
Variable set_order : list Z -> list Z.

(** C3, as the code has it. On an edge with one discovered path whose
    first cluster is a root within the tolerance, whose last cluster is
    its only leaf, and along which starts do not decrease and stops
    increase, every cluster gets both cuts with [cut_l <= cut_r]; the
    right cut of a cluster is the left cut of its successor, on the path
    as discovered and on the path that is left; and exactly the clusters
    with equal cuts leave the path and are never handed to
    [add_child_edge]. *)
Theorem single_path_cuts_tile (ln first : Z) (rest : list Z) (G : DiGraph)
    (paths_roots paths_leafs full_clusters roots leafs : list Z)
    (cons : Z -> option ClusterInfo) :
  NoDup (first :: rest) ->
  Permutation (set_order (concat [first :: rest])) (first :: rest) ->
  fold_left drop_full full_clusters (paths_roots, paths_leafs) = (roots, leafs) ->
  (forall c, In c (first :: rest) -> cons c <> None) ->
  (forall c, In c (first :: rest) -> has_node G c = true) ->
  Py.mem first roots = true ->
  start_of cons first < start_end_gap ->
  start_of cons first <= stop_of cons first ->
  last_is_leaf leafs first rest ->
  ordered cons ln first rest ->
  exists res survivors,
    add_path_edges start_end_gap set_order ln [first :: rest] G
      paths_roots paths_leafs full_clusters cons = Some res /\
    pe_paths res = [survivors] /\
    (forall c, In c (first :: rest) ->
       exists l r,
         cut_get (pe_cut_l res) c = Some (Some l) /\
         cut_get (pe_cut_r res) c = Some (Some r) /\
         l <= r /\
         (In c survivors <-> l <> r) /\
         (In (c, l, r) (pe_children res) <-> l <> r)) /\
    (forall c l r, In (c, l, r) (pe_children res) -> In c survivors) /\
    (forall a b, adjacent a b (first :: rest) \/ adjacent a b survivors ->
       exists m, cut_get (pe_cut_r res) a = Some (Some m) /\
                 cut_get (pe_cut_l res) b = Some (Some m)).
Proof.
  intros Hnd Hperm Hdrop Hcons Hnodes Hroot Hgap Hse Hleaf Hord.
  set (path := first :: rest) in *.
  unfold add_path_edges. rewrite Hdrop.
  set (members := set_order (concat [path])) in *.
  assert (Hmem : forall c, In c members <-> In c path).
  { intros c. split; apply Permutation_in; [assumption | now apply Permutation_sym]. }
  assert (Hndm : NoDup members)
    by (apply (Permutation_NoDup (Permutation_sym Hperm)); assumption).
  (* seeds *)
  rewrite (seed_cuts_spec start_end_gap cons ln roots leafs members [] []);
    [|assumption | intros c Hc; apply Hcons; now apply Hmem | intros c _; simpl; tauto].
  cbn [app bind].
  (* order by stop position *)
  rewrite map_map. cbn [fst]. rewrite map_id.
  rewrite (stop_positions_spec cons members)
    by (intros c Hc; apply Hcons; now apply Hmem).
  cbn [bind].
  rewrite (order_by_stop_is_path cons ln first rest members Hord Hperm).
  fold path.
  rewrite !reorder_cuts_spec by (intros c Hc; now apply Hmem).
  cbn [bind]. rewrite map_map. cbn [fst]. rewrite map_id.
  set (cl0 := map (fun c => (c, seed_left start_end_gap cons roots c)) path).
  set (cr0 := map (fun c => (c, seed_right ln leafs c)) path).
  assert (Hk0l : map fst cl0 = path)
    by (unfold cl0; rewrite map_map; cbn [fst]; apply map_id).
  assert (Hk0r : map fst cr0 = path)
    by (unfold cr0; rewrite map_map; cbn [fst]; apply map_id).
  (* the loop over the members *)
  assert (Hl0 : cut_get cl0 first = Some (Some (start_of cons first))).
  { unfold cl0. rewrite cut_get_tabulate by (now left).
    unfold seed_left, start_of in *. rewrite Hroot.
    destruct (cons first) as [ci|] eqn:E;
      [|exfalso; apply (Hcons first); [now left | assumption]].
    destruct (Z.ltb_spec (Start ci) start_end_gap); [reflexivity | lia]. }
  assert (Hready : ready ln leafs cr0 first rest).
  { apply ready_of_seeds; [|assumption].
    intros c Hc. unfold cr0. now rewrite cut_get_tabulate. }
  destruct (resolve_chain cons ln leafs rest [] first cl0 cr0 (start_of cons first))
    as (cl' & cr' & Hloop & Hkl & Hkr & Hfl & Hfr & Htiled);
    [assumption | assumption
     | intros c Hc; rewrite Hk0l, Hk0r; tauto | assumption | assumption |].
  cbn [app] in Hloop. fold path in Hloop. rewrite Hloop. cbn [bind].
  assert (Hfirst : cut_get cl' first = Some (Some (start_of cons first))).
  { rewrite Hfl; [assumption|]. now inversion Hnd. }
  assert (Hall : forall c, In c path ->
            exists l r, cut_get cl' c = Some (Some l)
                        /\ cut_get cr' c = Some (Some r) /\ l <= r).
  { apply (tiled_le cons ln cl' cr' rest first (start_of cons first));
      try assumption. lia. }
  rewrite inherit_cuts_resolved;
    [| rewrite Hkl, Hk0l; assumption
     | intros c Hc; rewrite Hkl, Hk0l in Hc;
       destruct (Hall c Hc) as (l & r & Hl & _); now exists l].
  destruct (emit_children_spec cl' cr' members [path] G []) as [G' Hemit];
    [ intros c Hc; apply Hmem in Hc; destruct (Hall c Hc) as (l & r & Hl & Hr & _);
      exists l, r; split; assumption
    | assumption
    | intros c Hc; apply Hnodes; now apply Hmem |].
  rewrite Hemit. cbn [bind map app].
  rewrite fold_drop_filter by assumption.
  rewrite (filter_ext_in (fun x => negb (leaves_among cl' cr' members x))
             (keeps cl' cr') path)
    by (intros x Hx; rewrite leaves_among_spec by (now apply Hmem);
        apply negb_involutive).
  assert (Hkeep : forall c l r,
            cut_get cl' c = Some (Some l) -> cut_get cr' c = Some (Some r) ->
            (keeps cl' cr' c = true <-> l <> r)).
  { intros c l r Hl Hr. unfold keeps. rewrite Hl, Hr. cbn [option_Z_eqb].
    rewrite negb_true_iff, Z.eqb_neq. tauto. }
  assert (Hchild : forall c l r,
            In (c, l, r) (flat_map (child_of cl' cr') members) <->
            In c path /\ cut_get cl' c = Some (Some l)
            /\ cut_get cr' c = Some (Some r) /\ l <> r).
  { intros c l r. rewrite in_flat_map. split.
    - intros [c' [Hc' Hin]]. apply Hmem in Hc'.
      destruct (Hall c' Hc') as (l' & r' & Hl' & Hr' & _).
      unfold child_of in Hin. rewrite Hl', Hr' in Hin.
      destruct (Z.eqb_spec l' r'); [contradiction|].
      destruct Hin as [Hin|[]]. injection Hin as <- <- <-. auto.
    - intros (Hc & Hl & Hr & Hne). exists c. split; [now apply Hmem|].
      unfold child_of. rewrite Hl, Hr.
      destruct (Z.eqb_spec l r); [contradiction | now left]. }
  eexists. exists (filter (keeps cl' cr') path).
  split; [reflexivity|]. cbn [pe_paths pe_cut_l pe_cut_r pe_children].
  split; [reflexivity|]. split; [|split].
  - intros c Hc. destruct (Hall c Hc) as (l & r & Hl & Hr & Hle).
    exists l, r. repeat split; try assumption.
    + intros Hin. apply filter_In in Hin. apply (Hkeep c l r Hl Hr), Hin.
    + intros Hne. apply filter_In. split; [assumption|].
      apply (Hkeep c l r Hl Hr), Hne.
    + intros Hin. apply Hchild in Hin. apply Hin.
    + intros Hne. apply Hchild. repeat split; assumption.
  - intros c l r Hin. apply Hchild in Hin. destruct Hin as (Hc & Hl & Hr & Hne).
    apply filter_In. split; [assumption|]. apply (Hkeep c l r Hl Hr), Hne.
  - intros a b Hadj.
    pose proof (tiled_linked cons ln cl' cr' rest first _ Hfirst Htiled) as Hlink.
    fold path in Hlink.
    assert (Hw : exists w, cut_get cr' a = Some w /\ cut_get cl' b = Some w).
    { destruct Hadj as [Hadj|Hadj].
      - now apply (linked_adjacent cl' cr' path (Some (start_of cons first))).
      - apply (linked_adjacent cl' cr' (filter (keeps cl' cr') path)
                 (Some (start_of cons first))); [|assumption].
        now apply linked_filter. }
    assert (Ha : In a path).
    { destruct Hadj as [(l1 & l2 & Hp)|(l1 & l2 & Hp)].
      - rewrite Hp. apply in_or_app. right. now left.
      - assert (In a (filter (keeps cl' cr') path))
          by (rewrite Hp; apply in_or_app; right; now left).
        apply filter_In in H. apply H. }
    destruct Hw as (w & Hr & Hl).
    destruct (Hall a Ha) as (_ & r & _ & Hr' & _).
    exists r. rewrite Hr in Hr'. injection Hr' as ->. auto.
Qed.

End CutPoints.

Lemma single_path_cuts_tile_witness :
  exists res,
    add_path_edges 50 Py.sorted_set 100 [[1; 2; 3]] chain_graph [1] [3] [] chain_cons
    = Some res /\
    (forall c, In c [1; 2; 3] ->
       exists l r, cut_get (pe_cut_l res) c = Some (Some l)
                   /\ cut_get (pe_cut_r res) c = Some (Some r) /\ l <= r) /\
    (forall a b, adjacent a b [1; 2; 3] ->
       exists m, cut_get (pe_cut_r res) a = Some (Some m)
                 /\ cut_get (pe_cut_l res) b = Some (Some m)).
Proof.
  destruct (single_path_cuts_tile 50 Py.sorted_set 100 1 [2; 3] chain_graph
              [1] [3] [] [1] [3] chain_cons)
    as (res & survivors & Hres & _ & Hcuts & _ & Hadj).
  - repeat constructor; simpl; intuition discriminate.
  - apply Permutation_refl.
  - reflexivity.
  - intros c [<-|[<-|[<-|[]]]]; discriminate.
  - intros c [<-|[<-|[<-|[]]]]; reflexivity.
  - reflexivity.
  - reflexivity.
  - discriminate.
  - repeat split.
  - cbv. intuition discriminate.
  - exists res. split; [exact Hres|]. split.
    + intros c Hc. destruct (Hcuts c Hc) as (l & r & Hl & Hr & Hle & _).
      now exists l, r.
    + intros a b H. apply Hadj. now left.
Defined.

(** The third end-to-end scenario: clusters over [0,40), [35,70) and
    [65,100) on an edge of length 100 are cut at 37 and at 67. *)
Lemma chain_scenario_cuts :
  exists res,
    add_path_edges 50 Py.sorted_set 100 [[1; 2; 3]] chain_graph [1] [3] [] chain_cons
    = Some res /\
    pe_cut_l res = [(1, Some 0); (2, Some 37); (3, Some 67)] /\
    pe_cut_r res = [(1, Some 37); (2, Some 67); (3, Some 99)] /\
    pe_children res = [(1, 0, 37); (2, 37, 67); (3, 67, 99)] /\
    pe_paths res = [[1; 2; 3]].
Proof.
  eexists. split; [vm_compute; reflexivity|]. repeat split.
Qed.

(** *** The traversal ends within its fuel *)

Lemma getitem_In l i x : Py.getitem l i = Some x -> In x l.
Proof.
  unfold Py.getitem.
  destruct ((0 <=? i) && (i <? Z.of_nat (length l))).
  - apply nth_error_In.
  - destruct ((i <? 0) && (0 <=? i + Z.of_nat (length l))); [|discriminate].
    apply nth_error_In.
Qed.

Lemma next_on_In path n s : next_on path n = Some s -> In s path.
Proof.
  unfold next_on, bind. destruct (Py.index n path); [|discriminate].
  apply getitem_In.
Qed.

Section Traversal.

Variable n : Z.

Lemma pushes_of_fold (step : Walk -> list Z -> Walk) :
  (forall w path,
     step w path = w \/
     exists x, wQ (step w path) = x :: wQ w /\ wVisited (step w path) = wVisited w
               /\ In x path /\ Py.mem x (wVisited w) = false) ->
  forall paths w, pushes_of paths w (fold_left step paths w).
Proof.
  intros Hstep. induction paths as [|path rest IH]; intros w; cbn [fold_left].
  - exists []. repeat split; auto.
  - destruct (IH (step w path)) as (pushed & HQ & HV & Hlen & Hall).
    destruct (Hstep w path) as [E|(x & HQx & HVx & Hx & Hfresh)].
    + rewrite E in *. exists pushed. repeat split; auto.
      * simpl. lia.
      * eapply Forall_impl; [|exact Hall]. intros y [Hy Hm]. split; [|assumption].
        cbn [concat]. apply in_or_app. now right.
    + exists (pushed ++ [x]). repeat split.
      * rewrite HQ, HQx, <- app_assoc. reflexivity.
      * congruence.
      * rewrite length_app. simpl. lia.
      * apply Forall_app. split.
        -- eapply Forall_impl; [|exact Hall]. intros y [Hy Hm]. split.
           ++ cbn [concat]. apply in_or_app. now right.
           ++ now rewrite <- HVx.
        -- constructor; [|constructor]. split; [|assumption].
           cbn [concat]. apply in_or_app. now left.
Qed.

Lemma step_back_pushes paths w : pushes_of paths w (fold_left (step_back n) paths w).
Proof.
  apply pushes_of_fold. intros w0 path. unfold step_back.
  destruct (Py.index n path) as [i|]; [|now left].
  destruct (i >? 0); [|now left].
  destruct (Py.getitem path (i - 1)) as [p|] eqn:E; [|now left].
  destruct (Py.mem p (wVisited w0)) eqn:Em; [now left|].
  right. exists p. cbn. repeat split; auto. now apply getitem_In in E.
Qed.

Lemma step_forward_pushes paths w :
  pushes_of paths w (fold_left (step_forward n) paths w).
Proof.
  apply pushes_of_fold. intros w0 path. unfold step_forward.
  destruct (next_on path n) as [s|] eqn:E; [|now left].
  destruct (Py.mem s (wVisited w0)) eqn:Em; [now left|].
  right. exists s. cbn. repeat split; auto. now apply next_on_In in E.
Qed.

End Traversal.

Section Fuel.

Variable paths : list (list Z).

Lemma mem_app_single x V y :
  Py.mem x (V ++ [y]) = Py.mem x V || (x =? y).
Proof.
  unfold Py.mem. rewrite existsb_app. simpl. now rewrite orb_false_r.
Qed.

Lemma unvisited_mono V y : unvisited paths (V ++ [y]) <= unvisited paths V.
Proof.
  unfold unvisited. apply inj_le.
  induction (nodup Z.eq_dec (concat paths)) as [|x r IH]; simpl; [lia|].
  rewrite mem_app_single.
  destruct (Py.mem x V); simpl; [exact IH|].
  destruct (x =? y); simpl; lia.
Qed.

Lemma unvisited_drop V y :
  In y (concat paths) -> Py.mem y V = false ->
  unvisited paths (V ++ [y]) + 1 <= unvisited paths V.
Proof.
  intros Hin Hfresh. unfold unvisited.
  assert (Hin' : In y (nodup Z.eq_dec (concat paths))) by (now apply nodup_In).
  enough (length (filter (fun x => negb (Py.mem x (V ++ [y])))
                    (nodup Z.eq_dec (concat paths))) + 1
          <= length (filter (fun x => negb (Py.mem x V))
                       (nodup Z.eq_dec (concat paths))))%nat by lia.
  induction (nodup Z.eq_dec (concat paths)) as [|x r IH]; [contradiction|].
  cbn [filter]. rewrite mem_app_single.
  destruct Hin' as [->|Hin'].
  - rewrite Hfresh, Z.eqb_refl. cbn [orb negb length].
    pose proof (unvisited_mono V y) as Hm. unfold unvisited in Hm.
    assert (length (filter (fun x => negb (Py.mem x (V ++ [y]))) r)
            <= length (filter (fun x => negb (Py.mem x V)) r))%nat.
    { clear. induction r as [|x r IH]; simpl; [lia|].
      rewrite mem_app_single.
      destruct (Py.mem x V); simpl; [exact IH|].
      destruct (x =? y); simpl; lia. }
    lia.
  - specialize (IH Hin').
    destruct (Py.mem x V); cbn [orb negb length]; [exact IH|].
    destruct (x =? y); cbn [negb length]; lia.
Qed.

Lemma unvisited_nonneg V : 0 <= unvisited paths V.
Proof. unfold unvisited. lia. Qed.

Lemma unvisited_pos V x :
  In x (concat paths) -> Py.mem x V = false -> 1 <= unvisited paths V.
Proof.
  intros Hin Hfresh.
  pose proof (unvisited_drop V x Hin Hfresh).
  pose proof (unvisited_nonneg (V ++ [x])). lia.
Qed.

(** One round of [while Q] lowers the measure. *)
Lemma round_lowers_measure n q L R V w' :
  In n (concat paths) ->
  pushes_of paths (mkWalk q L R (V ++ [n])) w' ->
  rounds_left paths w' + 1 <= rounds_left paths (mkWalk (n :: q) L R V).
Proof.
  intros Hn (pushed & HQ & HV & Hlen & Hall).
  unfold rounds_left, top_fresh. rewrite HQ, HV. cbn [wQ wVisited].
  set (P := Z.of_nat (length paths)).
  assert (HP : 0 <= P) by (unfold P; lia).
  pose proof (unvisited_mono V n) as Hmono.
  pose proof (unvisited_nonneg (V ++ [n])) as Hnn.
  assert (Hdrop : Py.mem n V = false ->
                  unvisited paths (V ++ [n]) + 1 <= unvisited paths V)
    by (now apply unvisited_drop).
  destruct pushed as [|x pushed'].
  - cbn [app length].
    assert (Htop : 0 <= (if match q with
                            | [] => false
                            | m :: _ => negb (Py.mem m (V ++ [n]))
                            end then P else 0))
      by (destruct q as [|m q']; [lia | destruct (negb _); lia]).
    destruct (Py.mem n V); cbn [negb].
    + nia.
    + specialize (Hdrop eq_refl). nia.
  - inversion Hall as [|? ? [_ Hx] _]; subst. cbn [wVisited] in Hx.
    cbn [app]. rewrite Hx. cbn [negb].
    assert (Hk : Z.of_nat (length ((x :: pushed') ++ q))
                 <= P + Z.of_nat (length q)).
    { rewrite length_app. unfold P. lia. }
    cbn [app] in Hk.
    destruct (Py.mem n V); cbn [negb length] in *.
    + nia.
    + specialize (Hdrop eq_refl). nia.
Qed.

Lemma walk_within_measure : forall fuel w,
  Forall (fun x => In x (concat paths)) (wQ w) ->
  rounds_left paths w < Z.of_nat fuel ->
  exists w', walk fuel paths w = Some w'.
Proof.
  induction fuel as [|fuel IH]; intros [Q L R V] Hinv Hfuel.
  - destruct Q as [|n q]; [now eexists|]. exfalso.
    inversion Hinv as [|? ? Hn _]; subst.
    unfold rounds_left, top_fresh in Hfuel. cbn [wQ wVisited length] in Hfuel.
    destruct (Py.mem n V) eqn:E; cbn [negb] in Hfuel.
    + pose proof (unvisited_nonneg V). nia.
    + pose proof (unvisited_pos V n Hn E). nia.
  - destruct Q as [|n q]; [now eexists|].
    inversion Hinv as [|? ? Hn Hq]; subst.
    rewrite walk_step.
    assert (Hp : pushes_of paths (mkWalk q L R (V ++ [n]))
                   (if Py.mem n L
                    then fold_left (step_back n) paths (mkWalk q L R (V ++ [n]))
                    else fold_left (step_forward n) paths (mkWalk q L R (V ++ [n])))).
    { destruct (Py.mem n L); [apply step_back_pushes | apply step_forward_pushes]. }
    apply IH.
    + destruct Hp as (pushed & HQ & _ & _ & Hall). rewrite HQ.
      apply Forall_app. split; [|exact Hq].
      eapply Forall_impl; [|exact Hall]. intros y Hy. apply Hy.
    + pose proof (round_lowers_measure n q L R V _ Hn Hp). lia.
Qed.

(** The stack that [resolve_member] starts from. *)
Lemma seed_pushes member :
  pushes_of paths (mkWalk [] [] [] [])
    (fold_left (seed member) paths (mkWalk [] [] [] [])).
Proof.
  assert (H : forall ps w, wVisited w = [] ->
            exists pushed,
              wQ (fold_left (seed member) ps w) = pushed ++ wQ w /\
              wVisited (fold_left (seed member) ps w) = [] /\
              (length pushed <= length ps)%nat /\
              Forall (fun x => In x (concat ps)) pushed).
  { induction ps as [|path rest IH]; intros w Hw; cbn [fold_left].
    - exists []. repeat split; auto.
    - assert (Hs : wVisited (seed member w path) = [])
        by (unfold seed; destruct (next_on path member); assumption).
      destruct (IH (seed member w path) Hs) as (pushed & HQ & HV & Hlen & Hall).
      rewrite HQ, HV. unfold seed.
      destruct (next_on path member) as [s|] eqn:E.
      + exists (pushed ++ [s]). repeat split.
        * cbn [wQ]. now rewrite <- app_assoc.
        * rewrite length_app. simpl. lia.
        * apply Forall_app. split.
          -- eapply Forall_impl; [|exact Hall]. intros y Hy.
             cbn [concat]. apply in_or_app. now right.
          -- constructor; [|constructor]. cbn [concat]. apply in_or_app. left.
             now apply next_on_In in E.
      + exists pushed. repeat split; auto.
        * simpl. lia.
        * eapply Forall_impl; [|exact Hall]. intros y Hy.
          cbn [concat]. apply in_or_app. now right. }
  destruct (H paths (mkWalk [] [] [] []) eq_refl) as (pushed & HQ & HV & Hlen & Hall).
  exists pushed. repeat split; auto.
  eapply Forall_impl; [|exact Hall]. intros y Hy. split; [assumption | reflexivity].
Qed.

(** X26. The [while Q] loop of [add_path_edges] always ends: for every
    cluster [member] and all paths, the traversal that [resolve_member]
    starts empties its stack within
    [len(paths) * (number of path entries + 1) + 1] rounds, the fuel of
    the model. *)
Theorem walk_fuel_suffices member :
  exists w,
    walk (walk_fuel paths) paths (fold_left (seed member) paths (mkWalk [] [] [] []))
    = Some w.
Proof.
  destruct (seed_pushes member) as (pushed & HQ & HV & Hlen & Hall).
  apply walk_within_measure.
  - rewrite HQ, app_nil_r.
    eapply Forall_impl; [|exact Hall]. intros y Hy. apply Hy.
  - unfold rounds_left, walk_fuel. rewrite HQ, HV, app_nil_r.
    assert (Hu : unvisited paths [] <= Z.of_nat (length (concat paths))).
    { unfold unvisited. apply inj_le.
      etransitivity; [apply filter_length_le|].
      apply NoDup_incl_length; [apply NoDup_nodup|].
      intros x Hx. now apply nodup_In in Hx. }
    pose proof (unvisited_nonneg []) as Hnn.
    assert (0 <= (if top_fresh (fold_left (seed member) paths (mkWalk [] [] [] []))
                  then Z.of_nat (length paths) else 0))
      by (destruct (top_fresh _); lia).
    rewrite Nat2Z.inj_succ, Nat2Z.inj_mul, Nat2Z.inj_succ.
    assert (Hk : Z.of_nat (length pushed) <= Z.of_nat (length paths)) by lia.
    cbn [wQ wVisited] in *.
    assert (HP : 0 <= Z.of_nat (length paths)) by lia.
    assert (HM : 0 <= Z.of_nat (length (concat paths))) by lia.
    set (P := Z.of_nat (length paths)) in *.
    set (M := Z.of_nat (length (concat paths))) in *.
    set (U := unvisited paths []) in *.
    set (k := Z.of_nat (length pushed)) in *.
    clearbody P M U k. destruct (top_fresh _); nia.
Qed.

End Fuel.

(** *** The last loop on any edge *)

Lemma drop_from_path_incl c p x : In x (drop_from_path c p) -> In x p.
Proof.
  unfold drop_from_path. destruct (Py.list_remove c p) eqn:E; [|auto].
  now apply (list_remove_In c p).
Qed.

Lemma drop_from_path_NoDup c p : NoDup p -> NoDup (drop_from_path c p).
Proof.
  intros H. rewrite drop_from_path_filter by assumption. now apply NoDup_filter.
Qed.

Lemma drop_from_path_gone c p : NoDup p -> ~ In c (drop_from_path c p).
Proof.
  intros H. rewrite drop_from_path_filter by assumption.
  intros Hin. apply filter_In in Hin. destruct Hin as [_ Hc].
  now rewrite Z.eqb_refl in Hc.
Qed.

(** Whatever the paths are, as long as each is simple: a cluster is
    handed to [add_child_edge] only with two different cuts, and a
    cluster whose cuts are equal is on none of the paths afterwards. *)
Lemma equal_cuts_dropped (cut_l cut_r : Cuts) : forall todo paths G children paths' G' children',
  Forall (@NoDup Z) paths ->
  emit_children cut_l cut_r todo paths G children = Some (paths', G', children') ->
  Forall (@NoDup Z) paths' /\
  (forall c p, In p paths' -> In c p -> exists p0, In p0 paths /\ In c p0) /\
  (forall c l r, In (c, l, r) children' ->
     In (c, l, r) children \/
     (In c todo /\ cut_get cut_l c = Some (Some l)
      /\ cut_get cut_r c = Some (Some r) /\ l <> r)) /\
  (forall c v, In c todo -> cut_get cut_l c = Some v -> cut_get cut_r c = Some v ->
     forall p, In p paths' -> ~ In c p).
Proof.
  induction todo as [|c0 rest IH]; intros paths G children paths' G' children' Hnd H.
  - cbn in H. injection H as <- <- <-. repeat split; auto.
    intros c p Hp Hc. now exists p.
  - cbn [emit_children] in H. unfold bind at 1 2 in H.
    destruct (cut_get cut_l c0) as [l0|] eqn:El; [|discriminate].
    destruct (cut_get cut_r c0) as [r0|] eqn:Er; [|discriminate].
    destruct (option_Z_eqb l0 r0) eqn:Eq; cbn [negb] in H.
    + unfold bind at 1 in H.
      destruct (remove_node G c0) as [G1|]; [|discriminate].
      assert (Hnd1 : Forall (@NoDup Z) (map (drop_from_path c0) paths)).
      { apply Forall_map. eapply Forall_impl; [|exact Hnd].
        intros p. apply drop_from_path_NoDup. }
      destruct (IH _ _ _ _ _ _ Hnd1 H) as (Hnd' & Hsub & Hch & Hgone).
      split; [assumption|]. split; [|split].
      * intros c p Hp Hc. destruct (Hsub c p Hp Hc) as (p0 & Hp0 & Hc0).
        apply in_map_iff in Hp0. destruct Hp0 as (q & <- & Hq).
        exists q. split; [assumption|]. now apply (drop_from_path_incl c0).
      * intros c l r Hin. destruct (Hch c l r Hin) as [Hold|(Hc & Hrest)];
          [now left | right; split; [now right | assumption]].
      * intros c v [<-|Hc] Hl Hr p Hp Hin.
        -- destruct (Hsub c0 p Hp Hin) as (p0 & Hp0 & Hc0).
           apply in_map_iff in Hp0. destruct Hp0 as (q & <- & Hq).
           rewrite Forall_forall in Hnd.
           now apply (drop_from_path_gone c0 q (Hnd q Hq)).
        -- now apply (Hgone c v Hc Hl Hr p Hp).
    + destruct l0 as [l0|]; [|discriminate]. destruct r0 as [r0|]; [|discriminate].
      unfold bind at 1 2 in H.
      destruct (IH _ _ _ _ _ _ Hnd H) as (Hnd' & Hsub & Hch & Hgone).
      split; [assumption|]. split; [assumption|]. split.
      * intros c l r Hin. destruct (Hch c l r Hin) as [Hold|(Hc & Hrest)].
        -- apply in_app_or in Hold. destruct Hold as [Hold|[E|[]]]; [now left|].
           injection E as <- <- <-. right. split; [now left|].
           repeat split; try assumption.
           cbn in Eq. apply Z.eqb_neq. exact Eq.
        -- right. split; [now right | assumption].
      * intros c v [<-|Hc] Hl Hr p Hp.
        -- exfalso. rewrite El in Hl. rewrite Er in Hr.
           injection Hl as <-. injection Hr as E. rewrite E in Eq.
           cbn in Eq. rewrite Z.eqb_refl in Eq. discriminate.
        -- now apply (Hgone c v Hc Hl Hr p Hp).
Qed.

(** X27. On every edge with simple paths, whatever cuts the resolution
    has produced: [add_path_edges] hands a cluster to [add_child_edge]
    only when its two cuts differ, and takes the clusters with equal
    cuts off every path. *)
Theorem equal_cuts_never_materialized (start_end_gap : Z)
    (set_order : list Z -> list Z) (ln : Z) (paths : list (list Z)) (G : DiGraph)
    (paths_roots paths_leafs full_clusters : list Z)
    (cons : Z -> option ClusterInfo) (res : PathEdges) :
  Forall (@NoDup Z) paths ->
  add_path_edges start_end_gap set_order ln paths G paths_roots paths_leafs
    full_clusters cons = Some res ->
  (forall c l r, In (c, l, r) (pe_children res) ->
     cut_get (pe_cut_l res) c = Some (Some l)
     /\ cut_get (pe_cut_r res) c = Some (Some r) /\ l <> r) /\
  (forall c v, In c (set_order (concat paths)) ->
     cut_get (pe_cut_l res) c = Some v -> cut_get (pe_cut_r res) c = Some v ->
     forall p, In p (pe_paths res) -> ~ In c p).
Proof.
  intros Hnd H. unfold add_path_edges in H.
  destruct (fold_left drop_full full_clusters (paths_roots, paths_leafs))
    as [roots leafs].
  unfold bind in H.
  destruct (seed_cuts _ _ _ _ _ _ _ _) as [[cl_u cr_u]|]; [|discriminate].
  destruct (stop_positions _ _) as [stop_pos|]; [|discriminate].
  destruct (reorder_cuts cl_u _) as [cl0|]; [|discriminate].
  destruct (reorder_cuts cr_u _) as [cr0|]; [|discriminate].
  destruct (resolve_loop _ _ _ _ _) as [[cut_l1 cut_r]|]; [|discriminate].
  destruct (emit_children _ _ _ _ _ _) as [[[paths' G'] children]|] eqn:E;
    [|discriminate].
  injection H as <-. cbn [pe_children pe_cut_l pe_cut_r pe_paths].
  destruct (equal_cuts_dropped _ _ _ _ _ _ _ _ _ Hnd E) as (_ & _ & Hch & Hgone).
  split.
  - intros c l r Hin. destruct (Hch c l r Hin) as [[]|(_ & Hrest)]. exact Hrest.
  - exact Hgone.
Qed.

(** *** Full clusters leave the anchor lists in [add_path_edges] *)

Lemma drop_full_shrinks node roots leafs x :
  (In x (fst (drop_full (roots, leafs) node)) -> In x roots) /\
  (In x (snd (drop_full (roots, leafs) node)) -> In x leafs).
Proof.
  unfold drop_full.
  destruct (Py.list_remove node roots) as [roots'|] eqn:Er; [|auto].
  destruct (Py.list_remove node leafs) as [leafs'|] eqn:El; cbn [fst snd].
  - split; [apply (list_remove_In node roots) | apply (list_remove_In node leafs)];
      assumption.
  - split; [apply (list_remove_In node roots); assumption | auto].
Qed.

Lemma fold_drop_full_shrinks full : forall roots leafs x,
  (In x (fst (fold_left drop_full full (roots, leafs))) -> In x roots) /\
  (In x (snd (fold_left drop_full full (roots, leafs))) -> In x leafs).
Proof.
  induction full as [|f rest IH]; intros roots leafs x; cbn [fold_left]; [auto|].
  destruct (drop_full (roots, leafs) f) as [roots1 leafs1] eqn:E.
  pose proof (drop_full_shrinks f roots leafs x) as [H1 H2]. rewrite E in H1, H2.
  destruct (IH roots1 leafs1 x) as [H3 H4]. auto.
Qed.

(** X28. The first loop of [add_path_edges] takes every full cluster
    that is on both lists off both of them. *)
Theorem drop_full_clears full : forall roots leafs,
  NoDup roots -> NoDup leafs ->
  (forall f, In f full -> In f roots /\ In f leafs) ->
  forall f, In f full ->
    ~ In f (fst (fold_left drop_full full (roots, leafs))) /\
    ~ In f (snd (fold_left drop_full full (roots, leafs))).
Proof.
  intros roots leafs Hr Hl Hboth.
  assert (Hgen : forall full roots leafs,
            NoDup roots -> NoDup leafs ->
            (forall f, In f full -> (In f roots <-> In f leafs)) ->
            forall f, In f full ->
              ~ In f (fst (fold_left drop_full full (roots, leafs))) /\
              ~ In f (snd (fold_left drop_full full (roots, leafs)))).
  { clear. induction full as [|f0 rest IH]; intros roots leafs Hr Hl Hiff f Hf;
      [contradiction|].
    cbn [fold_left].
    destruct (drop_full (roots, leafs) f0) as [roots1 leafs1] eqn:E.
    assert (H1 : NoDup roots1 /\ NoDup leafs1 /\ ~ In f0 roots1 /\ ~ In f0 leafs1
                 /\ (forall x, x <> f0 -> (In x roots1 <-> In x roots)
                                          /\ (In x leafs1 <-> In x leafs))).
    { unfold drop_full in E.
      destruct (in_dec Z.eq_dec f0 roots) as [Hin|Hout].
      - assert (Hinl : In f0 leafs) by (apply (Hiff f0); [now left | assumption]).
        rewrite (list_remove_filter f0 roots Hr Hin) in E.
        rewrite (list_remove_filter f0 leafs Hl Hinl) in E.
        injection E as <- <-.
        split; [now apply NoDup_filter|]. split; [now apply NoDup_filter|].
        split; [intros H; apply filter_In in H; destruct H as [_ H];
                now rewrite Z.eqb_refl in H|].
        split; [intros H; apply filter_In in H; destruct H as [_ H];
                now rewrite Z.eqb_refl in H|].
        intros x Hx. rewrite !filter_In.
        destruct (Z.eqb_spec x f0); [contradiction|]. cbn [negb]. tauto.
      - rewrite (proj2 (list_remove_None f0 roots) Hout) in E. injection E as <- <-.
        assert (Houtl : ~ In f0 leafs)
          by (intros H; apply Hout; apply (Hiff f0); [now left | assumption]).
        repeat split; auto. }
    destruct H1 as (Hr1 & Hl1 & Hf0r & Hf0l & Hsame).
    destruct (Z.eq_dec f f0) as [->|Hne].
    - pose proof (fold_drop_full_shrinks rest roots1 leafs1 f0) as [H3 H4]. auto.
    - destruct Hf as [<-|Hf]; [contradiction|].
      apply IH; try assumption.
      intros x Hx. destruct (Z.eq_dec x f0) as [->|Hxne]; [tauto|].
      destruct (Hsame x Hxne) as [Ha Hb]. rewrite Ha, Hb.
      apply Hiff. now right. }
  apply Hgen; try assumption.
  intros f Hf. destruct (Hboth f Hf). tauto.
Qed.

(** ** Further properties of the graph pruning *)

Lemma shrinks_refl G : shrinks G G.
Proof. split; apply incl_refl. Qed.

Lemma shrinks_trans G1 G2 G3 : shrinks G1 G2 -> shrinks G2 G3 -> shrinks G1 G3.
Proof. intros [H1 H2] [H3 H4]. split; eapply incl_tran; eauto. Qed.

Lemma remove_node_shrinks G x G' : remove_node G x = Some G' -> shrinks G' G.
Proof.
  intros H. apply remove_node_Some in H. destruct H as (_ & Hn & He).
  split; intros y Hy; [rewrite Hn in Hy | rewrite He in Hy];
    apply filter_In in Hy; tauto.
Qed.

Lemma remove_node_wf G x G' : remove_node G x = Some G' -> wf_graph G -> wf_graph G'.
Proof.
  intros H Hwf e He. apply remove_node_Some in H. destruct H as (_ & Hn & Hed).
  rewrite Hed in He. apply filter_In in He. destruct He as [He Ht].
  destruct (Hwf e He) as [Ha Hb]. rewrite Hn, !filter_In.
  unfold touches in Ht. apply negb_true_iff, orb_false_iff in Ht.
  destruct Ht as [Ht1 Ht2]. rewrite Ht1, Ht2. auto.
Qed.

Lemma remove_node_gone G x G' : remove_node G x = Some G' -> ~ In x (nodes G').
Proof.
  intros H Hin. apply remove_node_Some in H. destruct H as (_ & Hn & _).
  rewrite Hn in Hin. apply filter_In in Hin. destruct Hin as [_ Hx].
  now rewrite Z.eqb_refl in Hx.
Qed.

Lemma remove_node_others G x G' y :
  remove_node G x = Some G' -> y <> x -> In y (nodes G) -> In y (nodes G').
Proof.
  intros H Hne Hy. apply remove_node_Some in H. destruct H as (_ & Hn & _).
  rewrite Hn. apply filter_In. split; [assumption|].
  destruct (Z.eqb_spec y x); [contradiction | reflexivity].
Qed.

Section Pruning.

Variable cons : Z -> option ClusterInfo.

Lemma prune_neighbors_shrinks u ns : forall G,
  shrinks (prune_neighbors cons u ns G) G.
Proof.
  induction ns as [|v r IH]; intros G; cbn [prune_neighbors]; [apply shrinks_refl|].
  destruct (cons u); [|apply shrinks_refl].
  destruct (cons v); [|apply shrinks_refl].
  destruct (strictly_contains _ _); [|apply IH].
  destruct (remove_node G v) as [G'|] eqn:E; [|apply IH].
  eapply shrinks_trans; [apply IH | now apply (remove_node_shrinks G v)].
Qed.

Lemma prune_neighbors_wf u ns : forall G,
  wf_graph G -> wf_graph (prune_neighbors cons u ns G).
Proof.
  induction ns as [|v r IH]; intros G Hwf; cbn [prune_neighbors]; [assumption|].
  destruct (cons u); [|assumption].
  destruct (cons v); [|assumption].
  destruct (strictly_contains _ _); [|now apply IH].
  destruct (remove_node G v) as [G'|] eqn:E; [|now apply IH].
  apply IH. now apply (remove_node_wf G v).
Qed.

(** A node that the loop over the neighbours of [u] removes is one of
    these neighbours, and [u] strictly contains it. *)
Lemma prune_neighbors_removed u cu ns x :
  cons u = Some cu ->
  forall G,
    In x (nodes G) -> ~ In x (nodes (prune_neighbors cons u ns G)) ->
    In x ns /\ exists cx, cons x = Some cx /\ strictly_contains cu cx = true.
Proof.
  intros Eu. induction ns as [|v r IH]; intros G Hx Hgone;
    cbn [prune_neighbors] in Hgone; [contradiction|].
  rewrite Eu in Hgone.
  destruct (cons v) as [cv|] eqn:Ev; [|contradiction].
  assert (Hrest : forall G1, In x (nodes G1) ->
            ~ In x (nodes (prune_neighbors cons u r G1)) ->
            In x (v :: r) /\ exists cx,
              cons x = Some cx /\ strictly_contains cu cx = true).
  { intros G1 H1 H2. destruct (IH G1 H1 H2) as [Hin Hex]. split; [now right|].
    exact Hex. }
  destruct (strictly_contains cu cv) eqn:Ec; [|now apply (Hrest G)].
  destruct (remove_node G v) as [G'|] eqn:E; [|now apply (Hrest G)].
  destruct (Z.eq_dec x v) as [->|Hne].
  - split; [now left|]. exists cv. auto.
  - apply (Hrest G'); [|assumption]. now apply (remove_node_others G v).
Qed.

Lemma prune_neighbors_no_info u ns G :
  cons u = None -> prune_neighbors cons u ns G = G.
Proof. intros E. destruct ns; cbn [prune_neighbors]; [reflexivity|]. now rewrite E. Qed.

Lemma prune_node_shrinks G u : shrinks (prune_node cons G u) G.
Proof.
  unfold prune_node. destruct (all_neighbors G u); [|apply shrinks_refl].
  apply prune_neighbors_shrinks.
Qed.

Lemma prune_node_wf G u : wf_graph G -> wf_graph (prune_node cons G u).
Proof.
  unfold prune_node. destruct (all_neighbors G u); [|auto].
  apply prune_neighbors_wf.
Qed.

Lemma in_predecessors G u x : In x (predecessors G u) <-> In (x, u) (edges G).
Proof.
  unfold predecessors. rewrite in_map_iff. split.
  - intros [[a b] [<- H]]. apply filter_In in H. destruct H as [H E].
    cbn in E. apply Z.eqb_eq in E. now subst.
  - intros H. exists (x, u). split; [reflexivity|]. apply filter_In.
    split; [assumption | apply Z.eqb_refl].
Qed.

Lemma in_successors G u x : In x (successors G u) <-> In (u, x) (edges G).
Proof.
  unfold successors. rewrite in_map_iff. split.
  - intros [[a b] [<- H]]. apply filter_In in H. destruct H as [H E].
    cbn in E. apply Z.eqb_eq in E. now subst.
  - intros H. exists (u, x). split; [reflexivity|]. apply filter_In.
    split; [assumption | apply Z.eqb_refl].
Qed.

Lemma prune_node_removed G u x :
  In x (nodes G) -> ~ In x (nodes (prune_node cons G u)) ->
  (In (u, x) (edges G) \/ In (x, u) (edges G)) /\
  exists cu cx, cons u = Some cu /\ cons x = Some cx /\ strictly_contains cu cx = true.
Proof.
  unfold prune_node, all_neighbors.
  destruct (has_node G u); [|contradiction].
  intros Hx Hgone.
  destruct (cons u) as [cu|] eqn:Eu;
    [|rewrite prune_neighbors_no_info in Hgone by assumption; contradiction].
  destruct (prune_neighbors_removed u cu _ x Eu G Hx Hgone) as [Hin [cx Hex]].
  split; [|now exists cu, cx].
  apply in_app_or in Hin. destruct Hin as [Hin|Hin].
  - right. now apply in_predecessors.
  - left. now apply in_successors.
Qed.

Lemma fold_prune_shrinks l : forall G, shrinks (fold_left (prune_node cons) l G) G.
Proof.
  induction l as [|v r IH]; intros G; cbn [fold_left]; [apply shrinks_refl|].
  eapply shrinks_trans; [apply IH | apply prune_node_shrinks].
Qed.

Lemma fold_prune_wf l : forall G,
  wf_graph G -> wf_graph (fold_left (prune_node cons) l G).
Proof.
  induction l as [|v r IH]; intros G Hwf; cbn [fold_left]; [assumption|].
  apply IH. now apply prune_node_wf.
Qed.

Lemma fold_prune_removed l x : forall G,
  In x (nodes G) -> ~ In x (nodes (fold_left (prune_node cons) l G)) ->
  exists u cu cx,
    (In (u, x) (edges G) \/ In (x, u) (edges G)) /\
    cons u = Some cu /\ cons x = Some cx /\ strictly_contains cu cx = true.
Proof.
  induction l as [|v r IH]; intros G Hx Hgone; cbn [fold_left] in Hgone;
    [contradiction|].
  destruct (in_dec Z.eq_dec x (nodes (prune_node cons G v))) as [Hin|Hout].
  - destruct (IH _ Hin Hgone) as (u & cu & cx & He & Hrest).
    exists u, cu, cx. split; [|exact Hrest].
    destruct (prune_node_shrinks G v) as [_ Hed].
    destruct He as [He|He]; [left | right]; now apply Hed.
  - destruct (prune_node_removed G v x Hx Hout) as [He (cu & cx & Hrest)].
    exists v, cu, cx. split; assumption.
Qed.

Lemma remove_nested_shrinks G : shrinks (remove_nested G cons) G.
Proof. apply fold_prune_shrinks. Qed.

Lemma quiet_total G u cu ns :
  quiet cons G u ns -> cons u = Some cu ->
  (forall w, In w ns -> cons w <> None) ->
  forall w cw, In w ns -> cons w = Some cw ->
    strictly_contains cu cw = true -> has_node G w = false.
Proof.
  intros Hq Eu. induction ns as [|v r IH]; intros Htot w cw Hw Ew Hc; [contradiction|].
  cbn [quiet] in Hq. rewrite Eu in Hq.
  destruct (cons v) as [cv|] eqn:Ev; [|exfalso; apply (Htot v); [now left | assumption]].
  destruct Hq as [Hv Hr]. destruct Hw as [->|Hw].
  - rewrite Ew in Ev. injection Ev as <-. now apply Hv.
  - apply (IH Hr) with (cw := cw); auto. intros z Hz. apply Htot. now right.
Qed.

(** X1. After [remove_nested], on a graph whose clusters all have an
    interval in [cons], no edge is left between a cluster and a cluster
    whose interval it strictly contains. *)
Theorem remove_nested_separates (G : DiGraph) :
  wf_graph G ->
  (forall n, In n (nodes G) -> cons n <> None) ->
  forall u v cu cv,
    In (u, v) (edges (remove_nested G cons)) ->
    cons u = Some cu -> cons v = Some cv ->
    strictly_contains cu cv = false /\ strictly_contains cv cu = false.
Proof.
  intros Hwf Htot u v cu cv He Eu Ev.
  set (G' := remove_nested G cons) in *.
  assert (Hwf' : wf_graph G') by (apply fold_prune_wf; assumption).
  assert (Htot' : forall n, In n (nodes G') -> cons n <> None).
  { intros n Hn. apply Htot. now apply (remove_nested_shrinks G). }
  assert (Hsettled : forall w, In w (nodes G') -> settled cons G' w).
  { intros w Hw. apply fold_prune_settled. left.
    now apply (remove_nested_shrinks G). }
  destruct (Hwf' _ He) as [Hu Hv]. cbn [fst snd] in Hu, Hv.
  assert (Hnb : forall w ns, all_neighbors G' w = Some ns ->
                  forall z, In z ns -> cons z <> None).
  { intros w ns E z Hz. unfold all_neighbors in E.
    destruct (has_node G' w); [|discriminate]. injection E as <-.
    apply Htot'. apply in_app_or in Hz. destruct Hz as [Hz|Hz].
    - apply in_predecessors in Hz. apply (Hwf' _ Hz).
    - apply in_successors in Hz. apply (Hwf' _ Hz). }
  assert (Hsep : forall a b ca cb,
            In a (nodes G') -> In b (nodes G') ->
            (In (a, b) (edges G') \/ In (b, a) (edges G')) ->
            cons a = Some ca -> cons b = Some cb -> strictly_contains ca cb = false).
  { intros a b ca cb Ha Hb Hab Ea Eb.
    destruct (strictly_contains ca cb) eqn:Ec; [|reflexivity].
    pose proof (Hsettled a Ha) as Hs. unfold settled in Hs.
    destruct (all_neighbors G' a) as [ns|] eqn:En.
    - assert (Hin : In b ns).
      { unfold all_neighbors in En. destruct (has_node G' a); [|discriminate].
        injection En as <-. apply in_or_app.
        destruct Hab as [Hab|Hab];
          [right; now apply in_successors | left; now apply in_predecessors]. }
      pose proof (quiet_total G' a ca ns Hs Ea (Hnb a ns En) b cb Hin Eb Ec) as Hgone.
      apply mem_In in Hb. unfold has_node in Hgone. congruence.
    - unfold all_neighbors in En. apply mem_In in Ha. unfold has_node in En.
      rewrite Ha in En. discriminate. }
  split.
  - apply (Hsep u v); auto.
  - apply (Hsep v u); auto.
Qed.

(** X2. [remove_nested] removes a cluster only when a cluster linked to
    it in the graph strictly contains its interval. *)
Theorem remove_nested_removes_only_nested (G : DiGraph) (x : Z) :
  In x (nodes G) -> ~ In x (nodes (remove_nested G cons)) ->
  exists u cu cx,
    (In (u, x) (edges G) \/ In (x, u) (edges G)) /\
    cons u = Some cu /\ cons x = Some cx /\ strictly_contains cu cx = true.
Proof. intros Hx Hgone. now apply (fold_prune_removed (nodes G)). Qed.

End Pruning.

Lemma nested_graph_wf : wf_graph nested_graph.
Proof.
  intros e He. cbn in He.
  repeat (destruct He as [<-|He]; [cbn; tauto|]). contradiction.
Qed.

Lemma remove_nested_separates_witness :
  strictly_contains (mkInfo 0 100 2) (mkInfo 60 200 2) = false /\
  strictly_contains (mkInfo 60 200 2) (mkInfo 0 100 2) = false.
Proof.
  apply (remove_nested_separates nested_cons nested_graph nested_graph_wf) with (u := 1) (v := 3).
  - intros n Hn. cbn in Hn.
    repeat (destruct Hn as [<-|Hn]; [discriminate|]). contradiction.
  - vm_compute. tauto.
  - reflexivity.
  - reflexivity.
Defined.

Lemma remove_nested_removes_only_nested_witness :
  exists u cu cx,
    (In (u, 2) (edges nested_graph) \/ In (2, u) (edges nested_graph)) /\
    nested_cons u = Some cu /\ nested_cons 2 = Some cx /\
    strictly_contains cu cx = true.
Proof.
  apply (remove_nested_removes_only_nested nested_cons nested_graph 2).
  - cbn. tauto.
  - vm_compute. intros [H|[H|H]]; try discriminate; contradiction.
Defined.

(** ** What [build_paths_graph] keeps and what it takes away *)

Lemma remove_edge_shrinks G a b G' : remove_edge G a b = Some G' -> shrinks G' G.
Proof.
  unfold remove_edge. destruct (has_edge G a b); [|discriminate].
  intros H. injection H as <-. split; cbn [nodes edges]; [apply incl_refl|].
  intros e He. apply filter_In in He. tauto.
Qed.

Lemma drop_first_hop_shrinks G p : shrinks (drop_first_hop G p) G.
Proof.
  unfold drop_first_hop. destruct p as [|a [|b r]]; try apply shrinks_refl.
  destruct (remove_edge G a b) eqn:E; [|apply shrinks_refl].
  now apply (remove_edge_shrinks G a b).
Qed.

Lemma fold_drop_first_hop_shrinks l : forall G,
  shrinks (fold_left drop_first_hop l G) G.
Proof.
  induction l as [|p r IH]; intros G; cbn [fold_left]; [apply shrinks_refl|].
  eapply shrinks_trans; [apply IH | apply drop_first_hop_shrinks].
Qed.

(** One guarded block of removals: the graph and both lists only lose
    entries; a cluster that leaves a list has left the graph, and one
    that leaves the leaf list was on the root list. *)
Lemma drop_anchor_step G roots leafs node G' roots' leafs' :
  drop_anchor (G, roots, leafs) node = (G', roots', leafs') ->
  shrinks G' G /\ incl roots' roots /\ incl leafs' leafs /\
  (forall x, In x roots -> ~ In x roots' -> ~ In x (nodes G')) /\
  (forall x, In x leafs -> ~ In x leafs' -> In x roots /\ ~ In x (nodes G')).
Proof.
  unfold drop_anchor.
  destruct (remove_node G node) as [G1|] eqn:Eg.
  - pose proof (remove_node_shrinks _ _ _ Eg) as Hs.
    pose proof (remove_node_gone _ _ _ Eg) as Hgone.
    destruct (Py.list_remove node roots) as [roots1|] eqn:Er.
    + assert (Hroot : In node roots).
      { destruct (in_dec Z.eq_dec node roots) as [Hin|Hout]; [assumption|].
        apply list_remove_None in Hout. congruence. }
      assert (Hr : forall x, In x roots -> ~ In x roots1 -> x = node).
      { intros x Hx Hn. destruct (Z.eq_dec x node) as [E|E]; [assumption|].
        exfalso. apply Hn. now apply (list_remove_keeps node roots). }
      destruct (Py.list_remove node leafs) as [leafs1|] eqn:El;
        intros H; injection H as <- <- <-.
      * split; [exact Hs|].
        split; [intros x; now apply (list_remove_In node roots)|].
        split; [intros x; now apply (list_remove_In node leafs)|].
        split.
        -- intros x Hx Hn. rewrite (Hr x Hx Hn). assumption.
        -- intros x Hx Hn. assert (x = node) as ->; [|split; assumption].
           destruct (Z.eq_dec x node) as [E|E]; [assumption|].
           exfalso. apply Hn. now apply (list_remove_keeps node leafs).
      * split; [exact Hs|].
        split; [intros x; now apply (list_remove_In node roots)|].
        split; [apply incl_refl|].
        split.
        -- intros x Hx Hn. rewrite (Hr x Hx Hn). assumption.
        -- intros x Hx Hn. contradiction.
    + intros H; injection H as <- <- <-.
      split; [exact Hs|]. split; [apply incl_refl|]. split; [apply incl_refl|].
      split; intros x Hx Hn; contradiction.
  - intros H; injection H as <- <- <-.
    split; [apply shrinks_refl|]. split; [apply incl_refl|]. split; [apply incl_refl|].
    split; intros x Hx Hn; contradiction.
Qed.

Lemma fold_drop_anchor_steps l : forall G roots leafs G' roots' leafs',
  fold_left drop_anchor l (G, roots, leafs) = (G', roots', leafs') ->
  shrinks G' G /\ incl roots' roots /\ incl leafs' leafs /\
  (forall x, In x roots -> ~ In x roots' -> ~ In x (nodes G')) /\
  (forall x, In x leafs -> ~ In x leafs' -> In x roots /\ ~ In x (nodes G')).
Proof.
  induction l as [|node rest IH]; intros G roots leafs G' roots' leafs' H;
    cbn [fold_left] in H.
  - injection H as <- <- <-.
    split; [apply shrinks_refl|]. split; [apply incl_refl|]. split; [apply incl_refl|].
    split; intros x Hx Hn; contradiction.
  - destruct (drop_anchor (G, roots, leafs) node) as [[G1 roots1] leafs1] eqn:E1.
    destruct (drop_anchor_step _ _ _ _ _ _ _ E1) as (Hs1 & Hr1 & Hl1 & Hgr1 & Hgl1).
    destruct (IH _ _ _ _ _ _ H) as (Hs & Hr & Hl & Hgr & Hgl).
    split; [eapply shrinks_trans; eauto|].
    split; [eapply incl_tran; eauto|].
    split; [eapply incl_tran; eauto|].
    split.
    + intros x Hx Hn.
      destruct (in_dec Z.eq_dec x roots1) as [Hin|Hout].
      * now apply Hgr.
      * intros Hnode. apply (Hgr1 x Hx Hout). now apply (proj1 Hs).
    + intros x Hx Hn.
      destruct (in_dec Z.eq_dec x leafs1) as [Hin|Hout].
      * destruct (Hgl x Hin Hn) as [Ha Hb]. split; [now apply Hr1 | assumption].
      * destruct (Hgl1 x Hx Hout) as [Ha Hb]. split; [assumption|].
        intros Hnode. apply Hb. now apply (proj1 Hs).
Qed.

Section BuildPathsGraph.

Variables (G0 : DiGraph) (cons : Z -> option ClusterInfo).
Variables (full_paths_roots full_paths_leafs : list Z).
Variables (G : DiGraph) (roots leafs : list Z).

Hypothesis Hbuilt :
  build_paths_graph G0 cons full_paths_roots full_paths_leafs = Some (G, roots, leafs).

(** The stages of [build_paths_graph], as far as the proofs below need
    them. *)
Lemma build_paths_graph_stages :
  exists G2 G4,
    shrinks G2 (remove_selfloops G0) /\ ~ In 0 (nodes G2) /\
    shrinks G4 G2 /\ shrinks G G4 /\
    incl roots full_paths_roots /\ incl leafs full_paths_leafs /\
    (forall x, In x full_paths_roots -> ~ In x roots -> ~ In x (nodes G4)) /\
    (forall x, In x full_paths_leafs -> ~ In x leafs ->
       In x full_paths_roots /\ ~ In x (nodes G4)).
Proof.
  pose proof Hbuilt as H. unfold build_paths_graph in H.
  set (G1 := remove_selfloops G0) in *.
  set (G2 := match remove_node G1 0 with Some G' => G' | None => G1 end) in *.
  unfold bind in H.
  destruct (anchor_links G2 true _ _ _) as [nr1|]; [|discriminate].
  destruct (anchor_links G2 false _ _ _) as [node_remove|]; [|discriminate].
  destruct (fold_left drop_anchor node_remove _) as [[G4 roots4] leafs4] eqn:E4.
  destruct (detours G4 (nodes G4) []) as [path_remove|]; [|discriminate].
  injection H as <- <- <-.
  destruct (fold_drop_anchor_steps _ _ _ _ _ _ _ E4) as (Hs & Hr & Hl & Hgr & Hgl).
  exists G2, G4.
  split.
  { unfold G2. destruct (remove_node G1 0) eqn:E0; [|apply shrinks_refl].
    now apply (remove_node_shrinks G1 0). }
  split.
  { unfold G2. destruct (remove_node G1 0) eqn:E0.
    - now apply (remove_node_gone G1 0).
    - unfold remove_node in E0. destruct (has_node G1 0) eqn:En; [discriminate|].
      now apply mem_false. }
  split; [eapply shrinks_trans; [exact Hs | apply remove_nested_shrinks]|].
  split; [apply fold_drop_first_hop_shrinks|].
  auto.
Qed.

End BuildPathsGraph.

(** X3. [build_paths_graph] only prunes: the graph it returns has no
    node and no edge beyond those of the adjacency graph, no self-loop
    and no node 0, and the two lists it updates only lose entries. *)
Theorem build_paths_graph_only_prunes (G0 : DiGraph)
    (cons : Z -> option ClusterInfo) (full_paths_roots full_paths_leafs : list Z)
    (G : DiGraph) (roots leafs : list Z) :
  build_paths_graph G0 cons full_paths_roots full_paths_leafs = Some (G, roots, leafs) ->
  incl (nodes G) (nodes G0) /\ incl (edges G) (edges G0) /\
  ~ In 0 (nodes G) /\
  (forall a b, In (a, b) (edges G) -> a <> b) /\
  incl roots full_paths_roots /\ incl leafs full_paths_leafs.
Proof.
  intros Hbuilt.
  destruct (build_paths_graph_stages _ _ _ _ _ _ _ Hbuilt)
    as (G2 & G4 & Hs2 & H0 & Hs4 & Hs & Hr & Hl & _ & _).
  assert (Hall : shrinks G (remove_selfloops G0))
    by (eapply shrinks_trans; [exact Hs|]; eapply shrinks_trans; eauto).
  destruct Hall as [Hn He].
  split; [exact Hn|].
  split.
  { intros e Hin. apply He in Hin. cbn [remove_selfloops edges] in Hin.
    apply filter_In in Hin. tauto. }
  split.
  { intros Hin. apply H0. apply (proj1 Hs4). now apply (proj1 Hs). }
  split; [|auto].
  intros a b Hin. apply He in Hin. cbn [remove_selfloops edges] in Hin.
  apply filter_In in Hin. destruct Hin as [_ Hne]. cbn [fst snd] in Hne.
  apply negb_true_iff, Z.eqb_neq in Hne. exact Hne.
Qed.

(** X4. A cluster that [build_paths_graph] takes off the root list is no
    longer a node of the graph.  A cluster leaves the leaf list only when
    it is also on the root list: a leaf that is no root stays listed,
    whether or not its node is removed. *)
Theorem build_paths_graph_list_removals (G0 : DiGraph)
    (cons : Z -> option ClusterInfo) (full_paths_roots full_paths_leafs : list Z)
    (G : DiGraph) (roots leafs : list Z) :
  build_paths_graph G0 cons full_paths_roots full_paths_leafs = Some (G, roots, leafs) ->
  (forall x, In x full_paths_roots -> ~ In x roots -> ~ In x (nodes G)) /\
  (forall x, In x full_paths_leafs -> ~ In x leafs ->
     In x full_paths_roots /\ ~ In x (nodes G)) /\
  (forall x, In x full_paths_leafs -> ~ In x full_paths_roots -> In x leafs).
Proof.
  intros Hbuilt.
  destruct (build_paths_graph_stages _ _ _ _ _ _ _ Hbuilt)
    as (G2 & G4 & _ & _ & _ & Hs & _ & _ & Hgr & Hgl).
  split; [|split].
  - intros x Hx Hn Hnode. apply (Hgr x Hx Hn). now apply (proj1 Hs).
  - intros x Hx Hn. destruct (Hgl x Hx Hn) as [Ha Hb]. split; [assumption|].
    intros Hnode. apply Hb. now apply (proj1 Hs).
  - intros x Hx Hn.
    destruct (in_dec Z.eq_dec x leafs) as [Hin|Hout]; [assumption|].
    destruct (Hgl x Hx Hout) as [Ha _]. contradiction.
Qed.

Lemma build_paths_graph_only_prunes_witness :
  incl [3] (nodes pruning_graph) /\ incl [] (edges pruning_graph) /\
  ~ In 0 [3] /\
  (forall a b, In (a, b) (@nil (Z * Z)) -> a <> b) /\
  incl [3] [1; 3] /\ incl [3; 4] [3; 4].
Proof.
  assert (H : build_paths_graph pruning_graph pruning_cons [1; 3] [3; 4]
              = Some (mkGraph [3] [], [3], [3; 4])) by (vm_compute; reflexivity).
  exact (build_paths_graph_only_prunes _ _ _ _ _ _ _ H).
Defined.

Lemma build_paths_graph_list_removals_witness :
  (forall x, In x [1; 3] -> ~ In x [3] -> ~ In x [3]) /\
  (forall x, In x [3; 4] -> ~ In x [3; 4] -> In x [1; 3] /\ ~ In x [3]) /\
  (forall x, In x [3; 4] -> ~ In x [1; 3] -> In x [3; 4]).
Proof.
  assert (H : build_paths_graph pruning_graph pruning_cons [1; 3] [3; 4]
              = Some (mkGraph [3] [], [3], [3; 4])) by (vm_compute; reflexivity).
  exact (build_paths_graph_list_removals _ _ _ _ _ _ _ H).
Defined.

(** ** Path enumeration *)

Lemma find_paths_loop_bound G leafs roots : forall paths,
  find_paths_loop G leafs roots true paths
  = Some (paths ++ paths_of_present_roots G roots leafs).
Proof.
  induction roots as [|r rest IH]; intros paths; cbn [find_paths_loop].
  - unfold paths_of_present_roots. cbn. now rewrite app_nil_r.
  - unfold all_simple_paths, paths_of_present_roots. cbn [flat_map].
    destruct (has_node G r); cbn [negb].
    + rewrite IH. unfold paths_of_present_roots. now rewrite app_assoc.
    + rewrite IH. reflexivity.
Qed.

(** X5. [find_full_paths] fails exactly when its first root is not a
    node of the graph ([paths_nx] is not yet bound).  Otherwise it
    returns the simple paths of the roots that are nodes, in order: a
    later root that is missing from the graph is skipped silently. *)
Theorem find_full_paths_skips_missing_roots (G : DiGraph) (roots leafs : list Z) :
  find_full_paths G roots leafs =
  match roots with
  | [] => Some []
  | r :: _ =>
      if has_node G r then Some (paths_of_present_roots G roots leafs) else None
  end.
Proof.
  unfold find_full_paths. destruct roots as [|r rest]; [reflexivity|].
  cbn [find_paths_loop]. unfold all_simple_paths.
  destruct (has_node G r) eqn:E; cbn [negb]; [|reflexivity].
  rewrite find_paths_loop_bound. unfold paths_of_present_roots.
  cbn [flat_map app]. now rewrite E.
Qed.

Lemma is_walk_snoc G v c :
  is_walk G (v ++ [c]) <-> is_walk G v /\ (v = [] \/ In (last v 0, c) (edges G)).
Proof.
  induction v as [|a r IH]; [cbn; tauto|].
  destruct r as [|b r'].
  - cbn. split; [intros [H _]; auto | intros [_ [H|H]]; [discriminate | auto]].
  - change (is_walk G ((a :: b :: r') ++ [c]))
      with (In (a, b) (edges G) /\ is_walk G ((b :: r') ++ [c])).
    change (is_walk G (a :: b :: r'))
      with (In (a, b) (edges G) /\ is_walk G (b :: r')).
    change (last (a :: b :: r') 0) with (last (b :: r') 0).
    rewrite IH. split.
    + intros [H1 [H2 [H3|H3]]]; [discriminate|]. auto.
    + intros [[H1 H2] [H3|H3]]; [discriminate|]. auto.
Qed.

Lemma NoDup_snoc (v : list Z) c : NoDup v -> ~ In c v -> NoDup (v ++ [c]).
Proof.
  intros Hv Hc. apply NoDup_app; [assumption | repeat constructor; auto |].
  intros x Hx [<-|[]]. contradiction.
Qed.

(** Every path the search reports extends [visited] to a simple walk
    that ends in a target. *)
Lemma simple_paths_sound fuel G targets : forall visited children p,
  visited <> [] -> NoDup visited -> is_walk G visited ->
  (forall c, In c children -> In (last visited 0, c) (edges G)) ->
  In p (simple_paths fuel G targets visited children) ->
  NoDup p /\ is_walk G p /\ In (last p 0) targets.
Proof.
  induction fuel as [|fuel IH]; cbn [simple_paths];
    intros visited children p Hne Hnd Hw Hch H; [contradiction|].
  apply in_flat_map in H. destruct H as [child [Hchild H]].
  destruct (Py.mem child visited) eqn:Ev; [contradiction|].
  apply mem_false in Ev.
  assert (Hnd' : NoDup (visited ++ [child])) by (now apply NoDup_snoc).
  assert (Hw' : is_walk G (visited ++ [child])).
  { apply is_walk_snoc. split; [assumption|]. right. now apply Hch. }
  apply in_app_or in H. destruct H as [H|H].
  - destruct (Py.mem child targets) eqn:Et; [|contradiction].
    destruct H as [<-|[]]. split; [assumption|]. split; [assumption|].
    rewrite last_last. now apply mem_In.
  - destruct (forallb _ targets); [contradiction|].
    apply (IH (visited ++ [child]) (successors G child)); try assumption.
    + intros E. apply app_eq_nil in E. destruct E; discriminate.
    + intros c Hc. rewrite last_last. now apply in_successors.
Qed.

Lemma simple_paths_from_sound G source targets p :
  In p (simple_paths_from G source targets) ->
  NoDup p /\ is_walk G p /\ In (last p 0) targets.
Proof.
  unfold simple_paths_from. destruct (Py.mem source targets); [contradiction|].
  destruct (_ <? 1); [contradiction|].
  apply simple_paths_sound.
  - discriminate.
  - repeat constructor. auto.
  - exact I.
  - intros c Hc. cbn [last]. now apply in_successors.
Qed.

(** X6. Every path [find_full_paths] returns starts at a root that is a
    node of the graph, follows edges of the graph, visits no cluster
    twice and ends at a cluster of the leaf list. *)
Theorem find_full_paths_sound (G : DiGraph) (roots leafs : list Z)
    (ps : list (list Z)) :
  find_full_paths G roots leafs = Some ps ->
  forall p, In p ps ->
    exists r rest,
      p = r :: rest /\ rest <> [] /\ In r roots /\ has_node G r = true /\
      NoDup p /\ is_walk G p /\ In (last p 0) leafs.
Proof.
  intros H p Hp.
  assert (Hin : In p (paths_of_present_roots G roots leafs)).
  { unfold find_full_paths in H.
    destruct roots as [|r0 rest0]; [injection H as <-; contradiction|].
    cbn [find_paths_loop] in H. unfold all_simple_paths in H.
    destruct (has_node G r0) eqn:E0; cbn [negb] in H; [|discriminate].
    rewrite find_paths_loop_bound in H. injection H as <-.
    unfold paths_of_present_roots. cbn [flat_map app]. now rewrite E0. }
  unfold paths_of_present_roots in Hin. apply in_flat_map in Hin.
  destruct Hin as [r [Hr Hin]].
  destruct (has_node G r) eqn:En; [|contradiction].
  destruct (simple_paths_from_head _ _ _ _ Hin) as [_ [rest [Hne ->]]].
  exists r, rest. repeat split; try assumption;
    now apply (simple_paths_from_sound G r leafs).
Qed.

Lemma find_full_paths_sound_witness :
  exists r rest,
    [1; 2; 4] = r :: rest /\ rest <> [] /\ In r [1] /\ has_node fork_graph r = true /\
    NoDup [1; 2; 4] /\ is_walk fork_graph [1; 2; 4] /\ In (last [1; 2; 4] 0) [4; 5].
Proof.
  assert (H : find_full_paths fork_graph [1] [4; 5] = Some [[1; 2; 4]; [1; 3; 5]])
    by (vm_compute; reflexivity).
  apply (find_full_paths_sound fork_graph [1] [4; 5] _ H). now left.
Defined.

(** ** Detours *)

(** A two-step path between distinct nodes is among the simple paths,
    once the graph has three nodes. *)
Lemma two_step_path_found G u x v :
  (3 <= length (nodes G))%nat ->
  In (u, x) (edges G) -> In (x, v) (edges G) ->
  u <> x -> x <> v -> u <> v ->
  In [u; x; v] (simple_paths_from G u [v]).
Proof.
  intros Hlen Hux Hxv Hne1 Hne2 Hne3. unfold simple_paths_from.
  assert (Hm : Py.mem u [v] = false) by (apply mem_false; intros [E|[]]; congruence).
  rewrite Hm.
  destruct (Z.ltb_spec (Z.of_nat (length (nodes G)) - 1) 1) as [Hlt|_]; [lia|].
  destruct (Z.to_nat (Z.of_nat (length (nodes G)) - 1)) as [|[|fuel]] eqn:Ef; try lia.
  cbn [simple_paths]. apply in_flat_map. exists x. split; [now apply in_successors|].
  assert (Hx1 : Py.mem x [u] = false) by (apply mem_false; intros [E|[]]; congruence).
  assert (Hx2 : Py.mem x [v] = false) by (apply mem_false; intros [E|[]]; congruence).
  assert (Hv1 : Py.mem v ([u] ++ [x]) = false)
    by (apply mem_false; intros [E|[E|[]]]; congruence).
  rewrite Hx1, Hx2. cbn [app forallb]. cbn [app] in Hv1. rewrite Hv1. cbn [andb].
  apply in_flat_map. exists v. split; [now apply in_successors|].
  rewrite Hv1.
  assert (Hv2 : Py.mem v [v] = true) by (apply mem_In; now left).
  rewrite Hv2. now left.
Qed.

Lemma detours_of_grows G node ns : forall acc out,
  detours_of G node ns acc = Some out -> incl acc out.
Proof.
  induction ns as [|n r IH]; intros acc out H; cbn [detours_of] in H.
  - injection H as <-. apply incl_refl.
  - unfold bind in H. destruct (all_simple_paths_to G node n) as [ps|]; [|discriminate].
    apply IH in H. intros p Hp. apply H. apply in_or_app. now left.
Qed.

Lemma detours_of_collects G node ns : forall acc out n ps p,
  detours_of G node ns acc = Some out ->
  In n ns -> all_simple_paths_to G node n = Some ps ->
  In p ps -> length p = 3%nat -> In p out.
Proof.
  induction ns as [|n0 r IH]; intros acc out n ps p H Hn Hps Hp Hlen; [contradiction|].
  cbn [detours_of] in H. unfold bind in H.
  destruct (all_simple_paths_to G node n0) as [ps0|] eqn:E0; [|discriminate].
  destruct Hn as [->|Hn].
  - rewrite Hps in E0. injection E0 as <-.
    apply (detours_of_grows _ _ _ _ _ H). apply in_or_app. right.
    apply filter_In. split; [assumption|]. rewrite Hlen. reflexivity.
  - now apply (IH _ _ n ps p H).
Qed.

Lemma detours_grows G todo : forall acc out,
  detours G todo acc = Some out -> incl acc out.
Proof.
  induction todo as [|n r IH]; intros acc out H; cbn [detours] in H.
  - injection H as <-. apply incl_refl.
  - unfold bind in H. destruct (all_neighbors G n) as [ns|]; [|discriminate].
    destruct (detours_of G n ns acc) as [pr|] eqn:E; [|discriminate].
    eapply incl_tran; [apply (detours_of_grows _ _ _ _ _ E) | now apply IH].
Qed.

Lemma detours_collects G todo : forall acc out node ns n ps p,
  detours G todo acc = Some out ->
  In node todo -> all_neighbors G node = Some ns -> In n ns ->
  all_simple_paths_to G node n = Some ps ->
  In p ps -> length p = 3%nat -> In p out.
Proof.
  induction todo as [|n0 r IH]; intros acc out node ns n ps p H Hnode Hns Hn Hps Hp Hlen;
    [contradiction|].
  cbn [detours] in H. unfold bind in H.
  destruct (all_neighbors G n0) as [ns0|] eqn:E0; [|discriminate].
  destruct (detours_of G n0 ns0 acc) as [pr|] eqn:E; [|discriminate].
  destruct Hnode as [->|Hnode].
  - rewrite Hns in E0. injection E0 as <-.
    apply (detours_grows _ _ _ _ H).
    now apply (detours_of_collects _ _ _ _ _ n ps p E).
  - now apply (IH _ _ node ns n ps p H).
Qed.

Lemma drop_first_hop_removes G u x rest :
  ~ In (u, x) (edges (drop_first_hop G (u :: x :: rest))).
Proof.
  cbn [drop_first_hop]. destruct (remove_edge G u x) as [G'|] eqn:E.
  - unfold remove_edge in E. destruct (has_edge G u x); [|discriminate].
    injection E as <-. cbn [edges]. intros Hin. apply filter_In in Hin.
    destruct Hin as [_ Hin]. cbn [fst snd] in Hin. now rewrite !Z.eqb_refl in Hin.
  - unfold remove_edge in E. destruct (has_edge G u x) eqn:Eh; [discriminate|].
    intros Hin. unfold has_edge in Eh.
    assert (existsb (fun e => (fst e =? u) && (snd e =? x)) (edges G) = true);
      [|congruence].
    apply existsb_exists. exists (u, x). split; [assumption|].
    cbn [fst snd]. now rewrite !Z.eqb_refl.
Qed.

Lemma fold_drop_first_hop_removes l : forall G u x rest,
  In (u :: x :: rest) l -> ~ In (u, x) (edges (fold_left drop_first_hop l G)).
Proof.
  induction l as [|p r IH]; intros G u x rest Hin; [contradiction|].
  cbn [fold_left]. destruct Hin as [->|Hin].
  - intros He. apply (proj2 (fold_drop_first_hop_shrinks r _)) in He.
    now apply drop_first_hop_removes in He.
  - now apply (IH _ u x rest).
Qed.

Lemma remove_selfloops_wf G : wf_graph G -> wf_graph (remove_selfloops G).
Proof.
  intros Hwf e He. cbn [remove_selfloops nodes edges] in *.
  apply filter_In in He. now apply Hwf.
Qed.

Lemma fold_drop_anchor_wf l : forall G roots leafs,
  wf_graph G -> wf_graph (fst (fst (fold_left drop_anchor l (G, roots, leafs)))).
Proof.
  induction l as [|n r IH]; intros G roots leafs Hwf; cbn [fold_left]; [assumption|].
  unfold drop_anchor at 2.
  destruct (remove_node G n) as [G1|] eqn:E; [|now apply IH].
  pose proof (remove_node_wf _ _ _ E Hwf) as Hwf1.
  destruct (Py.list_remove n roots); [|now apply IH].
  destruct (Py.list_remove n leafs); now apply IH.
Qed.

(** X7. In the graph [build_paths_graph] returns, no two-step path
    u -> x -> v runs between two clusters that are themselves linked, in
    either direction: the first hop of every such detour is removed. *)
Theorem build_paths_graph_removes_detours (G0 : DiGraph)
    (cons : Z -> option ClusterInfo) (full_paths_roots full_paths_leafs : list Z)
    (G : DiGraph) (roots leafs : list Z) :
  wf_graph G0 ->
  build_paths_graph G0 cons full_paths_roots full_paths_leafs = Some (G, roots, leafs) ->
  forall u x v,
    In (u, x) (edges G) -> In (x, v) (edges G) ->
    ~ (In (u, v) (edges G) \/ In (v, u) (edges G)).
Proof.
  intros Hwf0 H u x v Hux Hxv Huv.
  unfold build_paths_graph in H.
  set (G1 := remove_selfloops G0) in *.
  set (G2 := match remove_node G1 0 with Some G' => G' | None => G1 end) in *.
  unfold bind in H.
  destruct (anchor_links G2 true _ _ _) as [nr1|]; [|discriminate].
  destruct (anchor_links G2 false _ _ _) as [node_remove|]; [|discriminate].
  destruct (fold_left drop_anchor node_remove _) as [[G4 roots4] leafs4] eqn:E4.
  destruct (detours G4 (nodes G4) []) as [path_remove|] eqn:Ed; [|discriminate].
  injection H as <- <- <-.
  assert (Hwf1 : wf_graph G1) by (now apply remove_selfloops_wf).
  assert (Hwf2 : wf_graph G2).
  { unfold G2. destruct (remove_node G1 0) eqn:E0; [|assumption].
    now apply (remove_node_wf G1 0). }
  assert (Hwf4 : wf_graph G4).
  { pose proof (fold_drop_anchor_wf node_remove (remove_nested G2 cons)
                  full_paths_roots full_paths_leafs) as Hw.
    rewrite E4 in Hw. apply Hw. now apply fold_prune_wf. }
  assert (Hloops : forall a b, In (a, b) (edges G4) -> a <> b).
  { intros a b Hab.
    destruct (fold_drop_anchor_steps _ _ _ _ _ _ _ E4) as (Hs4 & _).
    apply (proj2 Hs4) in Hab. apply (proj2 (remove_nested_shrinks cons G2)) in Hab.
    assert (Hab1 : In (a, b) (edges G1)).
    { unfold G2 in Hab. destruct (remove_node G1 0) eqn:E0; [|assumption].
      now apply (proj2 (remove_node_shrinks _ _ _ E0)). }
    cbn [G1 remove_selfloops edges] in Hab1. apply filter_In in Hab1.
    destruct Hab1 as [_ Hne]. cbn [fst snd] in Hne.
    now apply negb_true_iff, Z.eqb_neq in Hne. }
  pose proof (fold_drop_first_hop_shrinks path_remove G4) as [_ Hsub].
  assert (Hux4 : In (u, x) (edges G4)) by (now apply Hsub).
  assert (Hxv4 : In (x, v) (edges G4)) by (now apply Hsub).
  assert (Huv4 : In (u, v) (edges G4) \/ In (v, u) (edges G4))
    by (destruct Huv as [Huv|Huv]; [left | right]; now apply Hsub).
  assert (Hne1 : u <> x) by (now apply Hloops).
  assert (Hne2 : x <> v) by (now apply Hloops).
  assert (Hne3 : u <> v).
  { destruct Huv4 as [Huv4|Huv4]; [now apply Hloops|].
    intros E. symmetry in E. revert E. now apply Hloops. }
  destruct (Hwf4 _ Hux4) as [Hu Hx]. destruct (Hwf4 _ Hxv4) as [_ Hv].
  cbn [fst snd] in Hu, Hx, Hv.
  assert (Hlen : (3 <= length (nodes G4))%nat).
  { change 3%nat with (length [u; x; v]). apply NoDup_incl_length.
    - repeat constructor; cbn; intuition congruence.
    - intros y [<-|[<-|[<-|[]]]]; assumption. }
  assert (Hnb : all_neighbors G4 u = Some (predecessors G4 u ++ successors G4 u)).
  { unfold all_neighbors, has_node. now rewrite (proj2 (mem_In _ _) Hu). }
  assert (Hvn : In v (predecessors G4 u ++ successors G4 u)).
  { apply in_or_app. destruct Huv4 as [Huv4|Huv4];
      [right; now apply in_successors | left; now apply in_predecessors]. }
  assert (Hps : all_simple_paths_to G4 u v = Some (simple_paths_from G4 u [v])).
  { unfold all_simple_paths_to, has_node.
    now rewrite (proj2 (mem_In _ _) Hu), (proj2 (mem_In _ _) Hv). }
  assert (Hin : In [u; x; v] path_remove).
  { apply (detours_collects _ _ _ _ u _ v _ [u; x; v] Ed Hu Hnb Hvn Hps);
      [|reflexivity].
    now apply two_step_path_found. }
  now apply (fold_drop_first_hop_removes path_remove G4 u x [v] Hin).
Qed.

Lemma triangle_graph_wf : wf_graph triangle_graph.
Proof.
  intros e He. cbn in He.
  repeat (destruct He as [<-|He]; [cbn; tauto|]). contradiction.
Qed.

Lemma build_paths_graph_removes_detours_witness :
  ~ (In (2, 4) [(2, 3); (1, 3); (3, 4)] \/ In (4, 2) [(2, 3); (1, 3); (3, 4)]).
Proof.
  assert (H : build_paths_graph triangle_graph triangle_cons [1] [4]
              = Some (mkGraph [1; 2; 3; 4] [(2, 3); (1, 3); (3, 4)], [1], [4]))
    by (vm_compute; reflexivity).
  apply (build_paths_graph_removes_detours _ _ _ _ _ _ _ triangle_graph_wf H 2 3 4);
    cbn; tauto.
Defined.

(** ** Classification of the clusters of an edge *)

Lemma unique_key {A : Type} (l : list (Z * A)) t1 t2 :
  NoDup (map fst l) -> In t1 l -> In t2 l -> fst t1 = fst t2 -> t1 = t2.
Proof.
  induction l as [|t r IH]; intros Hnd H1 H2 E; [contradiction|].
  cbn [map] in Hnd. inversion Hnd as [|? ? Hout Hnd']; subst.
  destruct H1 as [H1|H1], H2 as [H2|H2].
  - congruence.
  - exfalso. apply Hout. rewrite H1, E. now apply in_map.
  - exfalso. apply Hout. rewrite H2, <- E. now apply in_map.
  - now apply IH.
Qed.

Section ClassifyFacts.

Variable start_end_gap : Z.
Variable strong_cluster_min_reads : Z.
Variable cl : list Row.
Variable ln : Z.
Variable data : string -> option ReadInfo.

(** One round of the loop: only the interval of the cluster at hand can
    change, the full clusters are kept, and a cluster that lay within
    the edge and still reaches both ends afterwards has become full. *)
Lemma classify_cluster_step st k st' :
  classify_cluster start_end_gap strong_cluster_min_reads cl ln data st k = Some st' ->
  (forall j, j <> k -> cls_cons st' j = cls_cons st j) /\
  incl (full_clusters st) (full_clusters st') /\
  (forall ci, cls_cons st k = Some ci -> 0 <= Start ci -> Stop ci <= ln ->
     forall ci', cls_cons st' k = Some ci' ->
       Start ci' < start_end_gap -> ln - start_end_gap < Stop ci' ->
       In k (full_clusters st')).
Proof.
  unfold classify_cluster, bind.
  destruct (cls_cons st k) as [ci|] eqn:Ek; [|discriminate].
  destruct (Z.ltb_spec (Start ci) start_end_gap) as [Hl|Hl];
  destruct (Z.gtb_spec (Stop ci) (ln - start_end_gap)) as [Hr|Hr]; cbn [orb andb].
  1-3: destruct (strong_tail _ _ _ _ _ _) as [[strong_l strong_r]|]; [|discriminate].
  1-3: destruct strong_l, strong_r; cbn [andb negb]; intros H; injection H as <-.
  all: try (intros H; injection H as <-).
  all: cbn [cls_cons full_clusters].
  all: split; [intros j Hj; unfold cons_set;
               try (destruct (Z.eqb_spec j k); [contradiction|]); reflexivity|].
  all: split; [intros y Hy; try (apply in_or_app; left); exact Hy|].
  all: intros ci0 E0 Hs He ci' E' Hl' Hr'; injection E0 as <-.
  all: try (unfold cons_set in E'; rewrite Z.eqb_refl in E'; injection E' as <-;
            cbn [Start Stop] in Hl', Hr'; lia).
  all: try (rewrite Ek in E'; injection E' as <-; lia).
  apply in_or_app. right. now left.
Qed.

Lemma classify_loop_spanning clusters : forall st st',
  NoDup clusters ->
  (forall k ci, In k clusters -> cls_cons st k = Some ci ->
     0 <= Start ci /\ Stop ci <= ln) ->
  classify_loop start_end_gap strong_cluster_min_reads cl ln data clusters st = Some st' ->
  incl (full_clusters st) (full_clusters st') /\
  (forall j, ~ In j clusters -> cls_cons st' j = cls_cons st j) /\
  (forall k ci, In k clusters -> cls_cons st' k = Some ci ->
     Start ci < start_end_gap -> ln - start_end_gap < Stop ci ->
     In k (full_clusters st')).
Proof.
  induction clusters as [|k rest IH]; intros st st' Hnd Hb H; cbn [classify_loop] in H.
  - injection H as <-. split; [apply incl_refl|]. split; [reflexivity|]. contradiction.
  - unfold bind in H.
    destruct (classify_cluster _ _ _ _ _ st k) as [st1|] eqn:E1; [|discriminate].
    destruct (classify_cluster_step _ _ _ E1) as (Hsame & Hfull & Hk).
    inversion Hnd as [|? ? Hk_rest Hnd_rest]; subst.
    assert (Hb1 : forall j ci, In j rest -> cls_cons st1 j = Some ci ->
                    0 <= Start ci /\ Stop ci <= ln).
    { intros j ci Hj Ej. apply (Hb j); [now right|].
      rewrite <- Ej. symmetry. apply Hsame. intros ->. contradiction. }
    destruct (IH st1 st' Hnd_rest Hb1 H) as (Hfull' & Hsame' & Hspan).
    split; [eapply incl_tran; eauto|].
    split.
    { intros j Hj. rewrite Hsame' by (intros Hin; apply Hj; now right).
      apply Hsame. intros ->. apply Hj. now left. }
    intros j ci [<-|Hj] Ej Hl Hr.
    + apply Hfull'. rewrite (Hsame' k Hk_rest) in Ej.
      destruct (cls_cons st k) as [ci0|] eqn:E0.
      * destruct (Hb k ci0 (or_introl eq_refl) E0) as [Hs He].
        now apply (Hk ci0 eq_refl Hs He ci).
      * unfold classify_cluster, bind in E1. rewrite E0 in E1. discriminate.
    + now apply (Hspan j ci).
Qed.

(** X8. After the classification loop a cluster whose interval still
    reaches both ends of the edge is a full cluster: a cluster that
    reached both ends with a weak tail has had that end of its interval
    moved inwards by [start_end_gap + 1]. *)
Theorem spanning_cluster_is_full (cons : Z -> option ClusterInfo)
    (clusters : list Z) (c : Classes) :
  NoDup clusters ->
  (forall k ci, In k clusters -> cons k = Some ci -> 0 <= Start ci /\ Stop ci <= ln) ->
  classify start_end_gap strong_cluster_min_reads cl ln data cons clusters = Some c ->
  forall k ci, In k clusters -> cls_cons c k = Some ci ->
    Start ci < start_end_gap -> ln - start_end_gap < Stop ci ->
    In k (full_clusters c).
Proof.
  intros Hnd Hb H. unfold classify in H.
  exact (proj2 (proj2 (classify_loop_spanning clusters (mkClasses cons [] [] [] []) c
                        Hnd Hb H))).
Qed.

(** X9. With every cluster listed once, the full clusters are exactly
    the clusters that classification puts on both the root list and the
    leaf list. *)
Theorem full_clusters_are_roots_and_leafs (cons : Z -> option ClusterInfo)
    (clusters : list Z) (c : Classes) :
  NoDup clusters ->
  classify start_end_gap strong_cluster_min_reads cl ln data cons clusters = Some c ->
  forall k, In k (full_clusters c) <->
            In k (full_paths_roots c) /\ In k (full_paths_leafs c).
Proof.
  intros Hnd H k.
  destruct (classify_tags _ _ _ _ _ _ _ _ H) as [tagged [Hm [Hr [Hl Hf]]]].
  rewrite Hr, Hl, Hf, !in_map_iff. split.
  - intros [t [<- Ht]]. apply filter_In in Ht. destruct Ht as [Ht Hb].
    apply andb_prop in Hb.
    split; exists t; (split; [reflexivity|]); apply filter_In; tauto.
  - intros [[t1 [E1 H1]] [t2 [E2 H2]]].
    apply filter_In in H1. apply filter_In in H2.
    destruct H1 as [H1 B1], H2 as [H2 B2].
    assert (Et : t1 = t2)
      by (apply (unique_key tagged); [now rewrite Hm | assumption | assumption | congruence]).
    subst t2. exists t1. split; [assumption|]. apply filter_In.
    split; [assumption|]. now rewrite B1, B2.
Qed.

End ClassifyFacts.

Lemma spanning_cluster_is_full_witness : In 1 [1].
Proof.
  assert (H : classify 50 1 spanning_reads 1000 spanning_data spanning_cons [1; 2; 3]
              = Some (mkClasses
                        (cons_set (cons_set spanning_cons 2 (mkInfo 61 1000 2))
                           3 (mkInfo 0 929 2))
                        [1] [1; 3] [1; 2] [1]))
    by (vm_compute; reflexivity).
  apply (spanning_cluster_is_full 50 1 spanning_reads 1000 spanning_data spanning_cons
           [1; 2; 3] _ ltac:(repeat constructor; cbn; intuition lia)
           ltac:(intros k ci [<-|[<-|[<-|[]]]] E; injection E as <-; cbn; lia)
           H 1 (mkInfo 0 1000 2) ltac:(now left) eq_refl); cbn; lia.
Defined.

Lemma full_clusters_are_roots_and_leafs_witness :
  In 1 [1] <-> In 1 [1; 3] /\ In 1 [1; 2].
Proof.
  assert (H : classify 50 1 spanning_reads 1000 spanning_data spanning_cons [1; 2; 3]
              = Some (mkClasses
                        (cons_set (cons_set spanning_cons 2 (mkInfo 61 1000 2))
                           3 (mkInfo 0 929 2))
                        [1] [1; 3] [1; 2] [1]))
    by (vm_compute; reflexivity).
  apply (full_clusters_are_roots_and_leafs 50 1 spanning_reads 1000 spanning_data
           spanning_cons [1; 2; 3] _ ltac:(repeat constructor; cbn; intuition lia) H 1).
Defined.

(** ** Errors of [strong_tail] and [change_cov] *)

Lemma tail_counts_fails start_end_gap data ln reads : forall count_start count_stop,
  tail_counts start_end_gap data ln reads count_start count_stop = None <->
  exists read, In read reads /\ data read = None.
Proof.
  induction reads as [|r rest IH]; intros cs ce; cbn [tail_counts].
  - split; [discriminate | intros [x [[] _]]].
  - destruct (data r) as [d|] eqn:E.
    + rewrite IH. split.
      * intros [x [Hx Ex]]. exists x. split; [now right | assumption].
      * intros [x [[->|Hx] Ex]]; [congruence|]. now exists x.
    + split; [|reflexivity]. intros _. exists r. split; [now left | assumption].
Qed.

(** X10. [strong_tail] fails (a [KeyError]) exactly when some read of
    the cluster has no entry in [data]; otherwise it returns a pair. *)
Theorem strong_tail_fails_on_unknown_read (start_end_gap strong_cluster_min_reads : Z)
    (cluster : Z) (cl : list Row) (ln : Z) (data : string -> option ReadInfo) :
  strong_tail start_end_gap strong_cluster_min_reads cluster cl ln data = None <->
  exists r, In r cl /\ Cluster r = Cl cluster /\ data (ReadName r) = None.
Proof.
  unfold strong_tail.
  destruct (tail_counts start_end_gap data ln (cluster_reads cl cluster) None None)
    as [[count_start count_stop]|] eqn:E.
  - split; [discriminate|]. intros [r [Hr [Hc Hd]]]. exfalso.
    assert (Hnone : tail_counts start_end_gap data ln (cluster_reads cl cluster) None None
                    = None); [|congruence].
    apply tail_counts_fails. exists (ReadName r). split; [|assumption].
    unfold cluster_reads. apply in_map. apply filter_In. split; [assumption|].
    rewrite Hc. cbn. apply Z.eqb_refl.
  - split; [|reflexivity]. intros _. apply tail_counts_fails in E.
    destruct E as [read [Hin Hd]]. unfold cluster_reads in Hin.
    apply in_map_iff in Hin. destruct Hin as [r [<- Hr]].
    apply filter_In in Hr. destruct Hr as [Hr Hc].
    exists r. split; [assumption|]. split; [|assumption].
    destruct (Cluster r) as [|c]; cbn in Hc; [discriminate|].
    apply Z.eqb_eq in Hc. now subst.
Qed.

Lemma other_coverage_fails cons othercl : forall cov len_cl,
  other_coverage cons othercl cov len_cl = None <->
  exists i, In i othercl /\ cons i = None.
Proof.
  induction othercl as [|i rest IH]; intros cov len_cl; cbn [other_coverage].
  - split; [discriminate | intros [x [[] _]]].
  - destruct (cons i) as [ci|] eqn:E.
    + rewrite IH. split.
      * intros [x [Hx Ex]]. exists x. split; [now right | assumption].
      * intros [x [[->|Hx] Ex]]; [congruence|]. now exists x.
    + split; [|reflexivity]. intros _. exists i. split; [now left | assumption].
Qed.

(** X11. A background cluster without an entry in [cons] ([KeyError])
    and an edge of length 0 ([ZeroDivisionError]) each make [change_cov]
    raise. *)
Theorem change_cov_fails (parental_min_len : Q) (remove_clusters : list string)
    (edge : string) (cons : Z -> option ClusterInfo) (ln : Z)
    (clusters othercl : list Z) :
  (exists i, In i othercl /\ cons i = None) \/ ln = 0 ->
  change_cov parental_min_len remove_clusters edge cons ln clusters othercl = None.
Proof.
  intros H. unfold change_cov.
  destruct (other_coverage cons othercl 0%Q []) as [[cov len_cl]|] eqn:E;
    [|reflexivity].
  destruct H as [Hex | ->]; [|reflexivity].
  apply (proj2 (other_coverage_fails cons othercl 0%Q [])) in Hex.
  rewrite E in Hex. discriminate.
Qed.

Lemma change_cov_fails_witness :
  change_cov (7 # 10) [] "edge_1" thin_cons 100 [1; 2; 3] [2; 7] = None /\
  change_cov (7 # 10) [] "edge_1" thin_cons 0 [1; 2; 3] [2] = None.
Proof.
  split.
  - apply change_cov_fails. left. exists 7. split; [cbn; tauto | reflexivity].
  - apply change_cov_fails. now right.
Defined.

(** ** Inherited cuts *)

Lemma cut_get_key (d : Cuts) k v : cut_get d k = Some v -> In k (map fst d).
Proof.
  induction d as [|[k' v'] r IH]; cbn [cut_get map fst]; [discriminate|].
  destruct (Z.eqb_spec k' k) as [->|Hne]; [now left|].
  intros H. right. now apply IH.
Qed.

(** A step of the inheritance for [member] keeps the keys and every
    entry of another cluster. *)
Lemma inherit_on_keeps (cut_r : Cuts) member (d : Cuts) path :
  In member (map fst d) ->
  map fst (inherit_on cut_r member d path) = map fst d /\
  (forall k, k <> member -> cut_get (inherit_on cut_r member d path) k = cut_get d k).
Proof.
  intros Hkey. unfold inherit_on.
  destruct (prev_on path member) as [p|]; [|auto].
  destruct (cut_get cut_r p) as [v|]; [|auto].
  split; [now apply cut_set_keys|].
  intros k Hk. now apply cut_get_set_other.
Qed.

Lemma fold_inherit_on_keeps (cut_r : Cuts) member paths : forall (d : Cuts),
  In member (map fst d) ->
  map fst (fold_left (inherit_on cut_r member) paths d) = map fst d /\
  (forall k, k <> member ->
     cut_get (fold_left (inherit_on cut_r member) paths d) k = cut_get d k).
Proof.
  induction paths as [|path rest IH]; intros d Hkey; cbn [fold_left]; [auto|].
  destruct (inherit_on_keeps cut_r member d path Hkey) as [Hk1 Hg1].
  destruct (IH (inherit_on cut_r member d path)) as [Hk2 Hg2]; [now rewrite Hk1|].
  split; [congruence|]. intros k Hk. rewrite Hg2 by assumption. now apply Hg1.
Qed.

Lemma inherit_member_keeps paths (cut_r d : Cuts) member :
  map fst (inherit_member paths cut_r d member) = map fst d /\
  (forall k v, cut_get d k = Some (Some v) ->
     cut_get (inherit_member paths cut_r d member) k = Some (Some v)).
Proof.
  unfold inherit_member.
  destruct (cut_get d member) as [[x|]|] eqn:E; auto.
  destruct (fold_inherit_on_keeps cut_r member paths d (cut_get_key _ _ _ E))
    as [Hk Hg].
  split; [assumption|]. intros k v Hv.
  rewrite Hg; [assumption|]. intros ->. congruence.
Qed.

Lemma fold_inherit_member_keeps paths (cut_r : Cuts) members : forall (d : Cuts),
  map fst (fold_left (inherit_member paths cut_r) members d) = map fst d /\
  (forall k v, cut_get d k = Some (Some v) ->
     cut_get (fold_left (inherit_member paths cut_r) members d) k = Some (Some v)).
Proof.
  induction members as [|m rest IH]; intros d; cbn [fold_left]; [auto|].
  destruct (inherit_member_keeps paths cut_r d m) as [Hk1 Hg1].
  destruct (IH (inherit_member paths cut_r d m)) as [Hk2 Hg2].
  split; [congruence|]. intros k v Hv. apply Hg2. now apply Hg1.
Qed.

(** X13. The inheritance step of [add_path_edges] only fills in left
    cuts that are still [None]: it keeps the clusters of [cut_l] and
    their order, and never changes a left cut that is already set. *)
Theorem inherit_cuts_keeps_resolved (paths : list (list Z)) (cut_l cut_r : Cuts) :
  map fst (inherit_cuts paths cut_l cut_r) = map fst cut_l /\
  (forall k v, cut_get cut_l k = Some (Some v) ->
     cut_get (inherit_cuts paths cut_l cut_r) k = Some (Some v)).
Proof.
  unfold inherit_cuts. destruct (existsb _ cut_l); [|auto].
  apply fold_inherit_member_keeps.
Qed.

(** ** Links along the paths *)

Lemma split_at (l : list Z) : forall k,
  (k + 1 < length l)%nat ->
  exists l1 a b l2, l = l1 ++ a :: b :: l2 /\ length l1 = k.
Proof.
  induction l as [|x r IH]; intros k Hk; cbn [length] in Hk; [lia|].
  destruct k as [|k].
  - destruct r as [|y r']; cbn [length] in Hk; [lia|].
    now exists [], x, y, r'.
  - destruct (IH k) as (l1 & a & b & l2 & -> & Hlen); [lia|].
    exists (x :: l1), a, b, l2. split; [reflexivity|]. cbn. lia.
Qed.

(** Each round of [add_path_links] finds its two clusters, and they are
    neighbours on the path. *)
Lemma link_at_adjacent path l :
  In l (map (link_at path) (py_range 0 (Z.of_nat (length path) - 1))) ->
  exists a b, l = Some (a, b) /\ adjacent a b path.
Proof.
  intros H. apply in_map_iff in H. destruct H as [i [<- Hi]].
  unfold py_range in Hi. apply in_map_iff in Hi. destruct Hi as [k [<- Hk]].
  apply in_seq in Hk.
  destruct (split_at path k) as (l1 & a & b & l2 & E & Hlen); [lia|].
  exists a, b. split; [|now exists l1, l2].
  unfold link_at, bind. cbn [Z.add]. rewrite <- Hlen.
  rewrite E at 1. rewrite getitem_middle.
  replace (Z.of_nat (length l1) + 1) with (Z.of_nat (length (l1 ++ [a])))
    by (rewrite length_app; cbn; lia).
  rewrite E. replace (l1 ++ a :: b :: l2) with ((l1 ++ [a]) ++ b :: l2)
    by (now rewrite <- app_assoc).
  now rewrite getitem_middle.
Qed.

(** Every cluster the last loop of [add_path_edges] visits either goes
    to [add_child_edge] or has two equal cuts. *)
Lemma emit_children_covers (cut_l cut_r : Cuts) : forall todo paths G children paths' G' children',
  emit_children cut_l cut_r todo paths G children = Some (paths', G', children') ->
  incl children children' /\
  (forall c, In c todo ->
     (exists l r, In (c, l, r) children') \/
     (exists v, cut_get cut_l c = Some v /\ cut_get cut_r c = Some v)).
Proof.
  induction todo as [|c0 rest IH]; intros paths G children paths' G' children' H.
  - cbn in H. injection H as <- <- <-. split; [apply incl_refl | contradiction].
  - cbn [emit_children] in H. unfold bind at 1 2 in H.
    destruct (cut_get cut_l c0) as [l0|] eqn:El; [|discriminate].
    destruct (cut_get cut_r c0) as [r0|] eqn:Er; [|discriminate].
    destruct (option_Z_eqb l0 r0) eqn:Eq; cbn [negb] in H.
    + unfold bind at 1 in H.
      destruct (remove_node G c0) as [G1|]; [|discriminate].
      destruct (IH _ _ _ _ _ _ H) as [Hinc Hcov]. split; [assumption|].
      intros c [<-|Hc]; [|now apply Hcov].
      right. exists l0. split; [assumption|].
      now rewrite (option_Z_eqb_eq _ _ Eq).
    + destruct l0 as [l0|]; [|discriminate]. destruct r0 as [r0|]; [|discriminate].
      unfold bind at 1 2 in H.
      destruct (IH _ _ _ _ _ _ H) as [Hinc Hcov].
      split; [intros x Hx; apply Hinc; apply in_or_app; now left|].
      intros c [<-|Hc]; [|now apply Hcov].
      left. exists l0, r0. apply Hinc. apply in_or_app. right. now left.
Qed.

(** X14. Every link that [add_path_links] requests on the paths left by
    [add_path_edges] joins two clusters that are neighbours on a path
    and were both handed to [add_child_edge]. *)
Theorem path_links_join_children (start_end_gap : Z)
    (set_order : list Z -> list Z) (ln : Z) (paths : list (list Z)) (G : DiGraph)
    (paths_roots paths_leafs full_clusters : list Z)
    (cons : Z -> option ClusterInfo) (res : PathEdges) :
  Forall (@NoDup Z) paths ->
  (forall x, In x (concat paths) -> In x (set_order (concat paths))) ->
  add_path_edges start_end_gap set_order ln paths G paths_roots paths_leafs
    full_clusters cons = Some res ->
  forall link, In link (add_path_links (pe_paths res)) ->
    exists a b,
      link = Some (a, b) /\
      (exists p, In p (pe_paths res) /\ adjacent a b p) /\
      (exists l r, In (a, l, r) (pe_children res)) /\
      (exists l r, In (b, l, r) (pe_children res)).
Proof.
  intros Hnd Hset H link Hlink. unfold add_path_edges in H.
  destruct (fold_left drop_full full_clusters (paths_roots, paths_leafs))
    as [roots leafs].
  unfold bind in H.
  destruct (seed_cuts _ _ _ _ _ _ _ _) as [[cl_u cr_u]|]; [|discriminate].
  destruct (stop_positions _ _) as [stop_pos|]; [|discriminate].
  destruct (reorder_cuts cl_u _) as [cl0|]; [|discriminate].
  destruct (reorder_cuts cr_u _) as [cr0|]; [|discriminate].
  destruct (resolve_loop _ _ _ _ _) as [[cut_l1 cut_r]|]; [|discriminate].
  destruct (emit_children _ _ _ _ _ _) as [[[paths' G'] children]|] eqn:E;
    [|discriminate].
  injection H as <-. cbn [pe_children pe_paths] in *.
  destruct (equal_cuts_dropped _ _ _ _ _ _ _ _ _ Hnd E) as (_ & Hsub & _ & Hgone).
  destruct (emit_children_covers _ _ _ _ _ _ _ _ _ E) as [_ Hcov].
  unfold add_path_links in Hlink. apply in_flat_map in Hlink.
  destruct Hlink as [p [Hp Hl]].
  destruct (link_at_adjacent p link Hl) as (a & b & -> & Hadj).
  assert (Hchild : forall c, In c p -> exists l r, In (c, l, r) children).
  { intros c Hc. destruct (Hsub c p Hp Hc) as (p0 & Hp0 & Hc0).
    assert (Hm : In c (set_order (concat paths))).
    { apply Hset. apply in_concat. now exists p0. }
    destruct (Hcov c Hm) as [Hin|[v [Hl1 Hr1]]]; [exact Hin|].
    exfalso. now apply (Hgone c v Hm Hl1 Hr1 p Hp). }
  exists a, b. split; [reflexivity|]. split; [now exists p|].
  destruct Hadj as (l1 & l2 & ->).
  split; apply Hchild; apply in_or_app; right; cbn; tauto.
Qed.

Lemma pinched_edges :
  add_path_edges 50 Py.sorted_set 100 [[1; 2; 3]] chain_graph [1] [3] [] pinched_cons
  = Some pinched_result.
Proof. vm_compute. reflexivity. Qed.

Lemma path_links_join_children_witness :
  exists a b,
    Some (1, 3) = Some (a, b) /\
    (exists p, In p (pe_paths pinched_result) /\ adjacent a b p) /\
    (exists l r, In (a, l, r) (pe_children pinched_result)) /\
    (exists l r, In (b, l, r) (pe_children pinched_result)).
Proof.
  apply (path_links_join_children 50 Py.sorted_set 100 [[1; 2; 3]] chain_graph
           [1] [3] [] pinched_cons pinched_result).
  - repeat constructor; cbn; intuition discriminate.
  - intros x Hx. apply sorted_set_In. exact Hx.
  - exact pinched_edges.
  - cbn. now left.
Defined.

Lemma equal_cuts_never_materialized_witness :
  (forall c l r, In (c, l, r) (pe_children pinched_result) ->
     cut_get (pe_cut_l pinched_result) c = Some (Some l)
     /\ cut_get (pe_cut_r pinched_result) c = Some (Some r) /\ l <> r) /\
  (forall c v, In c (Py.sorted_set (concat [[1; 2; 3]])) ->
     cut_get (pe_cut_l pinched_result) c = Some v ->
     cut_get (pe_cut_r pinched_result) c = Some v ->
     forall p, In p (pe_paths pinched_result) -> ~ In c p).
Proof.
  apply (equal_cuts_never_materialized 50 Py.sorted_set 100 [[1; 2; 3]] chain_graph
           [1] [3] [] pinched_cons pinched_result).
  - repeat constructor; cbn; intuition discriminate.
  - exact pinched_edges.
Defined.

Lemma drop_full_clears_witness :
  ~ In 3 (fst (fold_left drop_full [3] ([1; 3], [3; 4]))) /\
  ~ In 3 (snd (fold_left drop_full [3] ([1; 3], [3; 4]))).
Proof.
  apply (drop_full_clears [3] [1; 3] [3; 4]).
  - repeat constructor; cbn; intuition discriminate.
  - repeat constructor; cbn; intuition discriminate.
  - intros f [<-|[]]. cbn. tauto.
  - now left.
Defined.

(** ** Background clusters *)

Lemma filter_all {A : Type} (p : A -> bool) (l : list A) :
  (forall x, In x l -> p x = true) -> filter p l = l.
Proof.
  induction l as [|x r IH]; cbn [filter]; intros H; [reflexivity|].
  rewrite (H x (or_introl eq_refl)). f_equal. apply IH. intros y Hy. apply H. now right.
Qed.

Lemma list_remove_perm x l l' :
  Py.list_remove x l = Some l' -> Permutation l (x :: l').
Proof.
  revert l'. induction l as [|y r IH]; cbn [Py.list_remove]; intros l' H; [discriminate|].
  destruct (Z.eqb_spec y x) as [->|Hne].
  - injection H as <-. apply Permutation_refl.
  - destruct (Py.list_remove x r) as [r'|]; [|discriminate]. injection H as <-.
    eapply perm_trans; [apply perm_skip, IH; reflexivity | apply perm_swap].
Qed.

Lemma touches_phased_spec G full paths c ns :
  all_neighbors G c = Some ns ->
  touches_phased full paths ns = true <-> near_phased G full paths c.
Proof.
  unfold all_neighbors. destruct (has_node G c); [|discriminate].
  intros H. injection H as <-. unfold touches_phased, near_phased.
  rewrite orb_true_iff, !existsb_exists. split.
  - intros [[n [Hn Hm]]|[n [Hn Hm]]]; exists n; apply mem_In in Hm;
      (split; [|tauto]); apply in_app_or in Hn;
      (destruct Hn as [Hn|Hn];
       [right; now apply in_predecessors | left; now apply in_successors]).
  - intros [n [Hn Hm]].
    assert (Hin : In n (predecessors G c ++ successors G c)).
    { apply in_or_app. destruct Hn as [Hn|Hn];
        [right; now apply in_successors | left; now apply in_predecessors]. }
    destruct Hm as [Hm|Hm]; [left | right]; exists n;
      (split; [assumption | now apply mem_In]).
Qed.

Section CloseLoop.

Variables (G : DiGraph) (full_clusters : list Z) (paths : list (list Z)).

Lemma close_loop_shrinks todo : forall othercl close othercl' close',
  close_loop G full_clusters paths todo (othercl, close) = Some (othercl', close') ->
  incl othercl' othercl.
Proof.
  induction todo as [|c0 rest IH]; intros othercl close othercl' close' H;
    cbn [close_loop] in H.
  - injection H as <- <-. apply incl_refl.
  - unfold bind in H. cbn [close_round] in H. unfold bind at 1 in H.
    destruct (all_neighbors G c0) as [ns|]; [|discriminate].
    destruct (touches_phased full_clusters paths ns).
    + unfold bind at 1 in H.
      destruct (Py.list_remove c0 othercl) as [o1|] eqn:Er; [|discriminate].
      intros x Hx. apply (list_remove_In c0 othercl o1 Er). now apply (IH _ _ _ _ H).
    + now apply (IH _ _ _ _ H).
Qed.

(** The loop over a copy of [othercl]: what is still to come is still
    in [othercl]; the clusters taken out are next to a phased cluster,
    and those passed over are not. *)
Lemma close_loop_spec todo : forall othercl close othercl' close',
  NoDup todo -> NoDup othercl -> incl todo othercl ->
  close_loop G full_clusters paths todo (othercl, close) = Some (othercl', close') ->
  Permutation (othercl' ++ close') (othercl ++ close) /\
  (forall c, In c close' ->
     In c close \/ near_phased G full_clusters paths c) /\
  (forall c, In c othercl' -> In c todo ->
     ~ near_phased G full_clusters paths c).
Proof.
  induction todo as [|c0 rest IH]; intros othercl close othercl' close' Hnd Hndo Hincl H;
    cbn [close_loop] in H.
  - injection H as <- <-. split; [apply Permutation_refl|]. split; [auto | contradiction].
  - inversion Hnd as [|? ? Hc0 Hnd_rest]; subst.
    unfold bind in H. cbn [close_round] in H. unfold bind at 1 in H.
    destruct (all_neighbors G c0) as [ns|] eqn:En; [|discriminate].
    pose proof (touches_phased_spec G full_clusters paths c0 ns En) as Hspec.
    destruct (touches_phased full_clusters paths ns) eqn:Et.
    + unfold bind at 1 in H.
      destruct (Py.list_remove c0 othercl) as [o1|] eqn:Er; [|discriminate].
      assert (Hincl1 : incl rest o1).
      { intros x Hx. apply (list_remove_keeps c0 othercl o1 Er).
        - intros ->. contradiction.
        - apply Hincl. now right. }
      assert (Hndo1 : NoDup o1).
      { rewrite list_remove_filter in Er by (auto; apply Hincl; now left).
        injection Er as <-. now apply NoDup_filter. }
      destruct (IH _ _ _ _ Hnd_rest Hndo1 Hincl1 H) as (Hperm & Hclose & Hkeep).
      split.
      { eapply perm_trans; [exact Hperm|].
        apply list_remove_perm in Er.
        eapply perm_trans; [|apply Permutation_app_tail; apply Permutation_sym; exact Er].
        rewrite app_assoc. cbn [app].
        apply Permutation_sym. apply Permutation_cons_app.
        rewrite app_nil_r. apply Permutation_refl. }
      split.
      { intros c Hc. destruct (Hclose c Hc) as [Hin|Hn]; [|now right].
        apply in_app_or in Hin. destruct Hin as [Hin|[<-|[]]]; [now left|].
        right. now apply Hspec. }
      intros c Hc [<-|Hin]; [|now apply Hkeep].
      exfalso. apply (list_remove_NoDup c0 othercl o1 Hndo Er).
      now apply (close_loop_shrinks _ _ _ _ _ H).
    + destruct (IH _ _ _ _ Hnd_rest Hndo (fun x Hx => Hincl x (or_intror Hx)) H)
        as (Hperm & Hclose & Hkeep).
      split; [assumption|]. split; [assumption|].
      intros c Hc [<-|Hin]; [|now apply Hkeep].
      intros Hn. apply Hspec in Hn. discriminate.
Qed.

End CloseLoop.

(** X15. The clusters that are neither full nor on a path are split in
    two: [othercl], which goes on to [change_cov], holds those with no
    link to a full cluster or to a cluster on a path, and
    [close_to_full] holds the others.  The two lists have as many
    entries as there are clusters exactly when no cluster is full, on a
    path or moved to [close_to_full]: that is when the guard
    [len(clusters) - len(othercl) != 0] is false. *)
Theorem background_clusters_partition (set_order : list Z -> list Z) (G : DiGraph)
    (clusters full_clusters : list Z) (paths : list (list Z))
    (othercl close_to_full : list Z) :
  NoDup clusters ->
  Permutation (set_order (unphased clusters full_clusters paths))
              (unphased clusters full_clusters paths) ->
  background_clusters set_order G clusters full_clusters paths
  = Some (othercl, close_to_full) ->
  Permutation (othercl ++ close_to_full) (unphased clusters full_clusters paths) /\
  (forall c, In c othercl -> ~ near_phased G full_clusters paths c) /\
  (forall c, In c close_to_full -> near_phased G full_clusters paths c) /\
  (some_phased_out clusters othercl = false <->
   close_to_full = [] /\
   forall c, In c clusters -> ~ In c full_clusters /\ ~ In c (concat paths)).
Proof.
  intros Hnd Hset H. unfold background_clusters, other_clusters in H.
  fold (unphased clusters full_clusters paths) in H.
  set (X := unphased clusters full_clusters paths) in *.
  assert (HndX : NoDup X) by (apply NoDup_filter; assumption).
  assert (Hnds : NoDup (set_order X))
    by (apply (Permutation_NoDup (Permutation_sym Hset)); assumption).
  destruct (close_loop_spec G full_clusters paths _ _ _ _ _ Hnds Hnds
              (incl_refl _) H) as (Hperm & Hclose & Hkeep).
  rewrite app_nil_r in Hperm.
  assert (HpermX : Permutation (othercl ++ close_to_full) X)
    by (eapply perm_trans; eauto).
  split; [exact HpermX|].
  split.
  { intros c Hc. apply Hkeep; [assumption|].
    apply (close_loop_shrinks _ _ _ _ _ _ _ _ H). assumption. }
  split.
  { intros c Hc. destruct (Hclose c Hc) as [[]|Hn]. exact Hn. }
  assert (Hlen : (length othercl + length close_to_full = length X)%nat).
  { rewrite <- length_app. now apply Permutation_length. }
  assert (HlenX : (length X <= length clusters)%nat) by apply filter_length_le.
  assert (Hall : length X = length clusters <->
                 forall c, In c clusters -> ~ In c full_clusters /\ ~ In c (concat paths)).
  { unfold X, unphased. split.
    - intros E c Hc. apply filter_keeps_all in E.
      rewrite <- E in Hc. apply filter_In in Hc. destruct Hc as [_ Hc].
      apply andb_prop in Hc. destruct Hc as [H1 H2].
      apply negb_true_iff in H1, H2. split; now apply mem_false.
    - intros Hc. f_equal. apply filter_all. intros c Hin.
      destruct (Hc c Hin) as [H1 H2].
      apply mem_false in H1, H2. now rewrite H1, H2. }
  split.
  - intros Hs.
    assert (Heq : length clusters = length othercl).
    { destruct (Nat.eq_dec (length clusters) (length othercl)) as [E|E]; [assumption|].
      apply some_phased_out_spec in E. congruence. }
    split.
    + destruct close_to_full; [reflexivity | cbn [length] in Hlen; lia].
    + apply Hall. lia.
  - intros [-> Hc]. apply Hall in Hc. rewrite Nat.add_0_r in Hlen.
    destruct (some_phased_out clusters othercl) eqn:E; [|reflexivity].
    apply some_phased_out_spec in E. lia.
Qed.

Lemma background_clusters_partition_witness :
  Permutation ([4; 5] ++ [3]) (unphased [1; 2; 3; 4; 5] [] [[1; 2]]) /\
  (forall c, In c [4; 5] -> ~ near_phased background_graph [] [[1; 2]] c) /\
  (forall c, In c [3] -> near_phased background_graph [] [[1; 2]] c) /\
  (some_phased_out [1; 2; 3; 4; 5] [4; 5] = false <->
   [3] = [] /\
   forall c, In c [1; 2; 3; 4; 5] -> ~ In c [] /\ ~ In c (concat [[1; 2]])).
Proof.
  apply (background_clusters_partition Py.sorted_set background_graph).
  - repeat constructor; cbn; intuition discriminate.
  - apply Permutation_refl.
  - vm_compute. reflexivity.
Defined.

(** ** Child segments *)

Import FlyeConsensus ChildEdges.

Lemma py_slice_exact {A : Type} (l : list A) (a b : Z) :
  0 <= a <= b -> b <= Z.of_nat (length l) ->
  Z.of_nat (length (py_slice l a b)) = b - a.
Proof.
  intros H Hb. unfold py_slice, clamp_index.
  destruct (Z.ltb_spec a 0); [lia|]. destruct (Z.ltb_spec b 0); [lia|].
  rewrite length_firstn, length_skipn. lia.
Qed.

Lemma py_slice_empty {A : Type} (l : list A) (a b : Z) :
  0 <= b <= a -> py_slice l a b = [].
Proof.
  intros H. unfold py_slice, clamp_index.
  destruct (Z.ltb_spec a 0); [lia|]. destruct (Z.ltb_spec b 0); [lia|].
  replace (Z.to_nat (Z.min b (Z.of_nat (length l)) - Z.min a (Z.of_nat (length l))))
    with O by lia.
  reflexivity.
Qed.

(** X16. The sequence of a child segment is never longer than the cut
    interval: with a left cut that is not negative and a right cut not
    before the start of the consensus, it has at most
    [right - left + 1] bases, and exactly that many when the consensus
    starts at or before the left cut and reaches the right cut. *)
Theorem child_sequence_within_cuts (consensus : Consensus)
    (main_seq : option string) (left right : Z) (seq : list ascii) :
  0 <= left -> left <= right + 1 -> c_start consensus <= right + 1 ->
  child_sequence consensus main_seq left right = Some seq ->
  Z.of_nat (length seq) <= right - left + 1 /\
  (c_start consensus <= left ->
   right - c_start consensus + 1
     <= Z.of_nat (String.length (FlyeConsensus.consensus consensus)) ->
   Z.of_nat (length seq) = right - left + 1).
Proof.
  intros Hl Hlr Hcs. unfold child_sequence, bind.
  set (text := list_ascii_of_string (FlyeConsensus.consensus consensus)).
  destruct (Z.gtb_spec (c_start consensus) left) as [Hgt|Hle].
  - destruct main_seq as [main|]; [|discriminate].
    intros H. injection H as <-. split; [|lia].
    rewrite length_app, Nat2Z.inj_add.
    pose proof (py_slice_length (list_ascii_of_string main) left (c_start consensus)).
    pose proof (py_slice_length text 0 (right - c_start consensus + 1)).
    lia.
  - intros H. injection H as <-. split.
    + pose proof (py_slice_length text (left - c_start consensus)
                    (right - c_start consensus + 1)).
      lia.
    + intros _ Hlen. rewrite py_slice_exact; [lia | lia |].
      unfold text.
      assert (Hsl : forall s, length (list_ascii_of_string s) = String.length s)
        by (induction s; cbn; congruence).
      rewrite Hsl. exact Hlen.
Qed.

(** X17. A cluster whose right cut lies before its left cut, both at or
    after the start of its consensus, gets no segment: the sequence is
    empty and the segment line goes to [remove_zeroes]. *)
Theorem crossed_cuts_give_no_segment (edge : string) (clN : Z)
    (main_seq : option string) (consensus : Consensus) (left right : Z)
    (cons : Z -> option ClusterInfo) :
  c_start consensus <= right + 1 -> right + 1 <= left ->
  add_child_edge edge clN main_seq consensus left right cons
  = Some (Zero ("S" ++ tab ++ edge ++ "_" ++ str clN ++ tab ++ "*")).
Proof.
  intros Hcs Hx. unfold add_child_edge, child_sequence, bind.
  destruct (Z.gtb_spec (c_start consensus) left) as [Hgt|Hle]; [lia|].
  rewrite py_slice_empty by lia. reflexivity.
Qed.

Lemma child_sequence_within_cuts_witness :
  Z.of_nat (length (list_ascii_of_string "GTAC")) <= 5 - 2 + 1 /\
  (0 <= 2 -> 5 - 0 + 1 <= Z.of_nat (String.length "ACGTACGT") ->
   Z.of_nat (length (list_ascii_of_string "GTAC")) = 5 - 2 + 1).
Proof.
  apply (child_sequence_within_cuts (mkConsensus "ACGTACGT" 0 8) None 2 5);
    [lia | lia | cbn; lia | reflexivity].
Defined.

Lemma crossed_cuts_give_no_segment_witness :
  add_child_edge "edge_1" 2 None (mkConsensus "ACGTACGT" 100 108) 750 525 fork_cons
  = Some (Zero ("S" ++ tab ++ "edge_1_2" ++ tab ++ "*")).
Proof.
  apply (crossed_cuts_give_no_segment "edge_1" 2 None (mkConsensus "ACGTACGT" 100 108)
           750 525 fork_cons); cbn; lia.
Defined.

(** ** The extent of a cluster *)

Import FlyeConsensus.

Lemma widen_other edge ext x :
  String.eqb (reference_name x) edge = false -> widen edge ext x = ext.
Proof. intros H. unfold widen. destruct ext. now rewrite H. Qed.

Lemma fold_widen_filter edge alns : forall ext,
  fold_left (widen edge) alns ext
  = fold_left (widen edge) (filter (fun x => String.eqb (reference_name x) edge) alns) ext.
Proof.
  induction alns as [|x r IH]; intros ext; cbn [fold_left filter]; [reflexivity|].
  destruct (String.eqb (reference_name x) edge) eqn:E; cbn [fold_left].
  - apply IH.
  - rewrite widen_other by assumption. apply IH.
Qed.

Lemma extract_reads_fold read_names name_indexed edge : forall ext,
  fold_left
    (fun ext name =>
       match name_indexed name with
       | None => ext
       | Some alns => fold_left (widen edge) alns ext
       end)
    read_names ext
  = fold_left (widen edge) (read_list read_names name_indexed edge) ext.
Proof.
  induction read_names as [|n r IH]; intros ext; cbn [fold_left]; [reflexivity|].
  unfold read_list. cbn [flat_map]. rewrite fold_left_app.
  destruct (name_indexed n) as [alns|]; cbn [fold_left].
  - rewrite <- fold_widen_filter. apply IH.
  - apply IH.
Qed.

(** The running extent over alignments of the edge with coordinates
    that are not negative: once an alignment has been seen, the extent
    is the least start and the greatest end so far. *)
Lemma fold_widen_extent edge l : forall s e seen,
  (forall x, In x l ->
     String.eqb (reference_name x) edge = true
     /\ 0 <= reference_start x /\ 0 <= reference_end x) ->
  (seen = [] /\ s = -1 /\ e = -1 \/
   seen <> [] /\ 0 <= s /\ 0 <= e /\
   (forall x, In x seen -> s <= reference_start x /\ reference_end x <= e) /\
   (exists x, In x seen /\ reference_start x = s) /\
   (exists x, In x seen /\ reference_end x = e)) ->
  let r := fold_left (widen edge) l (s, e) in
  (seen ++ l = [] /\ r = (-1, -1) \/
   seen ++ l <> [] /\
   (forall x, In x (seen ++ l) -> fst r <= reference_start x /\ reference_end x <= snd r) /\
   (exists x, In x (seen ++ l) /\ reference_start x = fst r) /\
   (exists x, In x (seen ++ l) /\ reference_end x = snd r)).
Proof.
  induction l as [|x rest IH]; intros s e seen Hl Hinv; cbn [fold_left].
  - rewrite app_nil_r. cbn [fst snd].
    destruct Hinv as [(-> & -> & ->)|(Hne & _ & _ & Hb & Hs & He)]; [now left|].
    right. auto.
  - destruct (Hl x (or_introl eq_refl)) as (Hx & Hxs & Hxe).
    replace (seen ++ x :: rest) with ((seen ++ [x]) ++ rest)
      by (now rewrite <- app_assoc).
    cbn [widen]. rewrite Hx.
    apply IH.
    + intros y Hy. apply Hl. now right.
    + right. split; [intros E; apply app_eq_nil in E; destruct E; discriminate|].
      destruct Hinv as [(-> & -> & ->)|(Hne & Hs0 & He0 & Hb & [xs [Hxs1 Hxs2]] & [xe [Hxe1 Hxe2]])].
      * cbn [app]. change (-1 =? -1) with true. rewrite !orb_true_r.
        split; [assumption|]. split; [assumption|].
        split; [intros y [<-|[]]; lia|].
        split; exists x; (split; [now left | reflexivity]).
      * assert (E1 : (s =? -1) = false) by (apply Z.eqb_neq; lia).
        assert (E2 : (e =? -1) = false) by (apply Z.eqb_neq; lia).
        rewrite E1, E2, !orb_false_r.
        destruct (Z.ltb_spec (reference_start x) s) as [Hlt|Hge];
        destruct (Z.gtb_spec (reference_end x) e) as [Hgt|Hle].
        all: split; [lia|]; split; [lia|].
        all: split; [intros y Hy; apply in_app_or in Hy;
                     destruct Hy as [Hy|[<-|[]]]; [destruct (Hb y Hy); lia | lia]|].
        all: split.
        all: try (exists x; split; [apply in_or_app; right; now left | reflexivity]).
        all: try (exists xs; split; [apply in_or_app; now left | assumption]).
        all: try (exists xe; split; [apply in_or_app; now left | assumption]).
Qed.

(** X18. [extract_reads] returns the extent of the cluster on the edge:
    with coordinates that are not negative, the least start and the
    greatest end among the alignments it collects, and [(-1, -1)] when it
    collects none. *)
Theorem extract_reads_extent (read_names : list string)
    (name_indexed : string -> option (list Alignment)) (edge : string) :
  (forall x, In x (read_list read_names name_indexed edge) ->
     0 <= reference_start x /\ 0 <= reference_end x) ->
  let found := read_list read_names name_indexed edge in
  let r := extract_reads read_names name_indexed edge in
  (found = [] /\ r = (-1, -1)) \/
  (found <> [] /\
   (forall x, In x found -> fst r <= reference_start x /\ reference_end x <= snd r) /\
   (exists x, In x found /\ reference_start x = fst r) /\
   (exists x, In x found /\ reference_end x = snd r)).
Proof.
  intros Hpos found r. unfold r, extract_reads. rewrite extract_reads_fold.
  fold found.
  apply (fold_widen_extent edge found (-1) (-1) []); [|now left].
  intros x Hx. split; [|now apply Hpos].
  unfold found, read_list in Hx. apply in_flat_map in Hx.
  destruct Hx as [n [_ Hx]]. destruct (name_indexed n); [|contradiction].
  apply filter_In in Hx. tauto.
Qed.

Lemma extract_reads_extent_witness :
  let found := read_list ["a"; "b"; "f"; "zz"]%string sample_alignments "edge_1" in
  let r := extract_reads ["a"; "b"; "f"; "zz"]%string sample_alignments "edge_1" in
  (found = [] /\ r = (-1, -1)) \/
  (found <> [] /\
   (forall x, In x found -> fst r <= reference_start x /\ reference_end x <= snd r) /\
   (exists x, In x found /\ reference_start x = fst r) /\
   (exists x, In x found /\ reference_end x = snd r)).
Proof.
  apply (extract_reads_extent ["a"; "b"; "f"; "zz"]%string sample_alignments "edge_1").
  intros x Hx. cbn in Hx. destruct Hx as [<-|[<-|[]]]; cbn; lia.
Defined.

(** ** Cleanup after a successful run *)

Lemma string_length_append (s1 s2 : string) :
  String.length (s1 ++ s2) = (String.length s1 + String.length s2)%nat.
Proof. induction s1; cbn; congruence. Qed.

Lemma append_inj (s a b : string) : (s ++ a = s ++ b)%string -> a = b.
Proof. induction s; cbn; intros H; [assumption|]. injection H as H. auto. Qed.

(** The five temporary paths of a call are different from each other. *)
Lemma temp_files_distinct edge cluster : NoDup (temp_files edge cluster).
Proof.
  unfold temp_files, reads_bam, sorted_bam, sorted_bai, cut_fasta, polish_dir.
  assert (H1 : forall s : string,
            ("cluster_" ++ s ++ "_reads.bam" <> "cluster_" ++ s ++ "_reads_sorted.bam")%string).
  { intros s H. apply append_inj, append_inj in H. discriminate. }
  assert (H2 : forall s : string,
            ("cluster_" ++ s ++ "_reads.bam" <> "cluster_" ++ s ++ "_reads_sorted.bam.bai")%string).
  { intros s H. apply append_inj, append_inj in H. discriminate. }
  assert (H3 : forall s : string,
            ("cluster_" ++ s ++ "_reads_sorted.bam"
             <> "cluster_" ++ s ++ "_reads_sorted.bam.bai")%string).
  { intros s H. apply append_inj, append_inj in H. discriminate. }
  assert (H4 : forall e s : string,
            ("output/" ++ e ++ "-cluster" ++ s ++ ".fa"
             <> "output/flye_consensus_" ++ e ++ "_" ++ s)%string).
  { intros e s H. apply (f_equal String.length) in H.
    rewrite !string_length_append in H. cbn in H. lia. }
  repeat constructor; cbn [In]; intros H;
    repeat (destruct H as [H|H]; try contradiction).
  all: try (now apply H1 in H); try (now apply H2 in H); try (now apply H3 in H);
    try (now apply H4 in H).
  all: try (symmetry in H; first [now apply H1 in H | now apply H2 in H
                                  | now apply H3 in H | now apply H4 in H]).
  all: try (cbn in H; discriminate H).
  all: contradiction.
Qed.

Lemma has_file_create f g w :
  has_file (create g w) f = has_file w f || String.eqb f g.
Proof.
  unfold create. destruct (has_file w g) eqn:E.
  - destruct (String.eqb_spec f g) as [->|]; [now rewrite E | now rewrite orb_false_r].
  - unfold has_file. cbn [files]. rewrite existsb_app. cbn. now rewrite orb_false_r.
Qed.

Lemma remove_spec f w :
  has_file w f = true ->
  exists w', remove f w = Some w'
             /\ files w' = filter (fun g => negb (String.eqb f g)) (files w)
             /\ polish_runs w' = polish_runs w
             /\ forall g, has_file w' g = has_file w g && negb (String.eqb f g).
Proof.
  intros H. unfold remove. rewrite H. eexists. split; [reflexivity|].
  cbn [files polish_runs]. split; [reflexivity|]. split; [reflexivity|].
  intros g. unfold has_file. cbn [files].
  induction (files w) as [|x r IH]; cbn; [reflexivity|].
  destruct (String.eqb_spec f x) as [->|Hfx]; cbn.
  - rewrite IH. destruct (String.eqb_spec g x) as [->|Hgx]; cbn.
    + rewrite String.eqb_refl. cbn. now rewrite andb_false_r.
    + reflexivity.
  - rewrite IH. destruct (String.eqb_spec g x) as [->|Hgx]; cbn; [|reflexivity].
    destruct (String.eqb_spec f x); [contradiction | reflexivity].
Qed.

Lemma filter_create (p : string -> bool) f w :
  p f = false -> filter p (files (create f w)) = filter p (files w).
Proof.
  intros H. unfold create. destruct (has_file w f); [reflexivity|].
  cbn [files]. rewrite filter_app. cbn. rewrite H. apply app_nil_r.
Qed.

(** X19. A call of [flye_consensus] in which every tool succeeds leaves
    none of its five temporary paths behind, whatever was on disk
    before: the files afterwards are those from before other than the
    temporary paths, and the polisher has run once. *)
Theorem successful_call_cleans_up (env : Env) (cluster : Z) (edge : string)
    (cl : list Row) (w : World) (sequence : string) (out : option string) :
  gfa_sequence env edge = Some sequence ->
  sort_ok env cluster = true ->
  index_ok env cluster = true ->
  polish env edge cluster = Some out ->
  exists w' c,
    flye_consensus env cluster edge cl w = (w', Returned c) /\
    files w' = filter (not_temp edge cluster) (files w) /\
    polish_runs w' = polish_runs w ++ [(edge, cluster)] /\
    consensus c = match out with Some s => s | None => ""%string end /\
    (c_start c, c_end c) = extract_reads (cluster_reads cl cluster) (name_indexed env) edge.
Proof.
  intros Hg Hs Hi Hp. unfold flye_consensus.
  destruct (extract_reads _ _ _) as [cluster_start cluster_end].
  rewrite Hg, Hs, Hi, Hp. cbn [negb].
  pose proof (temp_files_distinct edge cluster) as Hnd.
  unfold temp_files in Hnd.
  assert (Hne : forall a b : string, a <> b -> String.eqb a b = false)
    by (intros a b H; now apply String.eqb_neq).
  inversion Hnd as [|? ? Hr Hnd1]; subst. inversion Hnd1 as [|? ? Hsb Hnd2]; subst.
  inversion Hnd2 as [|? ? Hbai Hnd3]; subst. inversion Hnd3 as [|? ? Hfa _]; subst.
  cbn [In] in Hr, Hsb, Hbai, Hfa.
  set (w1 := create (reads_bam cluster) w).
  set (w2 := create (cut_fasta edge cluster) w1).
  set (w3 := create (sorted_bam cluster) w2).
  set (w4 := create (sorted_bai cluster) w3).
  set (w5 := mkWorld (files w4) (polish_runs w4 ++ [(edge, cluster)])).
  set (w6 := create (polish_dir edge cluster) w5).
  assert (Hhas : forall f, In f (temp_files edge cluster) -> has_file w6 f = true).
  { intros f Hf. unfold w6. rewrite has_file_create.
    assert (E5 : forall g, has_file w5 g = has_file w4 g) by reflexivity.
    rewrite E5. unfold w4, w3, w2, w1. rewrite !has_file_create.
    unfold temp_files in Hf. cbn [In] in Hf.
    destruct Hf as [<-|[<-|[<-|[<-|[<-|[]]]]]]; rewrite String.eqb_refl;
      now rewrite ?orb_true_r. }
  destruct (remove_spec (cut_fasta edge cluster) w6) as (w7 & E7 & F7 & R7 & H7).
  { apply Hhas. unfold temp_files. cbn. tauto. }
  rewrite E7.
  destruct (remove_spec (reads_bam cluster) w7) as (w8 & E8 & F8 & R8 & H8).
  { rewrite H7, Hhas by (unfold temp_files; cbn; tauto).
    rewrite Hne by (intros E; apply Hr; rewrite <- E; tauto). reflexivity. }
  rewrite E8.
  destruct (remove_spec (sorted_bam cluster) w8) as (w9 & E9 & F9 & R9 & H9).
  { rewrite H8, H7, Hhas by (unfold temp_files; cbn; tauto).
    rewrite Hne by (intros E; apply Hsb; rewrite <- E; tauto).
    rewrite Hne by (intros E; apply Hr; rewrite E; tauto). reflexivity. }
  rewrite E9.
  destruct (remove_spec (sorted_bai cluster) w9) as (w10 & E10 & F10 & R10 & H10).
  { rewrite H9, H8, H7, Hhas by (unfold temp_files; cbn; tauto).
    rewrite Hne by (intros E; apply Hbai; rewrite <- E; tauto).
    rewrite Hne by (intros E; apply Hr; rewrite E; tauto).
    rewrite Hne by (intros E; apply Hsb; rewrite E; tauto). reflexivity. }
  rewrite E10.
  destruct (remove_spec (polish_dir edge cluster) w10) as (w11 & E11 & F11 & R11 & H11).
  { rewrite H10, H9, H8, H7, Hhas by (unfold temp_files; cbn; tauto).
    rewrite Hne by (intros E; apply Hfa; rewrite E; tauto).
    rewrite Hne by (intros E; apply Hr; rewrite E; tauto).
    rewrite Hne by (intros E; apply Hsb; rewrite E; tauto).
    rewrite Hne by (intros E; apply Hbai; rewrite E; tauto). reflexivity. }
  rewrite E11.
  exists w11, (mkConsensus (match out with Some s => s | None => ""%string end)
                 cluster_start cluster_end).
  split; [reflexivity|]. split; [|split; [|split; reflexivity]].
  - rewrite F11, F10, F9, F8, F7. rewrite !filter_twice.
    transitivity (filter (not_temp edge cluster) (files w6)).
    { apply filter_ext. intros x. unfold not_temp, temp_files.
      cbn [existsb].
      rewrite (String.eqb_sym x (reads_bam cluster)),
              (String.eqb_sym x (sorted_bam cluster)),
              (String.eqb_sym x (sorted_bai cluster)),
              (String.eqb_sym x (cut_fasta edge cluster)),
              (String.eqb_sym x (polish_dir edge cluster)).
      destruct (String.eqb (cut_fasta edge cluster) x),
               (String.eqb (reads_bam cluster) x),
               (String.eqb (sorted_bam cluster) x),
               (String.eqb (sorted_bai cluster) x),
               (String.eqb (polish_dir edge cluster) x); reflexivity. }
    assert (Hnt : forall f, In f (temp_files edge cluster) -> not_temp edge cluster f = false).
    { intros f Hf. unfold not_temp. apply negb_false_iff. apply existsb_exists.
      exists f. split; [assumption | apply String.eqb_refl]. }
    unfold w6. rewrite filter_create by (apply Hnt; unfold temp_files; cbn; tauto).
    change (files w5) with (files w4). unfold w4, w3, w2, w1.
    rewrite !filter_create by (apply Hnt; unfold temp_files; cbn; tauto).
    reflexivity.
  - rewrite R11, R10, R9, R8, R7. unfold w6. rewrite create_runs.
    cbn [w5 polish_runs]. unfold w4, w3, w2, w1. now rewrite !create_runs.
Qed.

Lemma successful_call_cleans_up_witness :
  exists w' c,
    flye_consensus tools_ok 1 "edge_1" sample_clusters
      (mkWorld ["notes.txt"; "cluster_1_reads.bam"]%string []) = (w', Returned c) /\
    files w' = filter (not_temp "edge_1" 1) ["notes.txt"; "cluster_1_reads.bam"]%string /\
    polish_runs w' = [] ++ [("edge_1"%string, 1)] /\
    consensus c = "ACGTAC"%string /\
    (c_start c, c_end c)
    = extract_reads (cluster_reads sample_clusters 1) (name_indexed tools_ok) "edge_1".
Proof.
  apply (successful_call_cleans_up tools_ok 1 "edge_1" sample_clusters
           (mkWorld ["notes.txt"; "cluster_1_reads.bam"]%string [])
           "ACGTACGT" (Some "ACGTAC"%string)); reflexivity.
Defined.

(** ** Symmetry and zero of the consensus distance *)

Lemma pair_score_sym a b : pair_score a b = pair_score b a.
Proof. unfold pair_score. now rewrite Ascii.eqb_sym. Qed.

Lemma align_score_nil_l t : align_score [] t = - Z.of_nat (length t).
Proof. reflexivity. Qed.

Lemma align_score_sym s : forall t, align_score s t = align_score t s.
Proof.
  induction s as [|a s IHs]; intros t.
  - now rewrite align_score_nil_l, align_score_nil_r.
  - induction t as [|b t IHt].
    + now rewrite align_score_nil_l, align_score_nil_r.
    + rewrite !align_score_cons.
      rewrite (IHs t), (IHs (b :: t)), IHt, (pair_score_sym a b). lia.
Qed.

Lemma align_score_self s : align_score s s = Z.of_nat (length s).
Proof.
  induction s as [|a s IH]; [reflexivity|].
  pose proof (align_score_bounds (a :: s) (a :: s)) as Hb.
  rewrite align_score_cons in *. rewrite IH in *.
  unfold pair_score in *. rewrite Ascii.eqb_refl in *.
  cbn [length] in *. lia.
Qed.

(** X20. The distance between two consensus dictionaries does not
    depend on which of the two clusters comes first. *)
Theorem consensus_distance_symmetric (first_cl_dict second_cl_dict : Consensus) :
  consensus_distance first_cl_dict second_cl_dict
  = consensus_distance second_cl_dict first_cl_dict.
Proof.
  unfold consensus_distance.
  rewrite (Z.max_comm (c_start second_cl_dict) (c_start first_cl_dict)).
  rewrite (Z.min_comm (c_end second_cl_dict) (c_end first_cl_dict)).
  set (intersection_start := Z.max (c_start first_cl_dict) (c_start second_cl_dict)).
  set (intersection_end := Z.min (c_end first_cl_dict) (c_end second_cl_dict)).
  set (a := py_slice (list_ascii_of_string (consensus first_cl_dict)) _ _).
  set (b := py_slice (list_ascii_of_string (consensus second_cl_dict)) _ _).
  rewrite (align_score_sym b a).
  destruct (intersection_end - intersection_start <? 1),
           (Z.of_nat (length a) =? 0), (Z.of_nat (length b) =? 0); reflexivity.
Qed.

(** X21. A consensus that is at least as long as the interval it stands
    for is at distance 0 from itself. *)
Theorem consensus_distance_to_itself (c : Consensus) :
  1 <= c_end c - c_start c ->
  c_end c - c_start c <= Z.of_nat (String.length (consensus c)) ->
  (consensus_distance c c == 0)%Q.
Proof.
  intros Hlen Hcov. unfold consensus_distance.
  rewrite Z.max_id, Z.min_id, Z.sub_diag.
  set (text := list_ascii_of_string (consensus c)).
  assert (Hsl : Z.of_nat (length text) = Z.of_nat (String.length (consensus c))).
  { unfold text. f_equal. generalize (consensus c).
    induction s; cbn; congruence. }
  assert (Hclip : Z.of_nat (length (py_slice text 0 (c_end c - c_start c)))
                  = c_end c - c_start c).
  { rewrite py_slice_exact; lia. }
  destruct (Z.ltb_spec (c_end c - c_start c) 1) as [|_]; [lia|].
  rewrite Hclip.
  destruct (Z.eqb_spec (c_end c - c_start c) 0) as [|_]; [lia|]. cbn [orb].
  rewrite align_score_self, Hclip.
  set (n := c_end c - c_start c) in *.
  unfold Qeq, Qminus, Qplus, Qopp, Qdiv, Qmult, Qinv, inject_Z.
  destruct n as [|n|n]; try lia. cbn [Qnum Qden].
  rewrite ?Pos2Z.inj_mul, ?Pos.mul_1_l, ?Pos.mul_1_r. lia.
Qed.

Lemma consensus_distance_to_itself_witness :
  (consensus_distance (mkConsensus "ACGTAC" 0 6) (mkConsensus "ACGTAC" 0 6) == 0)%Q.
Proof.
  apply (consensus_distance_to_itself (mkConsensus "ACGTAC" 0 6)); cbn; lia.
Defined.

(** ** Anchors that are linked to each other *)

(** A direct link between distinct nodes is among the simple paths,
    once the graph has two nodes. *)
Lemma direct_path_found G u v :
  (2 <= length (nodes G))%nat ->
  In (u, v) (edges G) -> u <> v ->
  In [u; v] (simple_paths_from G u [v]).
Proof.
  intros Hlen Huv Hne. unfold simple_paths_from.
  assert (Hm : Py.mem u [v] = false) by (apply mem_false; intros [E|[]]; congruence).
  rewrite Hm.
  destruct (Z.ltb_spec (Z.of_nat (length (nodes G)) - 1) 1) as [Hlt|_]; [lia|].
  destruct (Z.to_nat (Z.of_nat (length (nodes G)) - 1)) as [|fuel] eqn:Ef; [lia|].
  cbn [simple_paths]. apply in_flat_map. exists v. split; [now apply in_successors|].
  assert (Hv1 : Py.mem v [u] = false) by (apply mem_false; intros [E|[]]; congruence).
  assert (Hv2 : Py.mem v [v] = true) by (apply mem_In; now left).
  rewrite Hv1, Hv2. now left.
Qed.

Lemma direct_links_grows G forward node ns : forall acc out,
  direct_links G forward node ns acc = Some out -> incl acc out.
Proof.
  induction ns as [|n r IH]; intros acc out H; cbn [direct_links] in H.
  - injection H as <-. apply incl_refl.
  - unfold bind in H.
    destruct (if forward then all_simple_paths_to G node n
              else all_simple_paths_to G n node) as [ps|]; [|discriminate].
    apply IH in H. intros p Hp. apply H. apply in_or_app. now left.
Qed.

Lemma direct_links_collects G forward node ns : forall acc out n ps p,
  direct_links G forward node ns acc = Some out ->
  In n ns ->
  (if forward then all_simple_paths_to G node n
   else all_simple_paths_to G n node) = Some ps ->
  In p ps -> length p = 2%nat -> In n out.
Proof.
  induction ns as [|n0 r IH]; intros acc out n ps p H Hn Hps Hp Hlen; [contradiction|].
  cbn [direct_links] in H. unfold bind in H.
  destruct (if forward then all_simple_paths_to G node n0
            else all_simple_paths_to G n0 node) as [ps0|] eqn:E0; [|discriminate].
  destruct Hn as [->|Hn].
  - rewrite Hps in E0. injection E0 as <-.
    apply (direct_links_grows _ _ _ _ _ _ H). apply in_or_app. right.
    apply in_map_iff. exists p. split; [reflexivity|].
    apply filter_In. split; [assumption|]. rewrite Hlen. reflexivity.
  - now apply (IH _ _ n ps p H).
Qed.

Lemma anchor_links_grows G forward anchors todo : forall acc out,
  anchor_links G forward anchors todo acc = Some out -> incl acc out.
Proof.
  induction todo as [|n r IH]; intros acc out H; cbn [anchor_links] in H.
  - injection H as <-. apply incl_refl.
  - unfold bind in H.
    destruct (direct_links G forward n anchors acc) as [nr|] eqn:E; [|discriminate].
    eapply incl_tran; [apply (direct_links_grows _ _ _ _ _ _ E) | now apply IH].
Qed.

Lemma anchor_links_collects G forward anchors todo : forall acc out node n ps p,
  anchor_links G forward anchors todo acc = Some out ->
  In node todo -> In n anchors ->
  (if forward then all_simple_paths_to G node n
   else all_simple_paths_to G n node) = Some ps ->
  In p ps -> length p = 2%nat -> In n out.
Proof.
  induction todo as [|n0 r IH]; intros acc out node n ps p H Hnode Hn Hps Hp Hlen;
    [contradiction|].
  cbn [anchor_links] in H. unfold bind in H.
  destruct (direct_links G forward n0 anchors acc) as [nr|] eqn:E; [|discriminate].
  destruct Hnode as [->|Hnode].
  - apply (anchor_links_grows _ _ _ _ _ _ H).
    now apply (direct_links_collects _ _ _ _ _ _ n ps p E).
  - now apply (IH _ _ node n ps p H).
Qed.

(** Every node on the removal list is out of the graph afterwards. *)
Lemma fold_drop_anchor_removes l : forall G roots leafs n,
  In n l -> ~ In n (nodes (fst (fst (fold_left drop_anchor l (G, roots, leafs))))).
Proof.
  induction l as [|n0 r IH]; intros G roots leafs n Hn; [contradiction|].
  cbn [fold_left].
  destruct Hn as [->|Hn];
    [|destruct (drop_anchor (G, roots, leafs) n0) as [[G1 roots1] leafs1];
      now apply IH].
  destruct (drop_anchor (G, roots, leafs) n) as [[G1 roots1] leafs1] eqn:E1.
  assert (Hgone : ~ In n (nodes G1)).
  { unfold drop_anchor in E1. destruct (remove_node G n) as [G'|] eqn:Eg.
    - pose proof (remove_node_gone _ _ _ Eg) as Hg.
      destruct (Py.list_remove n roots); [|injection E1 as <- <- <-; exact Hg].
      destruct (Py.list_remove n leafs); injection E1 as <- <- <-; exact Hg.
    - injection E1 as <- <- <-. unfold remove_node in Eg.
      destruct (has_node G n) eqn:En; [discriminate|]. now apply mem_false. }
  destruct (fold_left drop_anchor r (G1, roots1, leafs1)) as [[G' roots'] leafs'] eqn:E.
  destruct (fold_drop_anchor_steps _ _ _ _ _ _ _ E) as (Hs & _).
  cbn [fst]. intros Hin. apply Hgone. now apply (proj1 Hs).
Qed.

(** X22. In the graph [build_paths_graph] returns no edge joins two
    clusters of the leaf list it was given, and none joins two clusters
    of the root list: of two linked leafs the second is removed, of two
    linked roots the first. *)
Theorem build_paths_graph_unlinks_anchors (G0 : DiGraph)
    (cons : Z -> option ClusterInfo) (full_paths_roots full_paths_leafs : list Z)
    (G : DiGraph) (roots leafs : list Z) :
  wf_graph G0 ->
  build_paths_graph G0 cons full_paths_roots full_paths_leafs = Some (G, roots, leafs) ->
  forall a b, In (a, b) (edges G) ->
    ~ (In a full_paths_leafs /\ In b full_paths_leafs) /\
    ~ (In a full_paths_roots /\ In b full_paths_roots).
Proof.
  intros Hwf0 H a b Hab.
  unfold build_paths_graph in H.
  set (G1 := remove_selfloops G0) in *.
  set (G2 := match remove_node G1 0 with Some G' => G' | None => G1 end) in *.
  unfold bind in H.
  destruct (anchor_links G2 true _ _ _) as [nr1|] eqn:El; [|discriminate].
  destruct (anchor_links G2 false _ _ _) as [node_remove|] eqn:Er; [|discriminate].
  destruct (fold_left drop_anchor node_remove _) as [[G4 roots4] leafs4] eqn:E4.
  destruct (detours G4 (nodes G4) []) as [path_remove|] eqn:Ed; [|discriminate].
  injection H as <- <- <-.
  assert (Hwf1 : wf_graph G1) by (now apply remove_selfloops_wf).
  assert (Hwf2 : wf_graph G2).
  { unfold G2. destruct (remove_node G1 0) eqn:E0; [|assumption].
    now apply (remove_node_wf G1 0). }
  assert (Hwf4 : wf_graph G4).
  { pose proof (fold_drop_anchor_wf node_remove (remove_nested G2 cons)
                  full_paths_roots full_paths_leafs) as Hw.
    rewrite E4 in Hw. apply Hw. now apply fold_prune_wf. }
  pose proof (fold_drop_first_hop_shrinks path_remove G4) as [_ Hsub].
  assert (Hab4 : In (a, b) (edges G4)) by (now apply Hsub).
  destruct (fold_drop_anchor_steps _ _ _ _ _ _ _ E4) as (Hs4 & _).
  assert (Hab2 : In (a, b) (edges G2)).
  { apply (proj2 (remove_nested_shrinks cons G2)). now apply (proj2 Hs4). }
  assert (Hne : a <> b).
  { assert (Hab1 : In (a, b) (edges G1)).
    { unfold G2 in Hab2. destruct (remove_node G1 0) eqn:E0; [|assumption].
      now apply (proj2 (remove_node_shrinks _ _ _ E0)). }
    cbn [G1 remove_selfloops edges] in Hab1. apply filter_In in Hab1.
    destruct Hab1 as [_ Hn]. cbn [fst snd] in Hn.
    now apply negb_true_iff, Z.eqb_neq in Hn. }
  destruct (Hwf2 _ Hab2) as [Ha2 Hb2]. cbn [fst snd] in Ha2, Hb2.
  destruct (Hwf4 _ Hab4) as [Ha4 Hb4]. cbn [fst snd] in Ha4, Hb4.
  assert (Hlen : (2 <= length (nodes G2))%nat).
  { change 2%nat with (length [a; b]). apply NoDup_incl_length.
    - repeat constructor; cbn; intuition congruence.
    - intros y [<-|[<-|[]]]; assumption. }
  assert (Hps : all_simple_paths_to G2 a b = Some (simple_paths_from G2 a [b])).
  { unfold all_simple_paths_to, has_node.
    now rewrite (proj2 (mem_In _ _) Ha2), (proj2 (mem_In _ _) Hb2). }
  pose proof (direct_path_found G2 a b Hlen Hab2 Hne) as Hpath.
  pose proof (fold_drop_anchor_removes node_remove (remove_nested G2 cons)
                full_paths_roots full_paths_leafs) as Hrm.
  rewrite E4 in Hrm. cbn [fst] in Hrm.
  split.
  - intros [Hal Hbl].
    apply (Hrm b); [|assumption].
    apply (anchor_links_grows _ _ _ _ _ _ Er).
    exact (anchor_links_collects G2 true full_paths_leafs full_paths_leafs [] nr1
             a b (simple_paths_from G2 a [b]) [a; b] El Hal Hbl Hps Hpath eq_refl).
  - intros [Har Hbr].
    apply (Hrm a); [|assumption].
    exact (anchor_links_collects G2 false full_paths_roots full_paths_roots nr1
             node_remove b a (simple_paths_from G2 a [b]) [a; b] Er Hbr Har Hps Hpath
             eq_refl).
Qed.

Lemma build_paths_graph_unlinks_anchors_witness :
  ~ (In 2 [3; 4] /\ In 3 [3; 4]) /\ ~ (In 2 [1; 2] /\ In 3 [1; 2]).
Proof.
  assert (H : build_paths_graph triangle_graph triangle_cons [1; 2] [3; 4]
              = Some (mkGraph [2; 3] [(2, 3)], [2], [3; 4]))
    by (vm_compute; reflexivity).
  apply (build_paths_graph_unlinks_anchors _ _ _ _ _ _ _ triangle_graph_wf H 2 3).
  cbn. tauto.
Defined.

(** ** Exits of [flye_consensus] that do not clean up *)

(** X24. Whenever the graph file lacks the edge or one of the three
    tools fails, [flye_consensus] ends, by an exception or by its early
    return, with the reads file of the cluster still on disk. *)
Theorem failed_call_leaves_reads_file (env : Env) (cluster : Z) (edge : string)
    (cl : list Row) (w : World) :
  gfa_sequence env edge = None \/ sort_ok env cluster = false
  \/ index_ok env cluster = false \/ polish env edge cluster = None ->
  has_file (fst (flye_consensus env cluster edge cl w)) (reads_bam cluster) = true.
Proof.
  intros Hfail. unfold flye_consensus.
  destruct (extract_reads _ _ _) as [cluster_start cluster_end].
  assert (H1 : has_file (create (reads_bam cluster) w) (reads_bam cluster) = true)
    by apply create_has_file.
  destruct (gfa_sequence env edge) as [sequence|]; [|exact H1].
  destruct (sort_ok env cluster); cbn [negb fst];
    [|repeat first [apply create_has_file | apply create_keeps_file]].
  destruct (index_ok env cluster); cbn [negb fst];
    [|repeat first [apply create_has_file | apply create_keeps_file]].
  destruct (polish env edge cluster) as [out|].
  - destruct Hfail as [H|[H|[H|H]]]; discriminate.
  - cbn [fst]. unfold has_file. cbn [files].
    fold (has_file (create (sorted_bai cluster)
                      (create (sorted_bam cluster)
                         (create (cut_fasta edge cluster)
                            (create (reads_bam cluster) w)))) (reads_bam cluster)).
    repeat first [apply create_has_file | apply create_keeps_file].
Qed.

Lemma failed_call_leaves_reads_file_witness :
  has_file (fst (flye_consensus tools_ok 1 "edge_9" sample_clusters empty_world))
    (reads_bam 1) = true.
Proof.
  apply (failed_call_leaves_reads_file tools_ok 1 "edge_9" sample_clusters empty_world).
  left. reflexivity.
Defined.

(** ** The distance after a failed polishing run *)

Lemma py_slice_nil {A : Type} (a b : Z) : py_slice (@nil A) a b = [].
Proof. unfold py_slice. rewrite skipn_nil. apply firstn_nil. Qed.

(** X25. When the polisher fails for the first cluster, its consensus
    is empty, and [cluster_distance_via_alignment], if it returns at
    all, returns the distance 1 whatever the second cluster is. *)
Theorem failed_polish_gives_distance_one (env : Env) (first_cl second_cl : Z)
    (cl : list Row) (edge : string) (w w' : World) (d : Q) :
  polish env edge first_cl = None ->
  cluster_distance_via_alignment env first_cl second_cl cl edge w = (w', Returned d) ->
  d = 1%Q.
Proof.
  intros Hp. unfold cluster_distance_via_alignment.
  destruct (flye_consensus env first_cl edge cl w) as [w1 [first_cl_dict|]] eqn:E1;
    [|discriminate].
  assert (Hempty : consensus first_cl_dict = ""%string).
  { unfold flye_consensus in E1.
    destruct (extract_reads _ _ _) as [cluster_start cluster_end].
    destruct (gfa_sequence env edge); [|discriminate].
    destruct (sort_ok env first_cl); cbn [negb] in E1; [|discriminate].
    destruct (index_ok env first_cl); cbn [negb] in E1; [|discriminate].
    rewrite Hp in E1. injection E1 as _ <-. reflexivity. }
  destruct (flye_consensus env second_cl edge cl w1) as [w2 [second_cl_dict|]];
    [|discriminate].
  intros H. injection H as _ <-.
  unfold consensus_distance. rewrite Hempty. cbn [list_ascii_of_string].
  rewrite py_slice_nil. cbn [length Z.of_nat Z.eqb].
  now rewrite orb_true_r.
Qed.

Lemma failed_polish_gives_distance_one_witness :
  snd (cluster_distance_via_alignment polisher_fails 1 2 sample_clusters "edge_1"
         empty_world) = Returned 1%Q.
Proof.
  destruct (cluster_distance_via_alignment polisher_fails 1 2 sample_clusters "edge_1"
              empty_world) as [w' [d|]] eqn:E.
  - cbn [snd]. f_equal.
    apply (failed_polish_gives_distance_one polisher_fails 1 2 sample_clusters "edge_1"
             empty_world w' d eq_refl E).
  - vm_compute in E. discriminate.
Defined.

(** ** The consensus provider *)

Section ProviderFacts.

Import ConsensusProvider.

Variable external : string -> Z -> list Row -> World -> World * Consensus.

Lemma same_key_eq k k' : same_key k k' = true <-> k = k'.
Proof.
  destruct k as [e c], k' as [e' c']. unfold same_key. cbn [fst snd].
  rewrite andb_true_iff, String.eqb_eq, Z.eqb_eq.
  split; [intros [-> ->]; reflexivity | intros H; now injection H].
Qed.

Lemma cache_get_app d k c k' :
  cache_get (d ++ [(k, c)]) k'
  = match cache_get d k' with
    | Some v => Some v
    | None => if same_key k k' then Some c else None
    end.
Proof.
  induction d as [|[k0 c0] r IH]; cbn [app cache_get]; [reflexivity|].
  now destruct (same_key k0 k').
Qed.

(** What one request does to the provider. *)
Lemma request_spec p cluster edge cl w p' w' c :
  request external p cluster edge cl w = (p', w', c) ->
  cache_get (consensus_dict p') (edge, cluster) = Some c /\
  (forall k v, cache_get (consensus_dict p) k = Some v ->
               cache_get (consensus_dict p') k = Some v) /\
  ((cache_get (consensus_dict p) (edge, cluster) = Some c /\ p' = p /\ w' = w) \/
   (cache_get (consensus_dict p) (edge, cluster) = None /\
    computed p' = computed p ++ [(edge, cluster)])).
Proof.
  unfold request. destruct (cache_get (consensus_dict p) (edge, cluster)) as [c0|] eqn:E.
  - intros H. injection H as <- <- <-. split; [assumption|]. split; [auto|]. left. auto.
  - destruct (external edge cluster cl w) as [w1 c1]. intros H. injection H as <- <- <-.
    cbn [consensus_dict computed]. split; [|split].
    + rewrite cache_get_app, E.
      now rewrite (proj2 (same_key_eq (edge, cluster) (edge, cluster)) eq_refl).
    + intros k v Hk. now rewrite cache_get_app, Hk.
    + right. auto.
Qed.

Lemma request_keeps_ok p cluster edge cl w p' w' c :
  request external p cluster edge cl w = (p', w', c) ->
  provider_ok p -> provider_ok p'.
Proof.
  intros H [Hnd Hc]. destruct (request_spec _ _ _ _ _ _ _ _ H) as (Hget & Hmono & Hcase).
  destruct Hcase as [(_ & -> & _)|(Hmiss & Hrec)]; [now split|].
  split.
  - rewrite Hrec. apply NoDup_app; [assumption | repeat constructor; intros [] |].
    intros k Hk [<-|[]]. now apply (Hc _ Hk).
  - intros k Hk. rewrite Hrec in Hk. apply in_app_or in Hk.
    destruct Hk as [Hk|[<-|[]]]; [|congruence].
    destruct (cache_get (consensus_dict p) k) as [v|] eqn:E;
      [|now apply Hc in Hk].
    now rewrite (Hmono _ _ E).
Qed.

(** What a run does to the provider. *)
Lemma serve_spec : forall reqs p w p' w' results,
  serve external reqs p w = (p', w', results) ->
  provider_ok p ->
  provider_ok p' /\
  length results = length reqs /\
  (forall k v, cache_get (consensus_dict p) k = Some v ->
               cache_get (consensus_dict p') k = Some v) /\
  (forall k, In k (computed p') ->
             In k (computed p) \/ cache_get (consensus_dict p) k = None) /\
  (forall r c, In (r, c) (combine reqs results) ->
               cache_get (consensus_dict p') (key r) = Some c).
Proof.
  induction reqs as [|r rest IH]; intros p w p' w' results H Hok; cbn [serve] in H.
  - injection H as <- <- <-. split; [assumption|]. split; [reflexivity|].
    split; [auto|]. split; [intros k Hk; now left|]. intros r c [].
  - destruct (request external p (req_cluster r) (req_edge r) (req_cl r) w)
      as [[p1 w1] c1] eqn:E1.
    destruct (serve external rest p1 w1) as [[p2 w2] cs] eqn:E2.
    injection H as <- <- <-.
    pose proof (request_keeps_ok _ _ _ _ _ _ _ _ E1 Hok) as Hok1.
    destruct (request_spec _ _ _ _ _ _ _ _ E1) as (Hget & Hmono & Hcase).
    destruct (IH _ _ _ _ _ E2 Hok1) as (Hok2 & Hlen & Hmono2 & Hnew & Hres).
    split; [assumption|]. split; [cbn; now rewrite Hlen|].
    split; [intros k v Hk; apply Hmono2; now apply Hmono|].
    split.
    + intros k Hk. destruct (Hnew k Hk) as [Hin|Hnone].
      * destruct Hcase as [(_ & -> & _)|(Hmiss & Hrec)]; [now left|].
        rewrite Hrec in Hin. apply in_app_or in Hin.
        destruct Hin as [Hin|[<-|[]]]; [now left | now right].
      * right. destruct (cache_get (consensus_dict p) k) as [v|] eqn:E; [|reflexivity].
        rewrite (Hmono _ _ E) in Hnone. discriminate.
    + intros r' c' [Heq|Hin].
      * injection Heq as <- <-. apply Hmono2. exact Hget.
      * now apply Hres.
Qed.

End ProviderFacts.

(** C7. In a run of the provider over any cache loaded at startup, any
    external computation and any sequence of requests, no key is
    computed twice, a key of the loaded cache is not computed at all,
    every request is answered, and all requests for one key are
    answered with the same, memoized result. *)
Theorem consensus_computed_once_per_key
    (external : string -> Z -> list Row -> World -> World * Consensus)
    (dict : ConsensusProvider.Cache) (reqs : list ConsensusProvider.Request)
    (w : World) :
  let '(p, _, results) :=
    ConsensusProvider.serve external reqs (ConsensusProvider.mkProvider dict []) w in
  NoDup (ConsensusProvider.computed p) /\
  (forall k, In k (ConsensusProvider.computed p) ->
             ConsensusProvider.cache_get dict k = None) /\
  length results = length reqs /\
  (forall r c r' c',
     In (r, c) (combine reqs results) -> In (r', c') (combine reqs results) ->
     ConsensusProvider.key r = ConsensusProvider.key r' -> c = c').
Proof.
  destruct (ConsensusProvider.serve external reqs (ConsensusProvider.mkProvider dict []) w)
    as [[p w'] results] eqn:E.
  assert (Hok : provider_ok (ConsensusProvider.mkProvider dict [])).
  { split; [constructor | intros k []]. }
  destruct (serve_spec external _ _ _ _ _ _ E Hok) as ([Hnd _] & Hlen & _ & Hnew & Hres).
  split; [assumption|]. split; [|split; [assumption|]].
  - intros k Hk. destruct (Hnew k Hk) as [[]|H]. exact H.
  - intros r c r' c' H1 H2 Hk.
    apply Hres in H1. apply Hres in H2. rewrite Hk in H1. congruence.
Qed.

(** Two distance calls that share cluster 1 of an edge: four requests,
    three computations, and the polisher runs once for cluster 1. *)
Lemma consensus_computed_once_per_key_witness :
  let '(p, w, results) :=
    ConsensusProvider.serve (ConsensusProvider.polished tools_ok) two_distance_calls
      (ConsensusProvider.mkProvider [] []) empty_world in
  ConsensusProvider.computed p
  = [("edge_1"%string, 1); ("edge_1"%string, 2); ("edge_1"%string, 3)] /\
  polish_runs w = ConsensusProvider.computed p /\
  nth_error results 0 = nth_error results 2 /\
  NoDup (ConsensusProvider.computed p).
Proof.
  pose proof (consensus_computed_once_per_key (ConsensusProvider.polished tools_ok) []
                two_distance_calls empty_world) as H.
  destruct (ConsensusProvider.serve (ConsensusProvider.polished tools_ok)
              two_distance_calls (ConsensusProvider.mkProvider [] []) empty_world)
    as [[p w] results] eqn:E.
  vm_compute in E. injection E as <- <- <-.
  split; [reflexivity|]. split; [reflexivity|]. split; [reflexivity|].
  exact (proj1 H).
Defined.
